(** * Reed-Solomon codec over GF(q): a shallow embedding of [reedsolo.py]

    The Python class [RSCodec] is embedded function by function.  Python
    integers are [Z], Python lists are [list Z] indexed with Python's rules
    (negative indices wrap once, anything else raises [IndexError]), the
    encoder's [bytearray] buffer is a [list Z] whose stores are checked to
    lie in [range(0, 256)], and every raising construct lives in the error
    monad [result]. *)

From Stdlib Require Import ZArith Lia String List Bool.
From Stdlib Require Import MSets.MSetPositive.
From stdpp Require Import base tactics option list gmap.

Local Open Scope Z_scope.

(** ** Exceptions and the error monad *)

Inductive exn : Type :=
| ValueError (msg : string)
| IndexError
| KeyError
| ZeroDivisionError
| OverflowError
| ReedSolomonError (msg : string).

Inductive result (A : Type) : Type :=
| Ok (a : A)
| Raise (e : exn).
Arguments Ok {A} a.
Arguments Raise {A} e.

(** The exceptions the source raises, with their messages. *)
Definition message_too_long : exn := ValueError "message too long".
Definition too_many_erasures : exn :=
  ReedSolomonError "Too many erasures to correct".
Definition too_many_errors : exn :=
  ReedSolomonError "Too many errors to correct".
Definition could_not_locate : exn := ReedSolomonError "Could not locate error".
Definition could_not_correct : exn :=
  ReedSolomonError "Could not correct message".
(** The exceptions of the Python built-ins the source calls. *)
Definition max_empty_error : exn :=
  ValueError "max() arg is an empty sequence".
Definition byte_error : exn := ValueError "byte must be in range(0, 256)".
Definition negative_count : exn := ValueError "negative count".

Definition bind {A B} (m : result A) (f : A -> result B) : result B :=
  match m with
  | Ok a => f a
  | Raise e => Raise e
  end.

Notation "x <- m ;; f" := (bind m (fun x => f))
  (at level 20, m at level 99, f at level 200, right associativity).
Notation "' pat <- m ;; f" := (bind m (fun x => match x with pat => f end))
  (at level 20, pat pattern, m at level 99, f at level 200,
   right associativity).

(** [for i in l: s = body(i, s)] *)
Fixpoint for_ {S : Type} (l : list Z) (s : S) (body : Z -> S -> result S)
  : result S :=
  match l with
  | [] => Ok s
  | i :: l' => s' <- body i s ;; for_ l' s' body
  end.

(** [[f(i) for i in l]] *)
Fixpoint mapM {A B : Type} (f : A -> result B) (l : list A) : result (list B) :=
  match l with
  | [] => Ok []
  | a :: l' => b <- f a ;; bs <- mapM f l' ;; Ok (b :: bs)
  end.

(** ** Python sequences *)

Definition len {A} (l : list A) : Z := Z.of_nat (length l).

(** [range(a, b)] *)
Definition py_range (a b : Z) : list Z := seqZ a (b - a).

(** [[v] * k]: empty when [k <= 0]. *)
Definition py_repeat (v : Z) (k : Z) : list Z := replicate (Z.to_nat k) v.

(** Index normalisation of [l[i]]: a negative index counts from the end. *)
Definition py_index {A} (l : list A) (i : Z) : option nat :=
  let i' := if i <? 0 then i + len l else i in
  if (0 <=? i') && (i' <? len l) then Some (Z.to_nat i') else None.

(** [l[i]] *)
Definition py_get (l : list Z) (i : Z) : result Z :=
  match py_index l i with
  | Some j => match l !! j with Some v => Ok v | None => Raise IndexError end
  | None => Raise IndexError
  end.

(** [l[i] = v] *)
Definition py_set (l : list Z) (i : Z) (v : Z) : result (list Z) :=
  match py_index l i with
  | Some j => Ok (<[j := v]> l)
  | None => Raise IndexError
  end.

(** [l.pop()] (the popped value is unused in the source) *)
Definition py_pop (l : list Z) : result (list Z) :=
  match l with
  | [] => Raise IndexError
  | _ => Ok (removelast l)
  end.

(** [max(l)] *)
Definition py_max (l : list Z) : result Z :=
  match l with
  | [] => Raise max_empty_error
  | x :: l' => Ok (fold_left Z.max l' x)
  end.

(** Bound normalisation of a slice [l[a:b]]. *)
Definition py_bound {A} (l : list A) (a : Z) : nat :=
  let a' := if a <? 0 then a + len l else a in
  Z.to_nat (Z.min (Z.max a' 0) (len l)).

(** [l[a:b]] *)
Definition py_slice {A} (l : list A) (a b : Z) : list A :=
  take (py_bound l b - py_bound l a)%nat (drop (py_bound l a) l).

(** every second element, starting with the first *)
Fixpoint every_other {A} (l : list A) : list A :=
  match l with
  | x :: _ :: l' => x :: every_other l'
  | l' => l'
  end.

(** [l[a:b:2]] *)
Definition py_slice2 {A} (l : list A) (a b : Z) : list A :=
  every_other (py_slice l a b).

(** ** bytearray *)

Definition is_byte (v : Z) : bool := (0 <=? v) && (v <? 256).


(** [bytearray(k)] *)
Definition bytearray (k : Z) : result (list Z) :=
  if k <? 0 then Raise negative_count else Ok (py_repeat 0 k).

(** [b[i] = v] on a bytearray, at an index that was just read *)
Definition ba_set (b : list Z) (i : Z) (v : Z) : result (list Z) :=
  if is_byte v then py_set b i v else Raise byte_error.

(** [b[:stop] = vals] on a bytearray, for [stop >= 0] *)
Definition ba_set_prefix (b : list Z) (stop : Z) (vals : list Z)
  : result (list Z) :=
  if forallb is_byte vals then Ok (vals ++ drop (py_bound b stop) b)
  else Raise byte_error.

(** ** The codec *)

Definition _gf_poly : gmap Z Z :=
  list_to_map
    [ (4, 7); (8, 11); (16, 19); (32, 37); (64, 67); (128, 137); (256, 285);
      (512, 529); (1024, 1033); (2048, 2053); (4096, 4179); (8192, 8219);
      (16384, 17475); (32768, 32771); (65536, 69643) ].

Record RSCodec : Type := mkRSCodec {
  n : Z;
  k : Z;
  q : Z;
  nsym : Z;
  gf_exp : list Z;
  gf_log : list Z
}.

(** One round of the first loop of [calc_gf_elements]: the new value of [x]. *)
Definition gf_next (q poly x : Z) : Z :=
  let x := Z.shiftl x 1 in
  if Z.land x q =? 0 then x else Z.lxor x poly.

(** [sys.maxsize] of a 64-bit build: the largest length of a sequence. *)
Definition sys_maxsize : Z := 2 ^ 63 - 1.

(** [[v] * m] where the list is built anew: [m] copies of [v], none when
    [m <= 0]. A count beyond [sys.maxsize] raises [OverflowError]. Running
    out of memory below that bound ([MemoryError]) depends on the machine
    and is left out: the embedding has no bound on memory. *)
Definition py_alloc (v m : Z) : result (list Z) :=
  if m >? sys_maxsize then Raise OverflowError else Ok (py_repeat v m).

(** [RSCodec.calc_gf_elements]; the two tables are allocated before the
    polynomial is looked up, as in the source. *)
Definition calc_gf_elements (n q : Z) : result (list Z * list Z) :=
  gf_exp <- py_alloc 1 (q * 2) ;;
  gf_log <- py_alloc 0 q ;;
  let x := 1 in
  poly <- match _gf_poly !! q with Some p => Ok p | None => Raise KeyError end ;;
  '(x, gf_exp, gf_log) <-
     for_ (py_range 1 n) (x, gf_exp, gf_log) (fun i '(x, gf_exp, gf_log) =>
       let x := gf_next q poly x in
       gf_exp <- py_set gf_exp i x ;;
       gf_log <- py_set gf_log x i ;;
       Ok (x, gf_exp, gf_log)) ;;
  gf_exp <-
     for_ (py_range n (q * 2)) gf_exp (fun i gf_exp =>
       v <- py_get gf_exp (i - n) ;;
       py_set gf_exp i v) ;;
  Ok (gf_exp, gf_log).

(** [RSCodec.__init__] *)
Definition RSCodec_init (n k : Z) : result RSCodec :=
  let q := n + 1 in
  let nsym := n - k in
  '(gf_exp, gf_log) <- calc_gf_elements n q ;;
  Ok (mkRSCodec n k q nsym gf_exp gf_log).

Section Methods.
Variable self : RSCodec.

Definition gf_mul (x y : Z) : result Z :=
  if (x =? 0) || (y =? 0) then Ok 0
  else
    lx <- py_get (gf_log self) x ;;
    ly <- py_get (gf_log self) y ;;
    py_get (gf_exp self) (lx + ly).

Definition gf_div (x y : Z) : result Z :=
  if y =? 0 then Raise ZeroDivisionError
  else if x =? 0 then Ok 0
  else
    lx <- py_get (gf_log self) x ;;
    ly <- py_get (gf_log self) y ;;
    py_get (gf_exp self) (lx + n self - ly).

Definition gf_poly_scale (p : list Z) (x : Z) : result (list Z) :=
  mapM (fun i => pi <- py_get p i ;; gf_mul pi x) (py_range 0 (len p)).

Definition gf_poly_add (p q : list Z) : result (list Z) :=
  let r := py_repeat 0 (Z.max (len p) (len q)) in
  r <- for_ (py_range 0 (len p)) r (fun i r =>
         pi <- py_get p i ;;
         py_set r (i + len r - len p) pi) ;;
  for_ (py_range 0 (len q)) r (fun i r =>
    old <- py_get r (i + len r - len q) ;;
    qi <- py_get q i ;;
    py_set r (i + len r - len q) (Z.lxor old qi)).

Definition gf_poly_mul (p q : list Z) : result (list Z) :=
  let r := py_repeat 0 (len p + len q - 1) in
  for_ (py_range 0 (len q)) r (fun j r =>
    for_ (py_range 0 (len p)) r (fun i r =>
      old <- py_get r (i + j) ;;
      pi <- py_get p i ;;
      qj <- py_get q j ;;
      m <- gf_mul pi qj ;;
      py_set r (i + j) (Z.lxor old m))).

Definition gf_poly_eval (p : list Z) (x : Z) : result Z :=
  y <- py_get p 0 ;;
  for_ (py_range 1 (len p)) y (fun i y =>
    m <- gf_mul y x ;;
    pi <- py_get p i ;;
    Ok (Z.lxor m pi)).

Definition rs_generator_poly (nsym : Z) : result (list Z) :=
  let g := [1] in
  for_ (py_range 1 (nsym + 1)) g (fun i g =>
    e <- py_get (gf_exp self) i ;;
    gf_poly_mul g [1; e]).

Definition rs_encode_msg (msg_in : list Z) (nsym : Z) : result (list Z) :=
  if len msg_in + nsym >? n self then Raise message_too_long
  else
    gen <- rs_generator_poly nsym ;;
    msg_out <- bytearray (len msg_in + nsym) ;;
    msg_out <- ba_set_prefix msg_out (len msg_in) msg_in ;;
    msg_out <-
      for_ (py_range 0 (len msg_in)) msg_out (fun i msg_out =>
        coef <- py_get msg_out i ;;
        if coef =? 0 then Ok msg_out
        else
          for_ (py_range 0 (len gen)) msg_out (fun j msg_out =>
            old <- py_get msg_out (i + j) ;;
            gj <- py_get gen j ;;
            m <- gf_mul gj coef ;;
            ba_set msg_out (i + j) (Z.lxor old m))) ;;
    ba_set_prefix msg_out (len msg_in) msg_in.

Definition rs_calc_syndromes (msg : list Z) (nsym : Z) : result (list Z) :=
  mapM (fun i => e <- py_get (gf_exp self) i ;; gf_poly_eval msg e)
       (py_range 0 nsym).

Definition rs_correct_errata (msg synd pos : list Z) : result (list Z) :=
  let self_q := q self in
  let q := [1] in
  q <- for_ (py_range 0 (len pos)) q (fun i q =>
         pi <- py_get pos i ;;
         x <- py_get (gf_exp self) (len msg - 1 - pi) ;;
         gf_poly_mul q [x; 1]) ;;
  let p := py_slice synd 0 (len pos) in
  let p := rev p in
  p <- gf_poly_mul p q ;;
  let p := py_slice p (len p - len pos) (len p) in
  let q := py_slice2 q (Z.land (len q) 1) (len q) in
  for_ (py_range 0 (len pos)) msg (fun i msg =>
    pi <- py_get pos i ;;
    x <- py_get (gf_exp self) (pi + self_q - len msg) ;;
    y <- gf_poly_eval p x ;;
    xx <- gf_mul x x ;;
    z <- gf_poly_eval q xx ;;
    pi <- py_get pos i ;;
    old <- py_get msg pi ;;
    xz <- gf_mul x z ;;
    d <- gf_div y xz ;;
    py_set msg pi (Z.lxor old d)).

(** The Berlekamp-Massey loop of [rs_find_errors]; the state is
    [(err_poly, old_poly)]. *)
Definition rs_find_errors_loop (synd : list Z) : result (list Z * list Z) :=
  let err_poly := [1] in
  let old_poly := [1] in
  for_ (py_range 0 (len synd)) (err_poly, old_poly)
    (fun i '(err_poly, old_poly) =>
      let old_poly := old_poly ++ [0] in
      delta <- py_get synd i ;;
      delta <- for_ (py_range 1 (len err_poly)) delta (fun j delta =>
                 e <- py_get err_poly (len err_poly - 1 - j) ;;
                 s <- py_get synd (i - j) ;;
                 m <- gf_mul e s ;;
                 Ok (Z.lxor delta m)) ;;
      if delta =? 0 then Ok (err_poly, old_poly)
      else
        '(err_poly, old_poly) <-
           (if len old_poly >? len err_poly then
              new_poly <- gf_poly_scale old_poly delta ;;
              inv <- gf_div 1 delta ;;
              old_poly <- gf_poly_scale err_poly inv ;;
              Ok (new_poly, old_poly)
            else Ok (err_poly, old_poly)) ;;
        scaled <- gf_poly_scale old_poly delta ;;
        err_poly <- gf_poly_add err_poly scaled ;;
        Ok (err_poly, old_poly)).

Definition rs_find_errors (synd : list Z) (nmess : Z)
  : result (option (list Z)) :=
  '(err_poly, _) <- rs_find_errors_loop synd ;;
  let errs := len err_poly - 1 in
  if errs * 2 >? len synd then
    Raise too_many_errors
  else
    let err_pos := [] in
    err_pos <- for_ (py_range 0 nmess) err_pos (fun i err_pos =>
                 e <- py_get (gf_exp self) (n self - i) ;;
                 v <- gf_poly_eval err_poly e ;;
                 if v =? 0 then Ok (err_pos ++ [nmess - 1 - i])
                 else Ok err_pos) ;;
    if negb (len err_pos =? errs) then Ok None
    else Ok (Some err_pos).

Definition rs_forney_syndromes (synd pos : list Z) (nmess : Z)
  : result (list Z) :=
  let fsynd := synd in
  for_ (py_range 0 (len pos)) fsynd (fun i fsynd =>
    pi <- py_get pos i ;;
    x <- py_get (gf_exp self) (nmess - 1 - pi) ;;
    fsynd <- for_ (py_range 0 (len fsynd - 1)) fsynd (fun i fsynd =>
               a <- py_get fsynd i ;;
               m <- gf_mul a x ;;
               b <- py_get fsynd (i + 1) ;;
               py_set fsynd i (Z.lxor m b)) ;;
    py_pop fsynd).

(** The erasure scan of [rs_correct_msg]; the state is
    [(msg_out, erase_pos)]. *)
Definition find_erasures (msg_out : list Z) : result (list Z * list Z) :=
  let erase_pos := [] in
  for_ (py_range 0 (len msg_out)) (msg_out, erase_pos)
    (fun i '(msg_out, erase_pos) =>
      v <- py_get msg_out i ;;
      if v <? 0 then
        msg_out <- py_set msg_out i 0 ;;
        Ok (msg_out, erase_pos ++ [i])
      else Ok (msg_out, erase_pos)).

Definition rs_correct_msg (msg_in : list Z) (nsym : Z) : result (list Z) :=
  if len msg_in >? n self then Raise message_too_long
  else
    let msg_out := msg_in in
    '(msg_out, erase_pos) <- find_erasures msg_out ;;
    if len erase_pos >? nsym then
      Raise too_many_erasures
    else
      synd <- rs_calc_syndromes msg_out nsym ;;
      mx <- py_max synd ;;
      if mx =? 0 then Ok (py_slice msg_out 0 (- nsym))
      else
        fsynd <- rs_forney_syndromes synd erase_pos (len msg_out) ;;
        err_pos <- rs_find_errors fsynd (len msg_out) ;;
        match err_pos with
        | None => Raise could_not_locate
        | Some err_pos =>
            msg_out <- rs_correct_errata msg_out synd (erase_pos ++ err_pos) ;;
            synd <- rs_calc_syndromes msg_out nsym ;;
            mx <- py_max synd ;;
            if mx >? 0 then
              Raise could_not_correct
            else Ok (py_slice msg_out 0 (- nsym))
        end.

(** The block operations of the specification: what [encode] and [decode]
    call on one chunk. *)
Definition encode_block (m : list Z) : result (list Z) :=
  rs_encode_msg m (nsym self).

Definition decode_block (r : list Z) : result (list Z) :=
  rs_correct_msg r (nsym self).
End Methods.

(** ** The chunking interface *)

Definition range_step_error : exn :=
  ValueError "range() arg 3 must not be zero".

(** [range(a, b, s)] *)
Definition py_range3 (a b s : Z) : result (list Z) :=
  if s =? 0 then Raise range_step_error
  else if 0 <? s then
    Ok ((fun j => a + j * s) <$> seqZ 0 ((b - a + s - 1) / s))
  else
    Ok ((fun j => a + j * s) <$> seqZ 0 ((a - b - s - 1) / (- s))).

(** [b.extend(vals)] on a bytearray *)
Definition ba_extend (b vals : list Z) : result (list Z) :=
  if forallb is_byte vals then Ok (b ++ vals) else Raise byte_error.

(** [RSCodec.encode], on [data] that is a sequence of integers already (the
    conversion of a [str] argument is left out). *)
Definition encode (self : RSCodec) (data : list Z) : result (list Z) :=
  let chunk_size := n self - nsym self in
  let enc := [] in
  starts <- py_range3 0 (len data) chunk_size ;;
  for_ starts enc (fun i enc =>
    let chunk := py_slice data i (i + chunk_size) in
    block <- rs_encode_msg self chunk (nsym self) ;;
    Ok (enc ++ block)).

(** [RSCodec.decode], on [data] that is a sequence of integers already. *)
Definition decode (self : RSCodec) (data : list Z) : result (list Z) :=
  let dec := [] in
  starts <- py_range3 0 (len data) (n self) ;;
  for_ starts dec (fun i dec =>
    let chunk := py_slice data i (i + n self) in
    block <- rs_correct_msg self chunk (nsym self) ;;
    ba_extend dec block).

(** * Vocabulary of the statements *)

(** The exceptions of a computation all satisfy [P]. *)
Definition raises {A} (P : exn -> Prop) (m : result A) : Prop :=
  match m with
  | Ok _ => True
  | Raise e => P e
  end.

(** [x] is a symbol of the codec's field. *)
Definition symbol (self : RSCodec) (x : Z) : Prop := 0 <= x < q self.

(** The value of [x] in [calc_gf_elements] after [j] rounds of its first
    loop. *)
Definition alpha_pow (q poly : Z) (j : Z) : Z :=
  Nat.iter (Z.to_nat j) (gf_next q poly) 1.

(** The first [fuel] values of [x], computed front to back. *)
Fixpoint alpha_list (q poly : Z) (fuel : nat) (x : Z) : list Z :=
  match fuel with
  | O => []
  | S fuel' => x :: alpha_list q poly fuel' (gf_next q poly x)
  end.

(** A linear-time check that the elements of [l] are pairwise distinct
    members of [[1, q)]; [seen] holds the elements met so far. *)
Fixpoint distinct_in (q : Z) (seen : PositiveSet.t) (l : list Z) : bool :=
  match l with
  | [] => true
  | x :: l' =>
      (1 <=? x) && (x <? q)
      && negb (PositiveSet.mem (Z.to_pos x) seen)
      && distinct_in q (PositiveSet.add (Z.to_pos x) seen) l'
  end.

(** The executable certificate that doubling modulo [poly] runs through
    all [n] nonzero elements of a field of size [q = n + 1 = 2^m]. *)
Definition tables_check (n q poly : Z) : bool :=
  (3 <=? n) && (q =? n + 1) && (q =? 2 ^ Z.log2 q)
  && distinct_in q PositiveSet.empty (alpha_list q poly (Z.to_nat n) 1).

(** What the rest of the codec needs of the two tables. *)
Record field_tables (self : RSCodec) : Prop := {
  ft_q : q self = n self + 1;
  ft_n : 3 <= n self;
  ft_pow2 : q self = 2 ^ Z.log2 (q self);
  ft_exp_len : len (gf_exp self) = 2 * q self;
  ft_log_len : len (gf_log self) = q self;
  ft_exp_range : forall i, 0 <= i < 2 * q self ->
    exists v, py_get (gf_exp self) i = Ok v /\ 1 <= v < q self;
  ft_period : forall i, n self <= i < 2 * q self ->
    py_get (gf_exp self) i = py_get (gf_exp self) (i - n self);
  ft_log_exp : forall j v, 0 <= j < n self ->
    py_get (gf_exp self) j = Ok v -> py_get (gf_log self) v = Ok j;
  ft_exp_log : forall x, 1 <= x < q self ->
    exists j, 0 <= j < n self /\ py_get (gf_log self) x = Ok j
              /\ py_get (gf_exp self) j = Ok x;
  ft_exp_0 : py_get (gf_exp self) 0 = Ok 1
}.

(** The exceptions of the Python built-ins, as opposed to the ones the
    source raises itself. *)
Definition builtin (e : exn) : Prop :=
  e = IndexError \/ e = ZeroDivisionError \/ e = max_empty_error
  \/ e = byte_error \/ e = negative_count.

(** The error taxonomy of the specification (its section 7) on the
    exceptions of the source: a missing field size, a division by zero, an
    over-long input and the four decoding failures. *)
Definition in_taxonomy (e : exn) : Prop :=
  e = KeyError \/ e = ZeroDivisionError \/ e = message_too_long
  \/ e = too_many_erasures \/ e = too_many_errors
  \/ e = could_not_locate \/ e = could_not_correct.

(** The received block with every erasure sentinel replaced by [0]. *)
Definition zero_erasures (msg : list Z) : list Z :=
  (fun v => if v <? 0 then 0 else v) <$> msg.

(** The indices, from [i] on and ascending, of the negative symbols. *)
Fixpoint erasures_from (i : Z) (msg : list Z) : list Z :=
  match msg with
  | [] => []
  | v :: msg' =>
      if v <? 0 then i :: erasures_from (i + 1) msg'
      else erasures_from (i + 1) msg'
  end.

Definition erasure_positions (msg : list Z) : list Z := erasures_from 0 msg.

(** The product of two symbols as a total function ([0] where [gf_mul]
    raises, which it does not on symbols). *)
Definition fmul (self : RSCodec) (x y : Z) : Z :=
  match gf_mul self x y with
  | Ok z => z
  | Raise _ => 0
  end.

(** [vals] added (XOR) coefficient by coefficient into the front of [buf]. *)
Fixpoint xor_into (buf vals : list Z) : list Z :=
  match buf, vals with
  | b :: buf', v :: vals' => Z.lxor b v :: xor_into buf' vals'
  | _, _ => buf
  end.

(** Polynomial long division over GF(q) as the specification words it,
    not as the encoder computes it in place: one step takes the leading
    coefficient [c] of the dividend, subtracts [c] times the monic divisor
    [g] aligned at the front, and drops the cancelled leading term. *)
Definition spec_division_step (self : RSCodec) (g dividend : list Z) : list Z :=
  match dividend with
  | [] => []
  | c :: rest => xor_into rest ((fun gj => fmul self gj c) <$> tail g)
  end.

(** The remainder of [dividend], of degree [len dividend - 1], after
    [steps] division steps: its low-order [len dividend - steps]
    coefficients. *)
Definition spec_remainder
    (self : RSCodec) (g : list Z) (steps : nat) (dividend : list Z) : list Z :=
  Nat.iter steps (spec_division_step self g) dividend.

(** [p] with zeros in front, up to [m] coefficients. *)
Definition pad_left (m : nat) (p : list Z) : list Z :=
  replicate (m - length p) 0 ++ p.

(** The sum of two polynomials: their coefficients added (XOR) with the
    low-order ends aligned. *)
Definition xor_aligned (p1 p2 : list Z) : list Z :=
  let m := Nat.max (length p1) (length p2) in
  zip_with Z.lxor (pad_left m p1) (pad_left m p2).

(** [x] to the power [k] in the field. *)
Definition fpow (self : RSCodec) (x : Z) (k : nat) : Z :=
  Nat.iter k (fun y => fmul self y x) 1.

(** One step of Horner's rule at [x]. *)
Definition horner (self : RSCodec) (x y c : Z) : Z :=
  Z.lxor (fmul self y x) c.

(** The value at [x] of the polynomial with the coefficients [p], highest
    degree first. *)
Definition peval (self : RSCodec) (p : list Z) (x : Z) : Z :=
  fold_left (horner self x) p 0.

(** The sum (XOR) of the symbols of a block. *)
Definition xor_sum (l : list Z) : Z := fold_left Z.lxor l 0.

(** The default codec [RSCodec(7, 3)], over GF(8). *)
Definition codec_7_3 : RSCodec :=
  mkRSCodec 7 3 8 4
    [1; 2; 4; 3; 6; 7; 5; 1; 2; 4; 3; 6; 7; 5; 1; 2]
    [0; 0; 1; 3; 2; 6; 4; 5].

(** [RSCodec(7, 7)]: no redundancy symbols. *)
Definition codec_7_7 : RSCodec :=
  mkRSCodec 7 7 8 0
    [1; 2; 4; 3; 6; 7; 5; 1; 2; 4; 3; 6; 7; 5; 1; 2]
    [0; 0; 1; 3; 2; 6; 4; 5].

(** * Reasoning about the embedding *)

(** ** Python sequences *)

Lemma len_nonneg {A} (l : list A) : 0 <= len l.
Proof. unfold len. lia. Qed.

Lemma len_app {A} (l1 l2 : list A) : len (l1 ++ l2) = len l1 + len l2.
Proof. unfold len. rewrite length_app. lia. Qed.

Lemma len_insert (l : list Z) (j : nat) (v : Z) : len (<[j := v]> l) = len l.
Proof. unfold len. by rewrite length_insert. Qed.

Lemma len_py_repeat (v k : Z) : len (py_repeat v k) = Z.max 0 k.
Proof. unfold len, py_repeat. rewrite length_replicate. lia. Qed.

Lemma py_range_nil (a b : Z) : b <= a -> py_range a b = [].
Proof. intros H. unfold py_range. apply seqZ_nil. lia. Qed.

Lemma py_range_cons (a b : Z) : a < b -> py_range a b = a :: py_range (a + 1) b.
Proof.
  intros H. unfold py_range. rewrite seqZ_cons by lia.
  do 2 f_equal; lia.
Qed.

Lemma len_py_range (a b : Z) : len (py_range a b) = Z.max 0 (b - a).
Proof. unfold len, py_range. rewrite length_seqZ. lia. Qed.

Lemma elem_of_py_range (a b i : Z) : i ∈ py_range a b <-> a <= i < b.
Proof. unfold py_range. rewrite elem_of_seqZ. lia. Qed.

Lemma py_index_nonneg {A} (l : list A) (i : Z) :
  0 <= i < len l -> py_index l i = Some (Z.to_nat i).
Proof.
  intros H. unfold py_index.
  destruct (Z.ltb_spec i 0); [lia|].
  destruct (Z.leb_spec 0 i); [|lia].
  destruct (Z.ltb_spec i (len l)); [|lia]. done.
Qed.

Lemma py_get_lookup (l : list Z) (i v : Z) :
  0 <= i -> l !! Z.to_nat i = Some v -> py_get l i = Ok v.
Proof.
  intros Hi Hl. unfold py_get.
  rewrite py_index_nonneg, Hl; [done|].
  apply lookup_lt_Some in Hl. unfold len. lia.
Qed.

Lemma py_get_in_range (l : list Z) (i : Z) :
  0 <= i < len l -> exists v, py_get l i = Ok v /\ l !! Z.to_nat i = Some v.
Proof.
  intros Hi. destruct (lookup_lt_is_Some_2 l (Z.to_nat i)) as [v Hv].
  { unfold len in Hi. lia. }
  exists v. split; [|done]. apply py_get_lookup; [lia|done].
Qed.

Lemma py_get_Ok_elem (l : list Z) (i v : Z) : py_get l i = Ok v -> v ∈ l.
Proof.
  unfold py_get. destruct (py_index l i) as [j|]; [|done].
  destruct (l !! j) eqn:E; [|done]. intros [= <-].
  by eapply list_elem_of_lookup_2.
Qed.

Lemma py_get_Ok_range (l : list Z) (i v : Z) :
  py_get l i = Ok v -> 0 <= i -> 0 <= i < len l.
Proof.
  unfold py_get. destruct (py_index l i) as [j|] eqn:E; [|done].
  intros _ Hi. revert E. unfold py_index.
  destruct (Z.ltb_spec i 0); [lia|].
  destruct (_ && _) eqn:E; [|done]. intros _.
  apply andb_true_iff in E as [?%Z.leb_le ?%Z.ltb_lt]. lia.
Qed.

Lemma py_set_in_range (l : list Z) (i v : Z) :
  0 <= i < len l -> py_set l i v = Ok (<[Z.to_nat i := v]> l).
Proof. intros Hi. unfold py_set. by rewrite py_index_nonneg. Qed.

Lemma py_set_Ok_len (l l' : list Z) (i v : Z) :
  py_set l i v = Ok l' -> len l' = len l.
Proof.
  unfold py_set. destruct (py_index l i); [|done].
  intros [= <-]. apply len_insert.
Qed.

(** ** The error monad *)

Lemma bind_Ok_inv {A B} (m : result A) (f : A -> result B) (b : B) :
  (x <- m ;; f x) = Ok b -> exists a, m = Ok a /\ f a = Ok b.
Proof. destruct m; cbn; [eauto|done]. Qed.

Lemma raises_bind {A B} (P : exn -> Prop) (m : result A) (f : A -> result B) :
  raises P m -> (forall a, m = Ok a -> raises P (f a)) ->
  raises P (x <- m ;; f x).
Proof. destruct m; cbn; auto. Qed.

Lemma raises_for {S} (P : exn -> Prop) (l : list Z) (s : S) body :
  (forall i s, raises P (body i s)) -> raises P (for_ l s body).
Proof.
  intros Hb. revert s. induction l as [|i l IH]; intros s; cbn; [done|].
  apply raises_bind; auto.
Qed.

Lemma raises_mapM {A B} (P : exn -> Prop) (f : A -> result B) (l : list A) :
  (forall a, raises P (f a)) -> raises P (mapM f l).
Proof.
  intros Hf. induction l as [|a l IH]; cbn; [done|].
  apply raises_bind; [auto|]. intros b _.
  apply raises_bind; [auto|]. done.
Qed.

(** ** Loops over a range *)

(** Total correctness of [for i in range(a, b)] with invariant [P]. *)
Lemma for_range_total {S} (P : Z -> S -> Prop) (body : Z -> S -> result S)
    (a b : Z) (s : S) :
  a <= b -> P a s ->
  (forall i s, a <= i < b -> P i s ->
     exists s', body i s = Ok s' /\ P (i + 1) s') ->
  exists s', for_ (py_range a b) s body = Ok s' /\ P b s'.
Proof.
  intros Hab. remember (Z.to_nat (b - a)) as d eqn:Hd.
  revert a s Hab Hd. induction d as [|d IH]; intros a s Hab Hd Hs Hbody.
  - assert (a = b) as -> by lia. rewrite py_range_nil by lia. eauto.
  - rewrite py_range_cons by lia. cbn.
    destruct (Hbody a s) as (s' & -> & Hs'); [lia|done|]. cbn.
    apply IH; [lia|lia|done|]. intros i s0 Hi. apply Hbody. lia.
Qed.

(** The same rule for a loop that may raise: the invariant holds of every
    state the loop returns. *)
Lemma for_range_partial {S} (P : Z -> S -> Prop) (body : Z -> S -> result S)
    (a b : Z) (s s' : S) :
  a <= b -> P a s ->
  (forall i s s', a <= i < b -> P i s -> body i s = Ok s' -> P (i + 1) s') ->
  for_ (py_range a b) s body = Ok s' -> P b s'.
Proof.
  intros Hab. remember (Z.to_nat (b - a)) as d eqn:Hd.
  revert a s Hab Hd. induction d as [|d IH]; intros a s Hab Hd Hs Hbody.
  - assert (a = b) as -> by lia. rewrite py_range_nil by lia.
    by intros [= <-].
  - rewrite py_range_cons by lia. cbn. intros Hrun.
    apply bind_Ok_inv in Hrun as (s1 & Hs1 & Hrun).
    eapply (IH (a + 1) s1); [lia|lia| |  |done].
    + eapply Hbody; [|done|done]. lia.
    + intros i s0 s0' Hi. apply Hbody. lia.
Qed.

(** ** The field tables *)

Lemma distinct_in_sound (q : Z) (l : list Z) (seen : PositiveSet.t) :
  distinct_in q seen l = true ->
  NoDup l /\ Forall (fun x => 1 <= x < q) l
  /\ Forall (fun x => ~ PositiveSet.In (Z.to_pos x) seen) l.
Proof.
  revert seen. induction l as [|x l IH]; intros seen; cbn.
  - intros _. split_and!; constructor.
  - rewrite !andb_true_iff, negb_true_iff, Z.leb_le, Z.ltb_lt.
    intros [[[Hlo Hhi] Hmem] Hrest].
    destruct (IH _ Hrest) as (Hnd & Hrng & Hseen).
    assert (~ PositiveSet.In (Z.to_pos x) seen) as Hx.
    { rewrite <- PositiveSet.mem_spec. congruence. }
    split_and!.
    + constructor; [|done]. intros Hin.
      rewrite Forall_forall in Hseen. apply (Hseen x Hin).
      apply PositiveSet.add_spec. by left.
    + constructor; [lia|done].
    + constructor; [done|].
      eapply Forall_impl; [exact Hseen|]. cbn. intros y Hy Hin.
      apply Hy, PositiveSet.add_spec. by right.
Qed.

Lemma alpha_list_length (q poly : Z) (fuel : nat) (x : Z) :
  length (alpha_list q poly fuel x) = fuel.
Proof. revert x. induction fuel; intros x; cbn; auto. Qed.

Lemma alpha_list_lookup (q poly : Z) (fuel j : nat) (x : Z) :
  (j < fuel)%nat ->
  alpha_list q poly fuel x !! j = Some (Nat.iter j (gf_next q poly) x).
Proof.
  revert j x. induction fuel as [|fuel IH]; intros j x Hj; [lia|].
  destruct j as [|j]; [done|]. cbn [alpha_list lookup list_lookup].
  rewrite IH by lia. by rewrite Nat.iter_succ_r.
Qed.

Lemma alpha_pow_0 (q poly : Z) : alpha_pow q poly 0 = 1.
Proof. done. Qed.

Lemma alpha_pow_succ (q poly j : Z) :
  0 <= j -> alpha_pow q poly (j + 1) = gf_next q poly (alpha_pow q poly j).
Proof.
  intros Hj. unfold alpha_pow.
  replace (Z.to_nat (j + 1)) with (S (Z.to_nat j)) by lia. done.
Qed.

Section Tables.
Variables n q poly : Z.
Hypothesis Hcheck : tables_check n q poly = true.

Local Abbreviation pw := (alpha_pow q poly).

Lemma check_n : 3 <= n.
Proof.
  unfold tables_check in Hcheck. rewrite !andb_true_iff in Hcheck.
  destruct Hcheck as [[[H _] _] _]. by apply Z.leb_le.
Qed.

Lemma check_q : q = n + 1.
Proof.
  unfold tables_check in Hcheck. rewrite !andb_true_iff in Hcheck.
  destruct Hcheck as [[[_ H] _] _]. by apply Z.eqb_eq.
Qed.

Lemma check_pow2 : q = 2 ^ Z.log2 q.
Proof.
  unfold tables_check in Hcheck. rewrite !andb_true_iff in Hcheck.
  destruct Hcheck as [[_ H] _]. by apply Z.eqb_eq.
Qed.

Lemma check_distinct :
  NoDup (alpha_list q poly (Z.to_nat n) 1)
  /\ Forall (fun x => 1 <= x < q) (alpha_list q poly (Z.to_nat n) 1).
Proof.
  unfold tables_check in Hcheck. rewrite !andb_true_iff in Hcheck.
  destruct Hcheck as [_ H]. apply distinct_in_sound in H. tauto.
Qed.

Lemma alpha_list_pw (j : Z) :
  0 <= j < n -> alpha_list q poly (Z.to_nat n) 1 !! Z.to_nat j = Some (pw j).
Proof. intros Hj. rewrite alpha_list_lookup by lia. done. Qed.

Lemma pw_range (j : Z) : 0 <= j < n -> 1 <= pw j < q.
Proof.
  intros Hj. destruct check_distinct as [_ Hr].
  rewrite Forall_forall in Hr. apply Hr.
  eapply list_elem_of_lookup_2, alpha_list_pw, Hj.
Qed.

Lemma pw_inj (i j : Z) : 0 <= i < n -> 0 <= j < n -> pw i = pw j -> i = j.
Proof.
  intros Hi Hj Heq. destruct check_distinct as [Hnd _].
  assert (Z.to_nat i = Z.to_nat j); [|lia].
  eapply NoDup_lookup; [exact Hnd| |].
  - by apply alpha_list_pw.
  - rewrite Heq. by apply alpha_list_pw.
Qed.

Lemma pw_surj (x : Z) : 1 <= x < q -> exists j, 0 <= j < n /\ pw j = x.
Proof.
  intros Hx. destruct check_distinct as [Hnd Hr].
  assert (incl (seqZ 1 n) (alpha_list q poly (Z.to_nat n) 1)) as Hincl.
  { apply NoDup_length_incl; [by apply NoDup_ListNoDup| |].
    - rewrite length_seqZ, alpha_list_length. lia.
    - intros y Hy%list_elem_of_In. rewrite Forall_forall in Hr.
      apply list_elem_of_In, elem_of_seqZ. specialize (Hr y Hy).
      pose proof check_q. lia. }
  assert (x ∈ alpha_list q poly (Z.to_nat n) 1) as Hin.
  { apply list_elem_of_In, Hincl, list_elem_of_In, elem_of_seqZ.
    pose proof check_q. lia. }
  apply list_elem_of_lookup_1 in Hin as [j Hj].
  pose proof (lookup_lt_Some _ _ _ Hj) as Hlt.
  rewrite alpha_list_length in Hlt.
  exists (Z.of_nat j). split; [lia|].
  pose proof (alpha_list_pw (Z.of_nat j)) as Hp.
  rewrite Nat2Z.id, Hj in Hp. symmetry. apply Some_inj, Hp. lia.
Qed.

(** The first loop fills [gf_exp[0..n-1]] with the powers and makes
    [gf_log] their inverse. *)
Lemma calc_gf_elements_loop1 :
  exists e l,
    for_ (py_range 1 n) (1, py_repeat 1 (q * 2), py_repeat 0 q)
      (fun i '(x, gf_exp, gf_log) =>
         let x := gf_next q poly x in
         gf_exp <- py_set gf_exp i x ;;
         gf_log <- py_set gf_log x i ;;
         Ok (x, gf_exp, gf_log))
    = Ok (pw (n - 1), e, l)
    /\ len e = 2 * q /\ len l = q
    /\ (forall j, 0 <= j < n -> e !! Z.to_nat j = Some (pw j))
    /\ (forall j, 0 <= j < n -> l !! Z.to_nat (pw j) = Some j).
Proof.
  pose proof check_n as Hn. pose proof check_q as Hq.
  set (P := fun (i : Z) (s : Z * list Z * list Z) =>
    let '(x, e, l) := s in
    x = pw (i - 1) /\ len e = 2 * q /\ len l = q
    /\ (forall j, 0 <= j < i -> e !! Z.to_nat j = Some (pw j))
    /\ (forall j, 0 <= j < i -> l !! Z.to_nat (pw j) = Some j)).
  match goal with
  | |- context [for_ _ ?s ?body] =>
      destruct (for_range_total P body 1 n s) as ([[x e] l] & Hrun & HP)
  end.
  - lia.
  - cbn. split_and!.
    + done.
    + rewrite len_py_repeat. lia.
    + rewrite len_py_repeat. lia.
    + intros j Hj. assert (j = 0) as -> by lia.
      unfold py_repeat. rewrite lookup_replicate_2; [done|lia].
    + intros j Hj. assert (j = 0) as -> by lia.
      unfold py_repeat. rewrite alpha_pow_0, lookup_replicate_2; [done|lia].
  - intros i [[x e] l] Hi (-> & He & Hl & Hexp & Hlog).
    assert (gf_next q poly (pw (i - 1)) = pw i) as Hnext.
    { rewrite <- alpha_pow_succ by lia. f_equal. lia. }
    cbv zeta. rewrite Hnext.
    pose proof (pw_range i ltac:(lia)) as Hr.
    rewrite py_set_in_range by lia. cbn [bind].
    rewrite py_set_in_range by lia. cbn [bind].
    eexists. split; [done|]. cbn. split_and!.
    + f_equal. lia.
    + by rewrite len_insert.
    + by rewrite len_insert.
    + intros j Hj. destruct (decide (j = i)) as [->|Hne].
      * apply list_lookup_insert_eq. unfold len in He. lia.
      * rewrite list_lookup_insert_ne by lia. apply Hexp. lia.
    + intros j Hj. destruct (decide (j = i)) as [->|Hne].
      * apply list_lookup_insert_eq. unfold len in Hl. lia.
      * rewrite list_lookup_insert_ne; [apply Hlog; lia|].
        intros Heq. apply Hne. symmetry. apply pw_inj; [lia|lia|].
        pose proof (pw_range j ltac:(lia)). lia.
  - destruct HP as (-> & He & Hl & Hexp & Hlog).
    exists e, l. by split_and!.
Qed.

(** The second loop extends [gf_exp] periodically. *)
Lemma calc_gf_elements_loop2 (e : list Z) :
  len e = 2 * q ->
  (forall j, 0 <= j < n -> e !! Z.to_nat j = Some (pw j)) ->
  exists e',
    for_ (py_range n (q * 2)) e
      (fun i gf_exp => v <- py_get gf_exp (i - n) ;; py_set gf_exp i v)
    = Ok e'
    /\ len e' = 2 * q
    /\ (forall j, 0 <= j < 2 * q -> e' !! Z.to_nat j = Some (pw (j mod n))).
Proof.
  intros He Hexp.
  pose proof check_n as Hn. pose proof check_q as Hq.
  set (P := fun (i : Z) (e : list Z) =>
    len e = 2 * q
    /\ (forall j, 0 <= j < i -> e !! Z.to_nat j = Some (pw (j mod n)))).
  match goal with
  | |- context [for_ _ ?s ?body] =>
      destruct (for_range_total P body n (q * 2) s) as (e' & Hrun & HP)
  end.
  - lia.
  - split; [done|]. intros j Hj. rewrite Z.mod_small by lia. by apply Hexp.
  - intros i e0 Hi [He0 Hper].
    rewrite (py_get_lookup e0 (i - n) (pw ((i - n) mod n))); [|lia|].
    2:{ apply Hper. lia. }
    cbn [bind]. rewrite py_set_in_range by lia.
    eexists. split; [done|]. split; [by rewrite len_insert|].
    intros j Hj. destruct (decide (j = i)) as [->|Hne].
    + rewrite list_lookup_insert_eq by (unfold len in He0; lia).
      do 2 f_equal. replace i with (i - n + 1 * n) at 2 by lia.
      by rewrite Z.mod_add by lia.
    + rewrite list_lookup_insert_ne by lia. apply Hper. lia.
  - destruct HP as [He' Hper]. exists e'. split_and!; [done|done|].
    intros j Hj. apply Hper. lia.
Qed.
End Tables.

(** The supported field sizes, and the allocation of their tables. *)
Lemma supported_size (q poly : Z) :
  _gf_poly !! q = Some poly -> 4 <= q <= 65536.
Proof.
  intros H. apply elem_of_list_to_map_2 in H.
  repeat (apply elem_of_cons in H as [[= -> ->]|H]; [lia|]).
  by apply elem_of_nil in H.
Qed.

Lemma py_alloc_fits (v m : Z) :
  m <= sys_maxsize -> py_alloc v m = Ok (py_repeat v m).
Proof.
  intros Hm. unfold py_alloc. by destruct (Z.gtb_spec m sys_maxsize); [lia|].
Qed.

Lemma sys_maxsize_large : 2 * 65536 <= sys_maxsize.
Proof. by vm_compute. Qed.

Lemma calc_gf_elements_tables (n poly k nsym : Z) :
  tables_check n (n + 1) poly = true ->
  _gf_poly !! (n + 1) = Some poly ->
  exists e l,
    calc_gf_elements n (n + 1) = Ok (e, l)
    /\ field_tables (mkRSCodec n k (n + 1) nsym e l).
Proof.
  intros Hcheck Hpoly.
  pose proof (check_n _ _ _ Hcheck) as Hn.
  destruct (calc_gf_elements_loop1 _ _ _ Hcheck)
    as (e & l & Hrun1 & He & Hl & Hexp & Hlog).
  destruct (calc_gf_elements_loop2 _ _ _ Hcheck e He Hexp)
    as (e' & Hrun2 & He' & Hper).
  exists e', l. split.
  { pose proof (supported_size _ _ Hpoly) as Hsize.
    pose proof sys_maxsize_large as Hmax.
    unfold calc_gf_elements. rewrite !py_alloc_fits by lia.
    rewrite Hpoly. cbn [bind] in Hrun1, Hrun2 |- *.
    rewrite Hrun1. cbn [bind]. rewrite Hrun2. done. }
  assert (forall i, 0 <= i < 2 * (n + 1) ->
            py_get e' i = Ok (alpha_pow (n + 1) poly (i mod n))) as Hget.
  { intros i Hi. apply py_get_lookup; [lia|]. by apply Hper. }
  constructor; cbn.
  - done.
  - done.
  - apply (check_pow2 _ _ _ Hcheck).
  - done.
  - done.
  - intros i Hi. eexists. split; [by apply Hget|].
    apply (pw_range _ _ _ Hcheck). apply Z.mod_pos_bound. lia.
  - intros i Hi. rewrite !Hget by lia. do 2 f_equal.
    replace i with (i - n + 1 * n) at 1 by lia. by rewrite Z.mod_add by lia.
  - intros j v Hj. rewrite Hget by lia. rewrite Z.mod_small by lia.
    intros [= <-]. pose proof (pw_range _ _ _ Hcheck j Hj).
    apply py_get_lookup; [lia|]. by apply Hlog.
  - intros x Hx. destruct (pw_surj _ _ _ Hcheck x Hx) as (j & Hj & <-).
    exists j. split_and!; [lia|lia| |].
    + pose proof (pw_range _ _ _ Hcheck j Hj).
      apply py_get_lookup; [lia|]. by apply Hlog.
    + rewrite Hget by lia. by rewrite Z.mod_small by lia.
  - rewrite Hget by lia. by rewrite Z.mod_0_l by lia.
Qed.

(** Every entry of [_gf_poly] passes the certificate. *)
Lemma supported_tables_check (q poly : Z) :
  _gf_poly !! q = Some poly -> tables_check (q - 1) q poly = true.
Proof.
  intros H. apply elem_of_list_to_map_2 in H.
  repeat (apply elem_of_cons in H as [[= -> ->]|H]; [by vm_compute|]).
  by apply elem_of_nil in H.
Qed.

Lemma RSCodec_init_supported (n0 k0 poly : Z) :
  _gf_poly !! (n0 + 1) = Some poly ->
  exists self,
    RSCodec_init n0 k0 = Ok self /\ field_tables self
    /\ n self = n0 /\ k self = k0
    /\ q self = n0 + 1 /\ nsym self = n0 - k0.
Proof.
  intros Hpoly. pose proof (supported_tables_check _ _ Hpoly) as Hcheck.
  replace (n0 + 1 - 1) with n0 in Hcheck by lia.
  destruct (calc_gf_elements_tables n0 poly k0 (n0 - k0) Hcheck Hpoly)
    as (e & l & Hrun & Hft).
  eexists. unfold RSCodec_init. rewrite Hrun. cbn. by split_and!.
Qed.

Lemma RSCodec_init_inv (n0 k0 : Z) (self : RSCodec) :
  RSCodec_init n0 k0 = Ok self ->
  field_tables self
  /\ n self = n0 /\ k self = k0
  /\ q self = n0 + 1 /\ nsym self = n0 - k0.
Proof.
  intros Hinit.
  destruct (_gf_poly !! (n0 + 1)) as [poly|] eqn:Hpoly.
  - destruct (RSCodec_init_supported n0 k0 poly Hpoly) as (c & Hc & H).
    rewrite Hinit in Hc. by injection Hc as ->.
  - unfold RSCodec_init, calc_gf_elements in Hinit. rewrite Hpoly in Hinit.
    by destruct (py_alloc 1 _), (py_alloc 0 _).
Qed.

(** ** Field arithmetic *)

Lemma lxor_bound (m x y : Z) :
  0 <= x < 2 ^ m -> 0 <= y < 2 ^ m -> 0 <= Z.lxor x y < 2 ^ m.
Proof.
  intros Hx Hy.
  assert (0 <= Z.lxor x y) as Hnn by (apply Z.lxor_nonneg; lia).
  split; [done|].
  destruct (Z.eq_dec (Z.lxor x y) 0) as [->|Hne]; [lia|].
  destruct (Z.lt_ge_cases m 0) as [Hm|Hm].
  { rewrite Z.pow_neg_r in Hx by done. lia. }
  assert (0 < m) as Hpos.
  { destruct (Z.eq_dec m 0) as [->|]; [|lia].
    assert (x = 0) as -> by lia. assert (y = 0) as -> by lia. done. }
  apply Z.log2_lt_pow2; [lia|].
  eapply Z.le_lt_trans; [apply Z.log2_lxor; lia|].
  apply Z.max_lub_lt.
  - destruct (Z.eq_dec x 0) as [->|]; [cbn; lia|]. apply Z.log2_lt_pow2; lia.
  - destruct (Z.eq_dec y 0) as [->|]; [cbn; lia|]. apply Z.log2_lt_pow2; lia.
Qed.

Section Field.
Variable self : RSCodec.
Hypothesis Hft : field_tables self.

Lemma symbol_0 : symbol self 0.
Proof. unfold symbol. pose proof (ft_q _ Hft). pose proof (ft_n _ Hft). lia. Qed.

Lemma symbol_1 : symbol self 1.
Proof. unfold symbol. pose proof (ft_q _ Hft). pose proof (ft_n _ Hft). lia. Qed.

Lemma symbol_lxor (x y : Z) :
  symbol self x -> symbol self y -> symbol self (Z.lxor x y).
Proof.
  unfold symbol. rewrite (ft_pow2 _ Hft). apply lxor_bound.
Qed.

Lemma gf_exp_symbol (i v : Z) :
  0 <= i < 2 * q self -> py_get (gf_exp self) i = Ok v -> 1 <= v < q self.
Proof.
  intros Hi Hv. destruct (ft_exp_range _ Hft i Hi) as (v' & Hv' & Hr).
  congruence.
Qed.

(** [gf_mul] on nonzero symbols: the logarithms add modulo [n]. *)
Lemma gf_mul_log (x y lx ly : Z) :
  0 <= lx < n self -> 0 <= ly < n self ->
  py_get (gf_exp self) lx = Ok x -> py_get (gf_exp self) ly = Ok y ->
  exists z, gf_mul self x y = Ok z /\ 1 <= z < q self
    /\ py_get (gf_exp self) ((lx + ly) mod n self) = Ok z.
Proof.
  intros Hlx Hly Hx Hy.
  pose proof (ft_q _ Hft) as Hq. pose proof (ft_n _ Hft) as Hn.
  pose proof (gf_exp_symbol lx x ltac:(lia) Hx) as Hxr.
  pose proof (gf_exp_symbol ly y ltac:(lia) Hy) as Hyr.
  unfold gf_mul.
  destruct (Z.eqb_spec x 0); [lia|]. destruct (Z.eqb_spec y 0); [lia|].
  cbn [orb].
  rewrite (ft_log_exp _ Hft lx x Hlx Hx), (ft_log_exp _ Hft ly y Hly Hy).
  cbn [bind].
  destruct (ft_exp_range _ Hft (lx + ly) ltac:(lia)) as (z & Hz & Hzr).
  exists z. split_and!; [done|lia|lia|].
  destruct (Z.lt_ge_cases (lx + ly) (n self)) as [Hlt|Hge].
  - by rewrite Z.mod_small by lia.
  - replace ((lx + ly) mod n self) with (lx + ly - n self).
    + by rewrite <- (ft_period _ Hft) by lia.
    + replace (lx + ly) with (lx + ly - n self + 1 * n self) at 2 by lia.
      rewrite Z.mod_add by lia. by rewrite Z.mod_small by lia.
Qed.

Lemma gf_mul_symbol (x y : Z) :
  symbol self x -> symbol self y ->
  exists z, gf_mul self x y = Ok z /\ symbol self z.
Proof.
  intros Hx Hy. unfold symbol in *.
  destruct (Z.eq_dec x 0) as [->|Hx0].
  { exists 0. split; [done|]. apply symbol_0. }
  destruct (Z.eq_dec y 0) as [->|Hy0].
  { exists 0. split; [|apply symbol_0]. unfold gf_mul.
    by rewrite Z.eqb_refl, orb_true_r. }
  destruct (ft_exp_log _ Hft x ltac:(lia)) as (lx & Hlx & _ & Hex).
  destruct (ft_exp_log _ Hft y ltac:(lia)) as (ly & Hly & _ & Hey).
  destruct (gf_mul_log x y lx ly Hlx Hly Hex Hey) as (z & Hz & Hzr & _).
  exists z. split; [done|]. unfold symbol. lia.
Qed.

Lemma gf_div_symbol (x y : Z) :
  symbol self x -> 1 <= y < q self ->
  exists z, gf_div self x y = Ok z /\ symbol self z.
Proof.
  intros Hx Hy. unfold symbol in *.
  pose proof (ft_q _ Hft) as Hq. pose proof (ft_n _ Hft) as Hn.
  unfold gf_div. destruct (Z.eqb_spec y 0); [lia|].
  destruct (Z.eqb_spec x 0).
  { exists 0. split; [done|]. apply symbol_0. }
  destruct (ft_exp_log _ Hft x ltac:(lia)) as (lx & Hlx & -> & _).
  destruct (ft_exp_log _ Hft y ltac:(lia)) as (ly & Hly & -> & _).
  cbn [bind].
  destruct (ft_exp_range _ Hft (lx + n self - ly) ltac:(lia))
    as (z & Hz & Hzr).
  exists z. split; [done|]. unfold symbol. lia.
Qed.

Lemma gf_div_gf_mul (x y : Z) :
  symbol self x -> 1 <= y < q self ->
  exists z, gf_mul self x y = Ok z /\ gf_div self z y = Ok x.
Proof.
  intros Hx Hy. unfold symbol in *.
  pose proof (ft_q _ Hft) as Hq. pose proof (ft_n _ Hft) as Hn.
  destruct (Z.eq_dec x 0) as [->|Hx0].
  { exists 0. split; [done|]. unfold gf_div.
    destruct (Z.eqb_spec y 0); [lia|]. done. }
  destruct (ft_exp_log _ Hft x ltac:(lia)) as (lx & Hlx & Hlogx & Hex).
  destruct (ft_exp_log _ Hft y ltac:(lia)) as (ly & Hly & Hlogy & Hey).
  destruct (gf_mul_log x y lx ly Hlx Hly Hex Hey) as (z & Hz & Hzr & Hez).
  exists z. split; [done|].
  unfold gf_div. destruct (Z.eqb_spec y 0); [lia|].
  destruct (Z.eqb_spec z 0); [lia|].
  assert (0 <= (lx + ly) mod n self < n self) as Hmod
    by (apply Z.mod_pos_bound; lia).
  rewrite (ft_log_exp _ Hft _ z Hmod Hez), Hlogy. cbn [bind].
  destruct (Z.lt_ge_cases (lx + ly) (n self)) as [Hlt|Hge].
  - rewrite Z.mod_small by lia.
    rewrite (ft_period _ Hft) by lia.
    by replace (lx + ly + n self - ly - n self) with lx by lia.
  - replace ((lx + ly) mod n self) with (lx + ly - n self).
    + by replace (lx + ly - n self + n self - ly) with lx by lia.
    + replace (lx + ly) with (lx + ly - n self + 1 * n self) at 2 by lia.
      rewrite Z.mod_add by lia. by rewrite Z.mod_small by lia.
Qed.
End Field.

(** ** Which exceptions each method can raise *)

Section Raises.
Variable self : RSCodec.
Variable P : exn -> Prop.
Hypothesis HP : forall e, builtin e -> P e.

Local Ltac raises_leaf :=
  solve [ exact I | apply HP; unfold builtin; auto 6 | assumption ].

Lemma raises_py_get l i : raises P (py_get l i).
Proof. unfold py_get. repeat case_match; raises_leaf. Qed.

Lemma raises_py_set l i v : raises P (py_set l i v).
Proof. unfold py_set. repeat case_match; raises_leaf. Qed.

Lemma raises_py_pop l : raises P (py_pop l).
Proof. unfold py_pop. repeat case_match; raises_leaf. Qed.

Lemma raises_py_max l : raises P (py_max l).
Proof. unfold py_max. repeat case_match; raises_leaf. Qed.

Lemma raises_bytearray k0 : raises P (bytearray k0).
Proof. unfold bytearray. repeat case_match; raises_leaf. Qed.

Lemma raises_ba_set b i v : raises P (ba_set b i v).
Proof.
  unfold ba_set. case_match; [apply raises_py_set|raises_leaf].
Qed.

Lemma raises_ba_set_prefix b stop vals : raises P (ba_set_prefix b stop vals).
Proof. unfold ba_set_prefix. repeat case_match; raises_leaf. Qed.

(** One step through a monadic term: binds, loops, branches and calls
    of the methods already covered. *)
Local Ltac raises_step :=
  match goal with
  | |- raises _ (Ok _) => exact I
  | |- raises _ (Raise _) => raises_leaf
  | |- raises _ (bind _ _) => apply raises_bind; [|intros ? _]
  | |- raises _ (for_ _ _ _) => apply raises_for; intros
  | |- raises _ (mapM _ _) => apply raises_mapM; intros
  | |- raises _ (py_get _ _) => apply raises_py_get
  | |- raises _ (py_set _ _ _) => apply raises_py_set
  | |- raises _ (py_pop _) => apply raises_py_pop
  | |- raises _ (py_max _) => apply raises_py_max
  | |- raises _ (bytearray _) => apply raises_bytearray
  | |- raises _ (ba_set _ _ _) => apply raises_ba_set
  | |- raises _ (ba_set_prefix _ _ _) => apply raises_ba_set_prefix
  | |- raises _ (if ?b then _ else _) => destruct b
  | |- raises _ (match ?x with _ => _ end) => destruct x
  | |- raises _ (let _ := _ in _) => cbv zeta
  | H : context [raises _ _] |- raises _ _ => apply H
  end.

Lemma raises_gf_mul x y : raises P (gf_mul self x y).
Proof. unfold gf_mul. repeat raises_step. Qed.

Lemma raises_gf_div x y : raises P (gf_div self x y).
Proof. unfold gf_div. repeat raises_step. Qed.

Local Ltac raises_field :=
  first [ apply raises_gf_mul | apply raises_gf_div | raises_step ].

Lemma raises_gf_poly_scale p x : raises P (gf_poly_scale self p x).
Proof. unfold gf_poly_scale. repeat raises_field. Qed.

Lemma raises_gf_poly_add p1 p2 : raises P (gf_poly_add p1 p2).
Proof. unfold gf_poly_add. repeat raises_field. Qed.

Lemma raises_gf_poly_mul p1 p2 : raises P (gf_poly_mul self p1 p2).
Proof. unfold gf_poly_mul. repeat raises_field. Qed.

Lemma raises_gf_poly_eval p x : raises P (gf_poly_eval self p x).
Proof. unfold gf_poly_eval. repeat raises_field. Qed.

Local Ltac raises_poly :=
  first [ apply raises_gf_poly_scale | apply raises_gf_poly_add
        | apply raises_gf_poly_mul | apply raises_gf_poly_eval
        | raises_field ].

Lemma raises_rs_generator_poly nsym0 :
  raises P (rs_generator_poly self nsym0).
Proof. unfold rs_generator_poly. repeat raises_poly. Qed.

Lemma raises_rs_calc_syndromes msg nsym0 :
  raises P (rs_calc_syndromes self msg nsym0).
Proof. unfold rs_calc_syndromes. repeat raises_poly. Qed.

Lemma raises_rs_correct_errata msg synd pos :
  raises P (rs_correct_errata self msg synd pos).
Proof. unfold rs_correct_errata. repeat raises_poly. Qed.

Lemma raises_rs_find_errors_loop synd :
  raises P (rs_find_errors_loop self synd).
Proof. unfold rs_find_errors_loop. repeat raises_poly. Qed.

Lemma raises_rs_forney_syndromes synd pos nmess :
  raises P (rs_forney_syndromes self synd pos nmess).
Proof. unfold rs_forney_syndromes. repeat raises_poly. Qed.

(** Past its length check, the encoder raises built-in exceptions only. *)
Lemma raises_rs_encode_msg msg nsym0 :
  len msg + nsym0 <= n self -> raises P (rs_encode_msg self msg nsym0).
Proof.
  intros Hlen. unfold rs_encode_msg.
  destruct (Z.gtb_spec (len msg + nsym0) (n self)); [lia|].
  repeat first [ apply raises_rs_generator_poly | raises_poly ].
Qed.

(** The root search of [rs_find_errors] raises built-in exceptions only. *)
Lemma raises_root_search err_poly nmess errs :
  raises P
    (err_pos <- for_ (py_range 0 nmess) [] (fun i err_pos =>
                  e <- py_get (gf_exp self) (n self - i) ;;
                  v <- gf_poly_eval self err_poly e ;;
                  if v =? 0 then Ok (err_pos ++ [nmess - 1 - i])
                  else Ok err_pos) ;;
     if negb (len err_pos =? errs) then Ok None else Ok (Some err_pos)).
Proof. repeat raises_poly. Qed.

(** With its degree check, [rs_find_errors] adds [too_many_errors]. *)
Lemma raises_rs_find_errors synd nmess :
  P too_many_errors -> raises P (rs_find_errors self synd nmess).
Proof.
  intros Herr. unfold rs_find_errors.
  repeat first [ apply raises_rs_find_errors_loop | raises_poly ].
Qed.

(** Past the erasure count, the decoder raises built-in exceptions and
    its last three failures. *)
Lemma raises_rs_correct_msg_tail msg_out erase_pos nsym0 :
  P too_many_errors -> P could_not_locate -> P could_not_correct ->
  raises P
    (synd <- rs_calc_syndromes self msg_out nsym0 ;;
     mx <- py_max synd ;;
     if mx =? 0 then Ok (py_slice msg_out 0 (- nsym0))
     else
       fsynd <- rs_forney_syndromes self synd erase_pos (len msg_out) ;;
       err_pos <- rs_find_errors self fsynd (len msg_out) ;;
       match err_pos with
       | None => Raise could_not_locate
       | Some err_pos =>
           msg_out <-
             rs_correct_errata self msg_out synd (erase_pos ++ err_pos) ;;
           synd <- rs_calc_syndromes self msg_out nsym0 ;;
           mx <- py_max synd ;;
           if mx >? 0 then Raise could_not_correct
           else Ok (py_slice msg_out 0 (- nsym0))
       end).
Proof.
  intros H1 H2 H3.
  repeat first [ apply raises_rs_calc_syndromes
               | apply raises_rs_forney_syndromes
               | apply raises_rs_correct_errata
               | apply raises_rs_find_errors; assumption
               | raises_poly ].
Qed.
End Raises.

Lemma builtin_not_message_too_long e : builtin e -> e <> message_too_long.
Proof. intros [->|[->|[->|[->| ->]]]]; discriminate. Qed.

Lemma builtin_not_ReedSolomonError e msg :
  builtin e -> e <> ReedSolomonError msg.
Proof. intros [->|[->|[->|[->| ->]]]]; discriminate. Qed.

(** ** The erasure scan *)

Lemma erasures_from_app (i : Z) (l1 l2 : list Z) :
  erasures_from i (l1 ++ l2)
  = erasures_from i l1 ++ erasures_from (i + len l1) l2.
Proof.
  revert i. induction l1 as [|v l1 IH]; intros i; cbn [erasures_from app].
  - f_equal. unfold len. cbn. lia.
  - replace (i + len (v :: l1)) with (i + 1 + len l1)
      by (unfold len; cbn [length]; lia).
    destruct (v <? 0); cbn; by rewrite IH.
Qed.

Lemma elem_of_erasures_from (i j : Z) (msg : list Z) :
  i ∈ erasures_from j msg
  <-> exists v, j <= i /\ msg !! Z.to_nat (i - j) = Some v /\ v < 0.
Proof.
  revert j. induction msg as [|v msg IH]; intros j; cbn [erasures_from].
  - split; [by intros ?%elem_of_nil|]. by intros (v & _ & ? & _).
  - assert (i ∈ erasures_from (j + 1) msg
            <-> exists w, j < i /\ msg !! Z.to_nat (i - j - 1) = Some w /\ w < 0)
      as IH'.
    { rewrite IH. replace (i - (j + 1)) with (i - j - 1) by lia.
      split; intros (w & ? & ? & ?); exists w; split_and!; (lia || done). }
    assert ((exists w, j <= i /\ (v :: msg) !! Z.to_nat (i - j) = Some w /\ w < 0)
            <-> (i = j /\ v < 0) \/
                exists w, j < i /\ msg !! Z.to_nat (i - j - 1) = Some w /\ w < 0)
      as Hsplit.
    { split.
      - intros (w & Hle & Hl & Hw).
        destruct (Z.eq_dec i j) as [->|Hne].
        + left. replace (Z.to_nat (j - j)) with 0%nat in Hl by lia.
          cbn in Hl. simplify_eq. by split.
        + right. exists w. split_and!; [lia| |done].
          replace (Z.to_nat (i - j)) with (S (Z.to_nat (i - j - 1))) in Hl
            by lia. done.
      - intros [[-> Hv]|(w & Hlt & Hl & Hw)].
        + exists v. replace (Z.to_nat (j - j)) with 0%nat by lia. by split_and!.
        + exists w. split_and!; [lia| |done].
          replace (Z.to_nat (i - j)) with (S (Z.to_nat (i - j - 1))) by lia.
          done. }
    rewrite Hsplit, <- IH'.
    destruct (Z.ltb_spec v 0).
    + rewrite elem_of_cons. intuition lia.
    + intuition lia.
Qed.

Lemma zero_erasures_app (l1 l2 : list Z) :
  zero_erasures (l1 ++ l2) = zero_erasures l1 ++ zero_erasures l2.
Proof. apply fmap_app. Qed.

Lemma find_erasures_scan (msg : list Z) :
  find_erasures msg = Ok (zero_erasures msg, erasure_positions msg).
Proof.
  set (P := fun (i : Z) (s : list Z * list Z) =>
    s = (zero_erasures (take (Z.to_nat i) msg) ++ drop (Z.to_nat i) msg,
         erasure_positions (take (Z.to_nat i) msg))).
  unfold find_erasures.
  match goal with
  | |- context [for_ _ ?s ?body] =>
      destruct (for_range_total P body 0 (len msg) s) as (s' & Hrun & HP)
  end.
  - apply len_nonneg.
  - done.
  - intros i s Hi ->. unfold len in Hi.
    destruct (lookup_lt_is_Some_2 msg (Z.to_nat i)) as [v Hv]; [lia|].
    assert (length (zero_erasures (take (Z.to_nat i) msg)) = Z.to_nat i) as Hlen.
    { unfold zero_erasures. rewrite length_fmap, length_take. lia. }
    rewrite (drop_S _ _ _ Hv).
    rewrite (py_get_lookup _ i v); [|lia|].
    2:{ rewrite lookup_app_r by lia. by rewrite Hlen, Nat.sub_diag. }
    cbn [bind]. unfold P.
    replace (Z.to_nat (i + 1)) with (S (Z.to_nat i)) by lia.
    rewrite (take_S_r _ _ _ Hv), zero_erasures_app.
    unfold erasure_positions. rewrite erasures_from_app.
    replace (0 + len (take (Z.to_nat i) msg)) with i
      by (unfold len; rewrite length_take; lia).
    cbn [zero_erasures fmap list_fmap erasures_from].
    destruct (v <? 0).
    + rewrite py_set_in_range.
      2:{ unfold len. rewrite length_app. cbn [length]. lia. }
      cbn [bind]. eexists. split; [done|]. f_equal.
      rewrite insert_app_r_alt by lia. rewrite Hlen, Nat.sub_diag.
      cbn. by rewrite <- app_assoc.
    + eexists. split; [done|]. f_equal.
      * by rewrite <- app_assoc.
      * by rewrite app_nil_r.
  - rewrite Hrun. unfold P in HP. rewrite HP. unfold len.
    rewrite Nat2Z.id, firstn_all, drop_all, app_nil_r. done.
Qed.

Lemma erasures_of_symbols (msg : list Z) :
  Forall (fun v => 0 <= v) msg ->
  zero_erasures msg = msg /\ erasure_positions msg = [].
Proof.
  unfold erasure_positions. intros Hall. generalize 0. revert Hall.
  induction msg as [|v msg IH]; intros Hall i; [done|].
  apply Forall_cons in Hall as [Hv Hall].
  destruct (IH Hall (i + 1)) as [IH1 IH2].
  cbn. destruct (Z.ltb_spec v 0); [lia|].
  split; [|done]. f_equal. exact IH1.
Qed.

(** ** Sequences of symbols *)

Lemma py_get_Forall (P : Z -> Prop) (l : list Z) (i : Z) :
  Forall P l -> 0 <= i < len l -> exists v, py_get l i = Ok v /\ P v.
Proof.
  intros Hall Hi. destruct (py_get_in_range l i Hi) as (v & Hv & Hl).
  exists v. split; [done|]. by eapply Forall_lookup_1.
Qed.

Lemma py_get_Ok_Forall (P : Z -> Prop) (l : list Z) (i v : Z) :
  Forall P l -> py_get l i = Ok v -> P v.
Proof.
  intros Hall Hv%py_get_Ok_elem. rewrite Forall_forall in Hall. auto.
Qed.

Lemma py_set_Forall (P : Z -> Prop) (l : list Z) (i v : Z) :
  Forall P l -> P v -> 0 <= i < len l ->
  exists l', py_set l i v = Ok l' /\ len l' = len l /\ Forall P l'.
Proof.
  intros Hall Hv Hi. rewrite py_set_in_range by done.
  eexists. split; [done|]. split; [apply len_insert|].
  by apply Forall_insert.
Qed.

Lemma py_set_Ok_Forall (P : Z -> Prop) (l l' : list Z) (i v : Z) :
  Forall P l -> P v -> py_set l i v = Ok l' -> Forall P l'.
Proof.
  unfold py_set. destruct (py_index l i); [|done].
  intros Hall Hv [= <-]. by apply Forall_insert.
Qed.

Lemma Forall_py_repeat (P : Z -> Prop) (v m : Z) :
  P v -> Forall P (py_repeat v m).
Proof. intros Hv. unfold py_repeat. by apply Forall_replicate. Qed.

Lemma mapM_total {A B} (Q : B -> Prop) (f : A -> result B) (l : list A) :
  Forall (fun a => exists b, f a = Ok b /\ Q b) l ->
  exists bs, mapM f l = Ok bs /\ length bs = length l /\ Forall Q bs.
Proof.
  induction 1 as [|a l (b & Hb & HQ) _ (bs & Hbs & Hlen & Hall)]; cbn.
  - exists []. by split_and!.
  - rewrite Hb, Hbs. cbn. exists (b :: bs). split_and!; [done|cbn; lia|].
    by constructor.
Qed.

Lemma mapM_Ok_inv {A B} (f : A -> result B) (l : list A) (bs : list B) :
  mapM f l = Ok bs -> Forall2 (fun a b => f a = Ok b) l bs.
Proof.
  revert bs. induction l as [|a l IH]; intros bs; cbn.
  - intros [= <-]. constructor.
  - intros H. apply bind_Ok_inv in H as (b & Hb & H).
    apply bind_Ok_inv in H as (bs' & Hbs & [= <-]).
    constructor; auto.
Qed.

(** A comprehension over [range(len(p))] that only reads [p[i]] is a map
    over the elements of [p]. *)
Lemma mapM_range_get {B} (f : Z -> result B) (pre p : list Z) :
  mapM (fun i => pi <- py_get (pre ++ p) i ;; f pi)
       (py_range (len pre) (len (pre ++ p)))
  = mapM f p.
Proof.
  revert pre. induction p as [|a p IH]; intros pre.
  - rewrite app_nil_r, py_range_nil by lia. done.
  - rewrite py_range_cons by (rewrite len_app; unfold len; cbn; lia).
    cbn [mapM].
    rewrite (py_get_lookup _ _ a); [|apply len_nonneg|].
    2:{ unfold len. rewrite Nat2Z.id. by apply list_lookup_middle. }
    cbn [bind]. f_equal.
    specialize (IH (pre ++ [a])). rewrite <- app_assoc in IH.
    cbn [app] in IH. rewrite (len_app pre [a]) in IH.
    change (len [a]) with 1 in IH. by rewrite IH.
Qed.

Lemma mapM_range_get_0 {B} (f : Z -> result B) (p : list Z) :
  mapM (fun i => pi <- py_get p i ;; f pi) (py_range 0 (len p)) = mapM f p.
Proof. apply (mapM_range_get f [] p). Qed.

(** ** Polynomials over the field *)

Section Polynomials.
Variable self : RSCodec.
Hypothesis Hft : field_tables self.

Local Abbreviation symbols := (Forall (symbol self)).

Lemma gf_exp_Ok_symbol (i v : Z) :
  py_get (gf_exp self) i = Ok v -> 1 <= v < q self.
Proof.
  intros Hv. pose proof Hv as Hin%py_get_Ok_elem.
  apply list_elem_of_lookup_1 in Hin as [j Hj].
  pose proof (lookup_lt_Some _ _ _ Hj) as Hlt.
  pose proof (ft_exp_len _ Hft) as Hlen. unfold len in Hlen.
  eapply (gf_exp_symbol self Hft (Z.of_nat j)); [lia|].
  apply py_get_lookup; [lia|]. by rewrite Nat2Z.id.
Qed.

Lemma gf_div_Ok_symbol (x y z : Z) : gf_div self x y = Ok z -> symbol self z.
Proof.
  unfold gf_div. destruct (y =? 0); [done|]. destruct (x =? 0).
  - intros [= <-]. by apply symbol_0.
  - intros H. apply bind_Ok_inv in H as (lx & _ & H).
    apply bind_Ok_inv in H as (ly & _ & H).
    apply gf_exp_Ok_symbol in H. unfold symbol. lia.
Qed.

Lemma gf_poly_scale_total (p : list Z) (x : Z) :
  symbols p -> symbol self x ->
  exists r, gf_poly_scale self p x = Ok r /\ len r = len p /\ symbols r.
Proof.
  intros Hp Hx. unfold gf_poly_scale. rewrite mapM_range_get_0.
  destruct (mapM_total (symbol self) (fun pi => gf_mul self pi x) p)
    as (r & Hr & Hlen & Hall).
  { eapply Forall_impl; [exact Hp|]. intros a Ha.
    by apply gf_mul_symbol. }
  exists r. split_and!; [done| |done]. unfold len. lia.
Qed.

Lemma gf_poly_add_total (p1 p2 : list Z) :
  symbols p1 -> symbols p2 ->
  exists r, gf_poly_add p1 p2 = Ok r
            /\ len r = Z.max (len p1) (len p2) /\ symbols r.
Proof.
  intros Hp1 Hp2. unfold gf_poly_add.
  pose proof (len_nonneg p1). pose proof (len_nonneg p2).
  set (M := Z.max (len p1) (len p2)).
  set (Inv := fun (_ : Z) (r : list Z) => len r = M /\ symbols r).
  match goal with
  | |- context [for_ (py_range 0 (len p1)) ?s ?body] =>
      destruct (for_range_total Inv body 0 (len p1) s) as (r1 & -> & Hr1 & Hs1)
  end.
  { lia. }
  { split; [rewrite len_py_repeat; lia|].
    apply Forall_py_repeat, symbol_0, Hft. }
  { intros i r Hi [Hlen Hall].
    destruct (py_get_Forall _ p1 i Hp1 Hi) as (v & -> & Hv). cbn [bind].
    destruct (py_set_Forall _ r (i + len r - len p1) v Hall Hv)
      as (r' & -> & Hlen' & Hall'); [lia|].
    exists r'. split; [done|]. split; [lia|done]. }
  cbn [bind].
  match goal with
  | |- context [for_ (py_range 0 (len p2)) ?s ?body] =>
      destruct (for_range_total Inv body 0 (len p2) s) as (r2 & -> & Hr2 & Hs2)
  end.
  { lia. }
  { by split. }
  { intros i r Hi [Hlen Hall].
    destruct (py_get_Forall _ r (i + len r - len p2) Hall)
      as (old & -> & Hold); [lia|]. cbn [bind].
    destruct (py_get_Forall _ p2 i Hp2 Hi) as (v & -> & Hv). cbn [bind].
    destruct (py_set_Forall _ r (i + len r - len p2) (Z.lxor old v) Hall)
      as (r' & -> & Hlen' & Hall'); [by apply symbol_lxor|lia|].
    exists r'. split; [done|]. split; [lia|done]. }
  exists r2. by split_and!.
Qed.

Lemma gf_poly_mul_total (p1 p2 : list Z) :
  symbols p1 -> symbols p2 ->
  exists r, gf_poly_mul self p1 p2 = Ok r
            /\ len r = Z.max 0 (len p1 + len p2 - 1) /\ symbols r.
Proof.
  intros Hp1 Hp2. unfold gf_poly_mul.
  pose proof (len_nonneg p1). pose proof (len_nonneg p2).
  set (M := Z.max 0 (len p1 + len p2 - 1)).
  set (Inv := fun (_ : Z) (r : list Z) => len r = M /\ symbols r).
  match goal with
  | |- context [for_ (py_range 0 (len p2)) ?s ?body] =>
      destruct (for_range_total Inv body 0 (len p2) s) as (r & -> & Hr & Hs)
  end.
  { lia. }
  { split; [rewrite len_py_repeat; lia|].
    apply Forall_py_repeat, symbol_0, Hft. }
  { intros j r Hj HInv.
    match goal with
    | |- context [for_ (py_range 0 (len p1)) ?s ?body] =>
        destruct (for_range_total Inv body 0 (len p1) s)
          as (r' & -> & Hr' & Hs')
    end.
    { lia. }
    { done. }
    { intros i r0 Hi [Hlen Hall].
      destruct (py_get_Forall _ r0 (i + j) Hall) as (old & -> & Hold); [lia|].
      cbn [bind].
      destruct (py_get_Forall _ p1 i Hp1 Hi) as (a & -> & Ha). cbn [bind].
      destruct (py_get_Forall _ p2 j Hp2 Hj) as (b & -> & Hb). cbn [bind].
      destruct (gf_mul_symbol self Hft a b Ha Hb) as (m & -> & Hm).
      cbn [bind].
      destruct (py_set_Forall _ r0 (i + j) (Z.lxor old m) Hall)
        as (r1 & -> & Hlen1 & Hall1); [by apply symbol_lxor|lia|].
      exists r1. split; [done|]. split; [lia|done]. }
    exists r'. by split. }
  exists r. by split_and!.
Qed.

Lemma gf_poly_eval_total (p : list Z) (x : Z) :
  symbols p -> p <> [] -> symbol self x ->
  exists y, gf_poly_eval self p x = Ok y /\ symbol self y.
Proof.
  intros Hp Hne Hx. unfold gf_poly_eval.
  assert (0 < len p) as Hlen by (destruct p; [done|unfold len; cbn; lia]).
  destruct (py_get_Forall _ p 0 Hp) as (y0 & -> & Hy0); [lia|]. cbn [bind].
  set (Inv := fun (_ : Z) (y : Z) => symbol self y).
  match goal with
  | |- context [for_ _ ?s ?body] =>
      destruct (for_range_total Inv body 1 (len p) s) as (y & -> & Hy)
  end.
  { lia. }
  { done. }
  { intros i y Hi Hy.
    destruct (gf_mul_symbol self Hft y x Hy Hx) as (m & -> & Hm). cbn [bind].
    destruct (py_get_Forall _ p i Hp) as (a & -> & Ha); [lia|]. cbn [bind].
    eexists. split; [done|]. by apply symbol_lxor. }
  by exists y.
Qed.
End Polynomials.

(** ** The Berlekamp-Massey loop *)

Section BerlekampMassey.
Variable self : RSCodec.
Hypothesis Hft : field_tables self.

Local Abbreviation symbols := (Forall (symbol self)).

(** On syndromes that are symbols the loop returns, and the locator it
    returns has at most one coefficient more than there are syndromes. *)
Lemma rs_find_errors_loop_total (synd : list Z) :
  symbols synd ->
  exists err_poly old_poly,
    rs_find_errors_loop self synd = Ok (err_poly, old_poly)
    /\ symbols err_poly /\ 1 <= len err_poly <= len synd + 1.
Proof.
  intros Hsynd. unfold rs_find_errors_loop.
  set (Inv := fun (i : Z) (s : list Z * list Z) =>
    symbols s.1 /\ symbols s.2
    /\ 1 <= len s.1 <= i + 1 /\ 1 <= len s.2 <= i + 1).
  match goal with
  | |- context [for_ _ ?s ?body] =>
      destruct (for_range_total Inv body 0 (len synd) s)
        as ([err old] & Hrun & He & Ho & Hle & Hlo)
  end.
  { apply len_nonneg. }
  { unfold Inv. cbn.
    split_and!; first [by apply Forall_singleton, symbol_1|done]. }
  { intros i [err old] Hi (He & Ho & Hle & Hlo).
    cbn [fst snd] in He, Ho, Hle, Hlo.
    assert (symbols (old ++ [0])) as Ho'.
    { apply Forall_app. split; [done|]. by apply Forall_singleton, symbol_0. }
    assert (len (old ++ [0]) = len old + 1) as Hlo'
      by (rewrite len_app; done).
    destruct (py_get_Forall _ synd i Hsynd Hi) as (d0 & -> & Hd0).
    cbn [bind].
    match goal with
    | |- context [for_ (py_range 1 (len err)) ?s ?body] =>
        destruct (for_range_total (fun _ d => symbol self d) body
                    1 (len err) s) as (delta & -> & Hdelta)
    end.
    { lia. }
    { done. }
    { intros j d Hj Hd.
      destruct (py_get_Forall _ err (len err - 1 - j) He) as (e & -> & Hsym);
        [lia|]. cbn [bind].
      destruct (py_get_Forall _ synd (i - j) Hsynd) as (sy & -> & Hsy);
        [lia|]. cbn [bind].
      destruct (gf_mul_symbol self Hft e sy Hsym Hsy) as (m & -> & Hm).
      cbn [bind]. eexists. split; [done|]. by apply symbol_lxor. }
    cbn [bind]. destruct (Z.eqb_spec delta 0) as [->|Hnz].
    { eexists. split; [done|]. unfold Inv. cbn [fst snd].
      split_and!; (done || lia). }
    assert (1 <= delta < q self) as Hdr by (unfold symbol in Hdelta; lia).
    destruct (Z.gtb_spec (len (old ++ [0])) (len err)) as [Hgt|Hngt].
    - destruct (gf_poly_scale_total self Hft (old ++ [0]) delta Ho' Hdelta)
        as (new & -> & Hnl & Hns). cbn [bind].
      destruct (gf_div_symbol self Hft 1 delta (symbol_1 self Hft) Hdr)
        as (inv & -> & Hinv). cbn [bind].
      destruct (gf_poly_scale_total self Hft err inv He Hinv)
        as (old2 & -> & Hol & Hos). cbn [bind].
      destruct (gf_poly_scale_total self Hft old2 delta Hos Hdelta)
        as (sc & -> & Hscl & Hscs). cbn [bind].
      destruct (gf_poly_add_total self Hft new sc Hns Hscs)
        as (err2 & -> & Hel & Hes). cbn [bind].
      eexists. split; [done|]. unfold Inv. cbn [fst snd].
      split_and!; (done || lia).
    - cbn [bind].
      destruct (gf_poly_scale_total self Hft (old ++ [0]) delta Ho' Hdelta)
        as (sc & -> & Hscl & Hscs). cbn [bind].
      destruct (gf_poly_add_total self Hft err sc He Hscs)
        as (err2 & -> & Hel & Hes). cbn [bind].
      eexists. split; [done|]. unfold Inv. cbn [fst snd].
      split_and!; (done || lia). }
  cbn [fst snd] in He, Ho, Hle, Hlo. exists err, old.
  split_and!; (done || lia).
Qed.
End BerlekampMassey.

(** ** Syndromes and the errata corrector *)

Lemma py_max_symbols (l : list Z) :
  l <> [] -> Forall (fun v => 0 <= v) l ->
  exists mx, py_max l = Ok mx /\ 0 <= mx
             /\ (mx = 0 <-> Forall (fun v => v = 0) l).
Proof.
  intros Hne Hall. destruct l as [|x l]; [done|]. clear Hne.
  apply Forall_cons in Hall as [Hx Hall]. cbn [py_max].
  eexists. split; [done|].
  revert x Hx. induction Hall as [|a l Ha _ IH]; intros x Hx; cbn [fold_left].
  - split; [done|]. rewrite Forall_singleton. done.
  - destruct (IH (Z.max x a) ltac:(lia)) as [Hnn Hiff].
    split; [done|]. rewrite Hiff, !Forall_cons. intuition lia.
Qed.

Lemma py_slice_strip {A} (l : list A) (m : Z) :
  1 <= m -> py_slice l 0 (- m) = take (length l - Z.to_nat m) l.
Proof.
  intros Hm. unfold py_slice, py_bound, len.
  destruct (Z.ltb_spec 0 0); [lia|]. destruct (Z.ltb_spec (- m) 0); [|lia].
  replace (Z.to_nat (Z.min (Z.max 0 0) (Z.of_nat (length l)))) with 0%nat
    by lia.
  rewrite drop_0. f_equal. lia.
Qed.

Section Syndromes.
Variable self : RSCodec.
Hypothesis Hft : field_tables self.

Local Abbreviation symbols := (Forall (symbol self)).

Lemma symbols_zero_erasures (msg : list Z) :
  Forall (fun v => v < q self) msg -> symbols (zero_erasures msg).
Proof.
  intros Hall. unfold zero_erasures. apply Forall_fmap.
  eapply Forall_impl; [exact Hall|]. intros v Hv. cbn in Hv |- *.
  destruct (Z.ltb_spec v 0); [by apply symbol_0|]. unfold symbol. lia.
Qed.

Lemma symbols_nonneg (l : list Z) : symbols l -> Forall (fun v => 0 <= v) l.
Proof.
  intros Hl. eapply Forall_impl; [exact Hl|]. unfold symbol. intros v Hv. lia.
Qed.

(** The corrector keeps the block a block of symbols of the same length. *)
Lemma rs_correct_errata_symbols (msg synd pos msg' : list Z) :
  symbols msg -> rs_correct_errata self msg synd pos = Ok msg' ->
  symbols msg' /\ len msg' = len msg.
Proof.
  intros Hmsg H. unfold rs_correct_errata in H. cbv zeta in H.
  apply bind_Ok_inv in H as (q1 & _ & H).
  apply bind_Ok_inv in H as (p1 & _ & H).
  revert H.
  apply (for_range_partial (fun _ m => symbols m /\ len m = len msg));
    [apply len_nonneg|done|].
  intros i m m' _ [Hm Hl] Hbody.
  repeat (apply bind_Ok_inv in Hbody as (? & ? & Hbody)).
  match goal with
  | Hold : py_get m _ = Ok ?old, Hd : gf_div self _ _ = Ok ?d |- _ =>
      assert (symbol self (Z.lxor old d)) as Hnew
        by (apply (symbol_lxor self Hft);
            [by eapply py_get_Ok_Forall|by eapply gf_div_Ok_symbol])
  end.
  split.
  - by eapply py_set_Ok_Forall.
  - apply py_set_Ok_len in Hbody. lia.
Qed.

(** Syndromes of a non-empty block of symbols, at evaluation points that
    exist in [gf_exp]. *)
Lemma rs_calc_syndromes_total (msg : list Z) (nsym0 : Z) :
  symbols msg -> msg <> [] ->
  (forall i, 0 <= i < nsym0 -> exists e, py_get (gf_exp self) i = Ok e) ->
  exists synd, rs_calc_syndromes self msg nsym0 = Ok synd
               /\ symbols synd /\ len synd = Z.max 0 nsym0.
Proof.
  intros Hmsg Hne Hpts. unfold rs_calc_syndromes.
  destruct (mapM_total (symbol self)
              (fun i => e <- py_get (gf_exp self) i ;; gf_poly_eval self msg e)
              (py_range 0 nsym0)) as (synd & Hrun & Hlen & Hall).
  { apply Forall_forall. intros i Hi%elem_of_py_range.
    destruct (Hpts i Hi) as (e & He). rewrite He. cbn [bind].
    apply (gf_poly_eval_total self Hft); [done|done|].
    apply (gf_exp_Ok_symbol self Hft) in He. unfold symbol. lia. }
  exists synd. split_and!; [done|done|].
  pose proof (len_py_range 0 nsym0) as Hr. unfold len in *. lia.
Qed.

(** What a successful syndrome computation tells about its arguments. *)
Lemma rs_calc_syndromes_Ok_inv (msg synd : list Z) (nsym0 : Z) :
  rs_calc_syndromes self msg nsym0 = Ok synd -> synd <> [] ->
  msg <> [] /\ 1 <= nsym0
  /\ (forall i, 0 <= i < nsym0 -> exists e, py_get (gf_exp self) i = Ok e).
Proof.
  intros Hrun Hne. unfold rs_calc_syndromes in Hrun.
  apply mapM_Ok_inv in Hrun.
  assert (1 <= nsym0) as Hn.
  { destruct (Z.le_gt_cases 1 nsym0); [done|].
    rewrite py_range_nil in Hrun by lia. by inversion Hrun. }
  assert (forall i, 0 <= i < nsym0 ->
            exists e v, py_get (gf_exp self) i = Ok e
                        /\ gf_poly_eval self msg e = Ok v) as Hall.
  { intros i Hi%elem_of_py_range.
    apply list_elem_of_lookup_1 in Hi as [j Hj].
    destruct (Forall2_lookup_l _ _ _ _ _ Hrun Hj) as (v & _ & Hv).
    apply bind_Ok_inv in Hv as (e & He & Hv). eauto. }
  split_and!; [|done|].
  - destruct (Hall 0 ltac:(lia)) as (e & v & _ & Hv).
    intros ->. discriminate.
  - intros i Hi. destruct (Hall i Hi) as (e & v & He & _). eauto.
Qed.
End Syndromes.

(** ** The encoder *)

Lemma xor_into_nil_r (buf : list Z) : xor_into buf [] = buf.
Proof. by destruct buf. Qed.

Lemma length_xor_into (buf vals : list Z) :
  length (xor_into buf vals) = length buf.
Proof.
  revert vals. induction buf as [|b buf IH]; intros [|v vals]; cbn; auto.
Qed.

Lemma xor_into_zeros (buf vals : list Z) :
  Forall (fun v => v = 0) vals -> xor_into buf vals = buf.
Proof.
  intros Hall. revert buf.
  induction Hall as [|v vals -> _ IH]; intros [|b buf]; cbn; try done.
  by rewrite Z.lxor_0_r, IH.
Qed.

Lemma xor_into_take_S (d vals : list Z) (j : nat) (old m : Z) :
  d !! j = Some old -> vals !! j = Some m ->
  <[j := Z.lxor old m]> (xor_into d (take j vals))
  = xor_into d (take (S j) vals).
Proof.
  revert d vals. induction j as [|j IH]; intros [|a d] [|b vals] Hd Hv;
    try done; cbn in Hd, Hv.
  - simplify_eq. cbn. by rewrite xor_into_nil_r.
  - cbn. f_equal. by apply IH.
Qed.

Lemma lookup_xor_into_ge (d vals : list Z) (j : nat) :
  (length vals <= j)%nat -> xor_into d vals !! j = d !! j.
Proof.
  revert d vals. induction j as [|j IH]; intros [|a d] [|b vals] Hlen;
    cbn in *; try done; try lia.
  apply IH. lia.
Qed.

Lemma Forall_xor_into (P : Z -> Prop) (d vals : list Z) :
  (forall x y, P x -> P y -> P (Z.lxor x y)) ->
  Forall P d -> Forall P vals -> Forall P (xor_into d vals).
Proof.
  intros Hxor Hd. revert vals.
  induction Hd as [|a d Ha Hd IH]; intros [|b vals] Hv; cbn; try done.
  - by constructor.
  - apply Forall_cons in Hv as [Hb Hv]. constructor; auto.
Qed.

Lemma forallb_is_byte (l : list Z) :
  Forall (fun v => 0 <= v < 256) l -> forallb is_byte l = true.
Proof.
  intros Hall. apply forallb_forall. intros v Hv%list_elem_of_In.
  rewrite Forall_forall in Hall. specialize (Hall v Hv).
  unfold is_byte. apply andb_true_iff. split; [apply Z.leb_le|apply Z.ltb_lt];
    lia.
Qed.

Lemma length_spec_remainder
    (self : RSCodec) (g : list Z) (steps : nat) (dividend : list Z) :
  length (spec_remainder self g steps dividend)
  = (length dividend - steps)%nat.
Proof.
  unfold spec_remainder. induction steps as [|steps IH]; [cbn; lia|].
  rewrite Nat.iter_succ.
  destruct (Nat.iter steps _ _) as [|c rest]; cbn in *; [lia|].
  rewrite length_xor_into. lia.
Qed.

Section Encoder.
Variable self : RSCodec.
Hypothesis Hft : field_tables self.

Local Abbreviation symbols := (Forall (symbol self)).

Lemma fmul_gf_mul (x y z : Z) : gf_mul self x y = Ok z -> fmul self x y = z.
Proof. unfold fmul. by intros ->. Qed.

Lemma rs_generator_poly_total (nsym0 : Z) :
  0 <= nsym0 <= n self ->
  exists gen, rs_generator_poly self nsym0 = Ok gen
              /\ len gen = nsym0 + 1 /\ symbols gen.
Proof.
  intros Hn. unfold rs_generator_poly.
  pose proof (ft_q _ Hft) as Hq.
  set (Inv := fun (i : Z) (g : list Z) => len g = i /\ symbols g).
  match goal with
  | |- context [for_ _ ?s ?body] =>
      destruct (for_range_total Inv body 1 (nsym0 + 1) s) as (g & -> & Hg)
  end.
  - lia.
  - split; [done|]. by apply Forall_singleton, symbol_1.
  - intros i g Hi [Hlen Hsym].
    destruct (ft_exp_range _ Hft i ltac:(lia)) as (e & -> & He). cbn [bind].
    destruct (gf_poly_mul_total self Hft g [1; e] Hsym) as (r & -> & Hl & Hr).
    { apply Forall_cons. split; [by apply symbol_1|].
      apply Forall_singleton. unfold symbol. lia. }
    exists r. split; [done|]. split; [|done].
    change (len [1; e]) with 2 in Hl. lia.
  - exists g. destruct Hg as [Hl Hs]. by split_and!.
Qed.

Lemma gf_mul_1_1 : gf_mul self 1 1 = Ok 1.
Proof.
  pose proof (ft_n _ Hft) as Hn. unfold gf_mul. cbn [Z.eqb orb].
  rewrite (ft_log_exp _ Hft 0 1 ltac:(lia) (ft_exp_0 _ Hft)). cbn [bind].
  apply (ft_exp_0 _ Hft).
Qed.

(** The product of two monic polynomials is monic. *)
Lemma gf_poly_mul_monic (p1 p2 r : list Z) :
  p1 !! 0%nat = Some 1 -> p2 !! 0%nat = Some 1 ->
  gf_poly_mul self p1 p2 = Ok r -> r !! 0%nat = Some 1.
Proof.
  intros Hp1 Hp2. unfold gf_poly_mul.
  assert (1 <= len p1) as Hl1
    by (apply lookup_lt_Some in Hp1; unfold len; lia).
  assert (1 <= len p2) as Hl2
    by (apply lookup_lt_Some in Hp2; unfold len; lia).
  intros Hrun.
  enough (r !! 0%nat = Some (if len p2 =? 0 then 0 else 1)) as Hr.
  { destruct (Z.eqb_spec (len p2) 0); [lia|done]. }
  revert Hrun.
  apply (for_range_partial
           (fun j r => r !! 0%nat = Some (if j =? 0 then 0 else 1)));
    [lia| |].
  { unfold py_repeat. apply lookup_replicate_2. lia. }
  intros j r0 r1 Hj Hr0.
  intros Hrun.
  enough (r1 !! 0%nat
          = Some (if (j =? 0) && (len p1 =? 0) then 0 else 1)) as Hr1.
  { destruct (Z.eqb_spec (len p1) 0); [lia|].
    rewrite andb_false_r in Hr1. by destruct (Z.eqb_spec (j + 1) 0); [lia|]. }
  revert Hrun.
  apply (for_range_partial
           (fun i r => r !! 0%nat
                       = Some (if (j =? 0) && (i =? 0) then 0 else 1)));
    [lia| |].
  { rewrite Hr0. cbn. by rewrite andb_true_r. }
  intros i r2 r3 Hi Hr2 Hbody.
  apply bind_Ok_inv in Hbody as (old & Hold & Hbody).
  apply bind_Ok_inv in Hbody as (a & Ha & Hbody).
  apply bind_Ok_inv in Hbody as (b & Hb & Hbody).
  apply bind_Ok_inv in Hbody as (m & Hm & Hbody).
  assert (0 <= i + j < len r2) as Hin.
  { apply (py_get_Ok_range _ _ _ Hold). lia. }
  rewrite py_set_in_range in Hbody by done. injection Hbody as <-.
  destruct (Z.eq_dec (i + j) 0) as [Hz|Hnz].
  - assert (i = 0) as -> by lia. assert (j = 0) as -> by lia.
    cbn in Hr2. change (0 + 0) with 0 in *. change (Z.to_nat 0) with 0%nat.
    rewrite list_lookup_insert_eq by (unfold len in Hin; lia).
    rewrite (py_get_lookup r2 0 0 ltac:(lia) Hr2) in Hold.
    rewrite (py_get_lookup p1 0 1 ltac:(lia) Hp1) in Ha.
    rewrite (py_get_lookup p2 0 1 ltac:(lia) Hp2) in Hb.
    simplify_eq. rewrite gf_mul_1_1 in Hm. by simplify_eq.
  - rewrite list_lookup_insert_ne by lia. rewrite Hr2.
    destruct (Z.eqb_spec j 0), (Z.eqb_spec i 0),
      (Z.eqb_spec (i + 1) 0); cbn; (done || lia).
Qed.

Lemma rs_generator_poly_monic (nsym0 : Z) (gen : list Z) :
  rs_generator_poly self nsym0 = Ok gen -> gen !! 0%nat = Some 1.
Proof.
  unfold rs_generator_poly.
  destruct (Z.le_gt_cases 1 (nsym0 + 1)) as [Hle|Hgt].
  - apply (for_range_partial (fun _ g => g !! 0%nat = Some 1)); [done|done|].
    intros i g g' _ Hg Hbody. apply bind_Ok_inv in Hbody as (e & _ & Hmul).
    by apply (gf_poly_mul_monic g [1; e] g').
  - rewrite py_range_nil by lia. by intros [= <-].
Qed.

(** The inner loop of the encoder adds [coef] times [gen] into the buffer
    from position [i] on. *)
Lemma rs_encode_msg_inner (buf gen : list Z) (i coef : Z) :
  q self <= 256 ->
  symbols buf -> symbols gen -> symbol self coef ->
  0 <= i -> i + len gen <= len buf ->
  exists buf',
    for_ (py_range 0 (len gen)) buf (fun j msg_out =>
      old <- py_get msg_out (i + j) ;;
      gj <- py_get gen j ;;
      m <- gf_mul self gj coef ;;
      ba_set msg_out (i + j) (Z.lxor old m))
    = Ok buf'
    /\ buf' = take (Z.to_nat i) buf
              ++ xor_into (drop (Z.to_nat i) buf)
                          ((fun gj => fmul self gj coef) <$> gen).
Proof.
  intros Hbyte Hbuf Hgen Hcoef Hi Hlen.
  set (vals := (fun gj => fmul self gj coef) <$> gen).
  set (Inv := fun (j : Z) (b : list Z) =>
    b = take (Z.to_nat i) buf
        ++ xor_into (drop (Z.to_nat i) buf) (take (Z.to_nat j) vals)).
  assert (length (take (Z.to_nat i) buf) = Z.to_nat i) as Hpre.
  { rewrite length_take. unfold len in Hlen. lia. }
  match goal with
  | |- context [for_ _ ?s ?body] =>
      destruct (for_range_total Inv body 0 (len gen) s) as (b & -> & Hb)
  end.
  - apply len_nonneg.
  - unfold Inv. cbn. by rewrite xor_into_nil_r, take_drop.
  - intros j b Hj ->. unfold len in Hj, Hlen.
    destruct (lookup_lt_is_Some_2 gen (Z.to_nat j)) as [gj Hgj]; [lia|].
    destruct (lookup_lt_is_Some_2 buf (Z.to_nat (i + j))) as [old Hold];
      [lia|].
    pose proof (Forall_lookup_1 _ _ _ _ Hgen Hgj) as Hgj_sym.
    pose proof (Forall_lookup_1 _ _ _ _ Hbuf Hold) as Hold_sym.
    destruct (gf_mul_symbol self Hft gj coef Hgj_sym Hcoef) as (m & Hm & Hm_sym).
    assert (drop (Z.to_nat i) buf !! Z.to_nat j = Some old) as Hd.
    { rewrite lookup_drop. by replace (Z.to_nat i + Z.to_nat j)%nat
        with (Z.to_nat (i + j)) by lia. }
    assert (vals !! Z.to_nat j = Some m) as Hv.
    { unfold vals. rewrite list_lookup_fmap, Hgj. cbn.
      by rewrite (fmul_gf_mul _ _ _ Hm). }
    rewrite (py_get_lookup _ (i + j) old); [|lia|].
    2:{ rewrite lookup_app_r by lia. rewrite Hpre.
        replace (Z.to_nat (i + j) - Z.to_nat i)%nat with (Z.to_nat j) by lia.
        rewrite lookup_xor_into_ge; [done|]. rewrite length_take. lia. }
    cbn [bind]. rewrite (py_get_lookup _ j gj) by (done || lia).
    cbn [bind]. rewrite Hm. cbn [bind].
    unfold ba_set.
    assert (is_byte (Z.lxor old m) = true) as ->.
    { pose proof (symbol_lxor self Hft old m Hold_sym Hm_sym) as Hx.
      unfold symbol in Hx. unfold is_byte.
      apply andb_true_iff. split; [apply Z.leb_le|apply Z.ltb_lt]; lia. }
    rewrite py_set_in_range.
    2:{ unfold len. rewrite length_app, length_xor_into, length_drop, Hpre.
        lia. }
    eexists. split; [done|]. unfold Inv.
    rewrite insert_app_r_alt by lia. rewrite Hpre. f_equal.
    replace (Z.to_nat (i + j) - Z.to_nat i)%nat with (Z.to_nat j) by lia.
    replace (Z.to_nat (j + 1)) with (S (Z.to_nat j)) by lia.
    by apply xor_into_take_S.
  - exists b. split; [done|]. unfold Inv in Hb. rewrite Hb.
    do 2 f_equal. apply take_ge. unfold vals, len.
    rewrite length_fmap. lia.
Qed.

Lemma fmul_symbol (x y : Z) :
  symbol self x -> symbol self y -> symbol self (fmul self x y).
Proof.
  intros Hx Hy. destruct (gf_mul_symbol self Hft x y Hx Hy) as (z & Hz & Hs).
  by rewrite (fmul_gf_mul _ _ _ Hz).
Qed.

Lemma fmul_0_r (x : Z) : fmul self x 0 = 0.
Proof. unfold fmul, gf_mul. by rewrite Z.eqb_refl, orb_true_r. Qed.

Lemma py_bound_prefix (b : list Z) (m : Z) :
  0 <= m <= len b -> py_bound b m = Z.to_nat m.
Proof.
  intros Hm. unfold py_bound. destruct (Z.ltb_spec m 0); lia.
Qed.

(** The encoder on symbols of a field that fits a byte: it returns the
    message followed by the remainder of the long division of the message,
    shifted by [nsym0] places, by the generator polynomial. *)
Lemma rs_encode_msg_total (msg_in : list Z) (nsym0 : Z) :
  q self <= 256 -> symbols msg_in ->
  0 <= nsym0 -> len msg_in + nsym0 <= n self ->
  exists gen,
    rs_generator_poly self nsym0 = Ok gen
    /\ len gen = nsym0 + 1
    /\ rs_encode_msg self msg_in nsym0
       = Ok (msg_in ++ spec_remainder self gen (length msg_in)
                         (msg_in ++ py_repeat 0 nsym0)).
Proof.
  intros Hbyte Hmsg Hnsym Hlen.
  pose proof (len_nonneg msg_in) as HL.
  destruct (rs_generator_poly_total nsym0 ltac:(lia)) as (gen & Hgen & Hgl & Hgs).
  exists gen. split; [done|]. split; [done|].
  assert (forallb is_byte msg_in = true) as Hbytes.
  { apply forallb_is_byte. eapply Forall_impl; [exact Hmsg|].
    unfold symbol. intros v Hv. lia. }
  unfold rs_encode_msg.
  destruct (Z.gtb_spec (len msg_in + nsym0) (n self)); [lia|].
  rewrite Hgen. cbn [bind]. unfold bytearray.
  destruct (Z.ltb_spec (len msg_in + nsym0) 0); [lia|]. cbn [bind].
  unfold ba_set_prefix. rewrite Hbytes. cbn [bind].
  rewrite py_bound_prefix by (rewrite len_py_repeat; lia).
  set (buf0 := msg_in ++ py_repeat 0 nsym0).
  assert (msg_in ++ drop (Z.to_nat (len msg_in))
                         (py_repeat 0 (len msg_in + nsym0)) = buf0) as ->.
  { unfold buf0, py_repeat, len. rewrite drop_replicate. do 2 f_equal. lia. }
  assert (symbols buf0) as Hbuf0.
  { apply Forall_app. split; [done|]. by apply Forall_py_repeat, symbol_0. }
  assert (len buf0 = len msg_in + nsym0) as Hlen0.
  { unfold buf0. rewrite len_app, len_py_repeat. lia. }
  set (Inv := fun (i : Z) (b : list Z) =>
    symbols b /\ len b = len msg_in + nsym0
    /\ drop (Z.to_nat i) b
       = spec_remainder self gen (Z.to_nat i) buf0).
  match goal with
  | |- context [for_ (py_range 0 (len msg_in)) ?s ?body] =>
      destruct (for_range_total Inv body 0 (len msg_in) s)
        as (b & -> & Hb & Hbl & Hdrop)
  end.
  - lia.
  - by split_and!.
  - intros i b Hi (Hb & Hbl & Hdrop).
    destruct (py_get_in_range b i ltac:(lia)) as (c & -> & Hc). cbn [bind].
    pose proof (Forall_lookup_1 _ _ _ _ Hb Hc) as Hc_sym.
    assert (spec_remainder self gen (Z.to_nat (i + 1)) buf0
            = xor_into (drop (S (Z.to_nat i)) b)
                       ((fun gj => fmul self gj c) <$> tail gen)) as Hstep.
    { replace (Z.to_nat (i + 1)) with (S (Z.to_nat i)) by lia.
      unfold spec_remainder in *. rewrite Nat.iter_succ, <- Hdrop.
      by rewrite (drop_S _ _ _ Hc). }
    destruct (Z.eqb_spec c 0) as [->|Hnz].
    + exists b. split; [done|]. split_and!; [done|done|].
      rewrite Hstep. replace (Z.to_nat (i + 1)) with (S (Z.to_nat i)) by lia.
      symmetry. apply xor_into_zeros, Forall_fmap, Forall_forall.
      intros gj _. apply fmul_0_r.
    + destruct (rs_encode_msg_inner b gen i c Hbyte Hb Hgs Hc_sym)
        as (b' & -> & Hb'); [lia|lia|].
      exists b'. split; [done|].
      assert (length (take (Z.to_nat i) b) = Z.to_nat i) as Hpre.
      { rewrite length_take. unfold len in Hbl, Hi, HL. lia. }
      assert (symbols ((fun gj => fmul self gj c) <$> gen)) as Hvals.
      { apply Forall_fmap. eapply Forall_impl; [exact Hgs|].
        intros gj Hgj. by apply fmul_symbol. }
      rewrite Hb'. split_and!.
      * apply Forall_app. split; [by apply Forall_take|].
        apply Forall_xor_into; [apply (symbol_lxor self Hft)| |done].
        by apply Forall_drop.
      * unfold len. rewrite length_app, length_xor_into, length_drop, Hpre.
        unfold len in Hbl, Hi, HL. lia.
      * rewrite Hstep. replace (Z.to_nat (i + 1)) with (S (Z.to_nat i)) by lia.
        rewrite drop_app_ge by lia. rewrite Hpre.
        replace (S (Z.to_nat i) - Z.to_nat i)%nat with 1%nat by lia.
        rewrite (drop_S _ _ _ Hc).
        destruct gen as [|g0 gen']; [unfold len in Hgl; cbn in Hgl; lia|].
        done.
  - cbn [bind]. rewrite py_bound_prefix by lia. rewrite Hdrop.
    unfold len. by rewrite Nat2Z.id.
Qed.
End Encoder.

(** * The claims *)

(** ** Field tables (C8, C10) *)

(** C8, as the source has it: for every supported field size [q0] with
    [n = q0 - 1], [calc_gf_elements] returns an exp table of length [2 * q0]
    (not [2 * n]) and a log table of length [q0] such that
    [exp[log[x]] == x] for every [x] in [[1, q0)] and [exp[i] == exp[i - n]]
    for every index [i >= n] of the exp table. *)
Theorem calc_gf_elements_contract (q0 poly : Z) :
  _gf_poly !! q0 = Some poly ->
  exists gf_exp gf_log,
    calc_gf_elements (q0 - 1) q0 = Ok (gf_exp, gf_log)
    /\ len gf_exp = 2 * q0
    /\ len gf_log = q0
    /\ (forall x, 1 <= x < q0 ->
          exists lx, py_get gf_log x = Ok lx /\ py_get gf_exp lx = Ok x)
    /\ (forall i, q0 - 1 <= i < len gf_exp ->
          exists v, py_get gf_exp i = Ok v
                    /\ py_get gf_exp (i - (q0 - 1)) = Ok v).
Proof.
  intros Hpoly. pose proof (supported_tables_check _ _ Hpoly) as Hcheck.
  assert (q0 = q0 - 1 + 1) as Hq by lia.
  rewrite Hq in Hcheck at 2. rewrite Hq in Hpoly.
  destruct (calc_gf_elements_tables (q0 - 1) poly 0 0 Hcheck Hpoly)
    as (e & l & Hrun & Hft).
  rewrite <- Hq in Hrun.
  exists e, l.
  pose proof (ft_exp_len _ Hft) as He. pose proof (ft_log_len _ Hft) as Hl.
  pose proof (ft_n _ Hft) as Hn.
  cbn in He, Hl, Hn. split_and!; [done|lia|lia| |].
  - intros x Hx. destruct (ft_exp_log _ Hft x) as (j & _ & H1 & H2).
    { cbn. lia. }
    exists j. by split.
  - intros i Hi. destruct (ft_exp_range _ Hft i) as (v & Hv & _).
    { cbn. lia. }
    exists v. split; [done|]. rewrite <- Hv. symmetry.
    apply (ft_period _ Hft). cbn. lia.
Qed.

Lemma calc_gf_elements_contract_witness :
  exists gf_exp gf_log,
    calc_gf_elements (8 - 1) 8 = Ok (gf_exp, gf_log)
    /\ len gf_exp = 2 * 8
    /\ len gf_log = 8
    /\ (forall x, 1 <= x < 8 ->
          exists lx, py_get gf_log x = Ok lx /\ py_get gf_exp lx = Ok x)
    /\ (forall i, 8 - 1 <= i < len gf_exp ->
          exists v, py_get gf_exp i = Ok v
                    /\ py_get gf_exp (i - (8 - 1)) = Ok v).
Proof. apply (calc_gf_elements_contract 8 11). reflexivity. Defined.

(** C8 as stated fails: over GF(4), where [n = 3], the exp table has
    [8 = 2 * q] entries, not [6 = 2 * n]. *)
Lemma gf_exp_length_is_not_2n :
  exists gf_exp gf_log,
    calc_gf_elements 3 4 = Ok (gf_exp, gf_log)
    /\ len gf_exp = 8 /\ len gf_exp <> 2 * 3.
Proof. do 2 eexists. split; [reflexivity|]. split; [reflexivity|done]. Qed.

(** C10: over every supported field, [gf_mul] returns on all symbols
    [x], [y] in [[0, q)], and for [y] in [[1, q)] dividing the product by
    [y] gives [x] back. *)
Theorem gf_div_inverts_gf_mul (n0 k0 : Z) (self : RSCodec) (x y : Z) :
  RSCodec_init n0 k0 = Ok self ->
  0 <= x < q self -> 0 <= y < q self ->
  exists z, gf_mul self x y = Ok z
            /\ (1 <= y -> gf_div self z y = Ok x).
Proof.
  intros Hinit Hx Hy. apply RSCodec_init_inv in Hinit as [Hft _].
  destruct (Z.eq_dec y 0) as [->|Hy0].
  - exists 0. split; [|lia]. unfold gf_mul.
    by rewrite Z.eqb_refl, orb_true_r.
  - destruct (gf_div_gf_mul self Hft x y Hx ltac:(lia)) as (z & Hz & Hdiv).
    exists z. by split.
Qed.

Lemma gf_div_inverts_gf_mul_witness :
  exists z, gf_mul codec_7_3 3 5 = Ok z
            /\ (1 <= 5 -> gf_div codec_7_3 z 5 = Ok 3).
Proof.
  apply (gf_div_inverts_gf_mul 7 3 codec_7_3 3 5); [reflexivity|cbn; lia..].
Defined.

(** ** Length checks (C7) *)

(** C7: the encoder raises "message too long" exactly when
    [len(msg_in) + nsym > n], the decoder exactly when [len(msg_in) > n];
    as both hold for every input, whatever its symbols, nothing that could
    raise runs before the check. *)
Theorem message_too_long_iff (self : RSCodec) (msg_in : list Z) (nsym0 : Z) :
  (rs_encode_msg self msg_in nsym0 = Raise message_too_long
   <-> len msg_in + nsym0 > n self)
  /\ (rs_correct_msg self msg_in nsym0 = Raise message_too_long
      <-> len msg_in > n self).
Proof.
  split; split.
  - intros Hraise. destruct (Z.le_gt_cases (len msg_in + nsym0) (n self));
      [|lia].
    pose proof (raises_rs_encode_msg self (fun e => e <> message_too_long)
                  builtin_not_message_too_long msg_in nsym0 H) as Hr.
    rewrite Hraise in Hr. by destruct Hr.
  - intros Hlen. unfold rs_encode_msg.
    by destruct (Z.gtb_spec (len msg_in + nsym0) (n self)); [|lia].
  - intros Hraise. destruct (Z.le_gt_cases (len msg_in) (n self)); [|lia].
    exfalso. revert Hraise. unfold rs_correct_msg.
    destruct (Z.gtb_spec (len msg_in) (n self)); [lia|].
    rewrite find_erasures_scan. cbn [bind].
    destruct (_ >? nsym0); [discriminate|].
    intros Hraise.
    pose proof (raises_rs_correct_msg_tail self
                  (fun e => e <> message_too_long)
                  builtin_not_message_too_long
                  (zero_erasures msg_in) (erasure_positions msg_in) nsym0
                  ltac:(discriminate) ltac:(discriminate)
                  ltac:(discriminate)) as Hr.
    rewrite Hraise in Hr. by destruct Hr.
  - intros Hlen. unfold rs_correct_msg.
    by destruct (Z.gtb_spec (len msg_in) (n self)); [|lia].
Qed.

(** ** Erasures (C6) *)

(** C6, for blocks the length check lets through: for every received
    block of length at most [n], the scan returns the block with each
    negative symbol replaced by [0] together with the indices of exactly
    the negative symbols; the decoder raises "Too many erasures to correct"
    exactly when there are more than [nsym] of them; and the syndromes are
    those of the zeroed block: what their computation raises the decoder
    raises, and when they are all zero the decoder returns the zeroed block
    without its last [nsym] symbols. *)
Theorem erasures_recorded_and_bounded
    (self : RSCodec) (msg_in : list Z) (nsym0 : Z) :
  len msg_in <= n self ->
  find_erasures msg_in = Ok (zero_erasures msg_in, erasure_positions msg_in)
  /\ (forall i, i ∈ erasure_positions msg_in
        <-> exists v, 0 <= i /\ msg_in !! Z.to_nat i = Some v /\ v < 0)
  /\ (rs_correct_msg self msg_in nsym0 = Raise too_many_erasures
      <-> len (erasure_positions msg_in) > nsym0)
  /\ (len (erasure_positions msg_in) <= nsym0 ->
      (forall e, rs_calc_syndromes self (zero_erasures msg_in) nsym0 = Raise e ->
         rs_correct_msg self msg_in nsym0 = Raise e)
      /\ (forall synd,
            rs_calc_syndromes self (zero_erasures msg_in) nsym0 = Ok synd ->
            py_max synd = Ok 0 ->
            rs_correct_msg self msg_in nsym0
            = Ok (py_slice (zero_erasures msg_in) 0 (- nsym0)))).
Proof.
  intros Hlen. split; [apply find_erasures_scan|]. split.
  { intros i. unfold erasure_positions. rewrite elem_of_erasures_from.
    by rewrite Z.sub_0_r. }
  assert (rs_correct_msg self msg_in nsym0
          = if len (erasure_positions msg_in) >? nsym0
            then Raise too_many_erasures
            else
              synd <- rs_calc_syndromes self (zero_erasures msg_in) nsym0 ;;
              mx <- py_max synd ;;
              if mx =? 0 then Ok (py_slice (zero_erasures msg_in) 0 (- nsym0))
              else
                fsynd <- rs_forney_syndromes self synd
                           (erasure_positions msg_in)
                           (len (zero_erasures msg_in)) ;;
                err_pos <- rs_find_errors self fsynd
                             (len (zero_erasures msg_in)) ;;
                match err_pos with
                | None => Raise could_not_locate
                | Some err_pos =>
                    msg_out <-
                      rs_correct_errata self (zero_erasures msg_in) synd
                        (erasure_positions msg_in ++ err_pos) ;;
                    synd <- rs_calc_syndromes self msg_out nsym0 ;;
                    mx <- py_max synd ;;
                    if mx >? 0 then Raise could_not_correct
                    else Ok (py_slice msg_out 0 (- nsym0))
                end) as Hunfold.
  { unfold rs_correct_msg.
    destruct (Z.gtb_spec (len msg_in) (n self)); [lia|].
    by rewrite find_erasures_scan. }
  rewrite Hunfold. split.
  - destruct (Z.gtb_spec (len (erasure_positions msg_in)) nsym0) as [Hgt|Hle].
    + split; [lia|done].
    + split; [|lia]. intros Hraise. exfalso.
      pose proof (raises_rs_correct_msg_tail self
                    (fun e => e <> too_many_erasures)
                    (fun e => builtin_not_ReedSolomonError e _)
                    (zero_erasures msg_in) (erasure_positions msg_in) nsym0
                    ltac:(discriminate) ltac:(discriminate)
                    ltac:(discriminate)) as Hr.
      rewrite Hraise in Hr. by destruct Hr.
  - intros Hle.
    destruct (Z.gtb_spec (len (erasure_positions msg_in)) nsym0); [lia|].
    split.
    + by intros e ->.
    + intros synd -> Hmax. cbn [bind]. by rewrite Hmax.
Qed.

Lemma erasures_recorded_and_bounded_witness :
  let msg_in := [0; -1; 0; 0; -1; 0; 0] in
  find_erasures msg_in = Ok (zero_erasures msg_in, erasure_positions msg_in)
  /\ (forall i, i ∈ erasure_positions msg_in
        <-> exists v, 0 <= i /\ msg_in !! Z.to_nat i = Some v /\ v < 0)
  /\ (rs_correct_msg codec_7_3 msg_in 4 = Raise too_many_erasures
      <-> len (erasure_positions msg_in) > 4)
  /\ (len (erasure_positions msg_in) <= 4 ->
      (forall e, rs_calc_syndromes codec_7_3 (zero_erasures msg_in) 4 = Raise e ->
         rs_correct_msg codec_7_3 msg_in 4 = Raise e)
      /\ (forall synd,
            rs_calc_syndromes codec_7_3 (zero_erasures msg_in) 4 = Ok synd ->
            py_max synd = Ok 0 ->
            rs_correct_msg codec_7_3 msg_in 4
            = Ok (py_slice (zero_erasures msg_in) 0 (- 4)))).
Proof.
  apply (erasures_recorded_and_bounded codec_7_3 [0; -1; 0; 0; -1; 0; 0] 4).
  vm_compute. discriminate.
Defined.

(** C6 as stated fails on an over-long block: with [n = 7] and [nsym = 4],
    a block of eight erasure sentinels has more than [nsym] erasures, yet
    the decoder raises "message too long" before scanning it. *)
Lemma erasures_of_overlong_block :
  let msg_in := [-1; -1; -1; -1; -1; -1; -1; -1] in
  RSCodec_init 7 3 = Ok codec_7_3
  /\ len (erasure_positions msg_in) > nsym codec_7_3
  /\ decode_block codec_7_3 msg_in = Raise message_too_long
  /\ decode_block codec_7_3 msg_in <> Raise too_many_erasures.
Proof. cbv zeta. split_and!; [reflexivity|reflexivity|reflexivity|discriminate]. Qed.

(** ** No redundancy symbols (C9) *)

(** C9, for blocks the length check lets through: in a codec with
    [nsym = 0] ([k = n]), for every received block of length at most [n]
    without erasure sentinels the syndrome sequence is empty and decoding
    raises the [ValueError] of [max] on an empty sequence, which is none of
    the codec's own errors. *)
Theorem decode_without_parity_raises
    (n0 : Z) (self : RSCodec) (msg_in : list Z) :
  RSCodec_init n0 n0 = Ok self ->
  len msg_in <= n self ->
  Forall (fun v => 0 <= v) msg_in ->
  nsym self = 0
  /\ rs_calc_syndromes self msg_in (nsym self) = Ok []
  /\ decode_block self msg_in = Raise max_empty_error
  /\ ~ in_taxonomy max_empty_error.
Proof.
  intros Hinit Hlen Hsym.
  apply RSCodec_init_inv in Hinit as (_ & _ & _ & _ & Hnsym).
  rewrite Z.sub_diag in Hnsym.
  destruct (erasures_of_symbols msg_in Hsym) as [Hz He].
  split_and!.
  - done.
  - by rewrite Hnsym.
  - unfold decode_block, rs_correct_msg.
    destruct (Z.gtb_spec (len msg_in) (n self)); [lia|].
    rewrite find_erasures_scan, Hz, He, Hnsym. done.
  - unfold in_taxonomy. intros [H|[H|[H|[H|[H|[H|H]]]]]]; discriminate.
Qed.

Lemma decode_without_parity_raises_witness :
  nsym codec_7_7 = 0
  /\ rs_calc_syndromes codec_7_7 [1; 2] (nsym codec_7_7) = Ok []
  /\ decode_block codec_7_7 [1; 2] = Raise max_empty_error
  /\ ~ in_taxonomy max_empty_error.
Proof.
  apply (decode_without_parity_raises 7 codec_7_7 [1; 2]).
  - reflexivity.
  - vm_compute. discriminate.
  - repeat constructor; lia.
Defined.

(** C9 as stated fails on an over-long block: with [n = k = 7], a block of
    eight zero symbols is non-empty and free of sentinels, and decoding it
    raises "message too long", one of the codec's own errors. *)
Lemma decode_without_parity_overlong :
  let msg_in := [0; 0; 0; 0; 0; 0; 0; 0] in
  RSCodec_init 7 7 = Ok codec_7_7
  /\ nsym codec_7_7 = 0
  /\ msg_in <> [] /\ Forall (fun v => 0 <= v) msg_in
  /\ decode_block codec_7_7 msg_in = Raise message_too_long
  /\ in_taxonomy message_too_long.
Proof.
  cbv zeta. split_and!; [reflexivity|reflexivity|discriminate| |reflexivity|].
  - repeat constructor; lia.
  - unfold in_taxonomy. auto.
Qed.

(** ** Round trip and error tolerance (C1, C2) *)

(** C1 fails on the default codec [RSCodec(7, 3)]: the message [[1, 0, 0]]
    is encoded to [[1, 0, 0, 6, 1, 6, 7]], whose first syndrome (its value
    at [gf_exp[0]], which is no root of the generator polynomial) is [7],
    and decoding that codeword raises "Could not locate error". *)
Theorem round_trip_default_codec :
  RSCodec_init 7 3 = Ok codec_7_3
  /\ rs_generator_poly codec_7_3 4 = Ok [1; 3; 1; 2; 3]
  /\ encode_block codec_7_3 [1; 0; 0] = Ok [1; 0; 0; 6; 1; 6; 7]
  /\ rs_calc_syndromes codec_7_3 [1; 0; 0; 6; 1; 6; 7] 4 = Ok [7; 0; 0; 0]
  /\ decode_block codec_7_3 [1; 0; 0; 6; 1; 6; 7] = Raise could_not_locate.
Proof. split_and!; reflexivity. Qed.

(** The module docstring's example over GF(256) with ten redundancy
    symbols: the decoder returns "hello world" on the codeword the docstring
    prints, whose parity comes from the generator with roots
    [gf_exp[0..9]]; the encoder's own output for "hello world" has another
    parity, its first syndrome is [59], and the decoder rejects it. *)
Example docstring_hello_world :
  let hello := [104; 101; 108; 108; 111; 32; 119; 111; 114; 108; 100] in
  exists self,
    RSCodec_init 255 245 = Ok self
    /\ decode_block self
         (hello ++ [237; 37; 84; 196; 253; 253; 137; 243; 168; 170])
       = Ok hello
    /\ encode_block self hello
       = Ok (hello ++ [38; 25; 46; 178; 62; 184; 198; 125; 41; 172])
    /\ rs_calc_syndromes self
         (hello ++ [38; 25; 46; 178; 62; 184; 198; 125; 41; 172]) 10
       = Ok [59; 0; 0; 0; 0; 0; 0; 0; 0; 0]
    /\ decode_block self
         (hello ++ [38; 25; 46; 178; 62; 184; 198; 125; 41; 172])
       = Raise could_not_locate.
Proof.
  cbv zeta. eexists. split; [vm_compute; reflexivity|].
  split_and!; vm_compute; reflexivity.
Qed.

(** C2 fails on the default codec [RSCodec(7, 3)], where [nsym = 4]: the
    codeword of [[1, 2, 3]] is not decoded after one changed symbol
    ([2 * 1 + 0 <= 4]), nor after one erasure ([2 * 0 + 1 <= 4]). *)
Theorem error_tolerance_default_codec :
  RSCodec_init 7 3 = Ok codec_7_3
  /\ encode_block codec_7_3 [1; 2; 3] = Ok [1; 2; 3; 0; 0; 1; 3]
  /\ decode_block codec_7_3 [1; 5; 3; 0; 0; 1; 3] = Raise could_not_locate
  /\ decode_block codec_7_3 [1; 2; 3; 0; 0; 1; -1] = Raise could_not_locate.
Proof. split_and!; reflexivity. Qed.

(** ** The error locator (C5) *)

(** C5: on every sequence of syndromes (symbols of the field) the
    Berlekamp-Massey loop returns a locator [err_poly]; [rs_find_errors]
    raises "Too many errors to correct" exactly when
    [(len(err_poly) - 1) * 2 > len(synd)], and every list of positions it
    returns has [len(err_poly) - 1] entries. *)
Theorem rs_find_errors_count
    (n0 k0 : Z) (self : RSCodec) (synd : list Z) (nmess : Z) :
  RSCodec_init n0 k0 = Ok self ->
  Forall (symbol self) synd ->
  exists err_poly old_poly,
    rs_find_errors_loop self synd = Ok (err_poly, old_poly)
    /\ (rs_find_errors self synd nmess = Raise too_many_errors
        <-> (len err_poly - 1) * 2 > len synd)
    /\ (forall err_pos,
          rs_find_errors self synd nmess = Ok (Some err_pos) ->
          len err_pos = len err_poly - 1).
Proof.
  intros Hinit Hsynd. apply RSCodec_init_inv in Hinit as [Hft _].
  destruct (rs_find_errors_loop_total self Hft synd Hsynd)
    as (err_poly & old_poly & Hloop & _ & _).
  exists err_poly, old_poly. split; [done|].
  unfold rs_find_errors. rewrite Hloop. cbn [bind].
  destruct (Z.gtb_spec ((len err_poly - 1) * 2) (len synd)) as [Hgt|Hle].
  - split; [split; [lia|done]|]. discriminate.
  - split.
    + split; [|lia]. intros Hraise. exfalso.
      pose proof (raises_root_search self (fun e => e <> too_many_errors)
                    (fun e => builtin_not_ReedSolomonError e _)
                    err_poly nmess (len err_poly - 1)) as Hr.
      rewrite Hraise in Hr. by destruct Hr.
    + intros err_pos H. apply bind_Ok_inv in H as (pos & _ & H).
      destruct (Z.eqb_spec (len pos) (len err_poly - 1)) as [Heq|Hne];
        cbn in H; by simplify_eq.
Qed.

Lemma rs_find_errors_count_witness :
  exists err_poly old_poly,
    rs_find_errors_loop codec_7_3 [3; 6; 7; 5] = Ok (err_poly, old_poly)
    /\ (rs_find_errors codec_7_3 [3; 6; 7; 5] 7 = Raise too_many_errors
        <-> (len err_poly - 1) * 2 > len [3; 6; 7; 5])
    /\ (forall err_pos,
          rs_find_errors codec_7_3 [3; 6; 7; 5] 7 = Ok (Some err_pos) ->
          len err_pos = len err_poly - 1).
Proof.
  apply (rs_find_errors_count 7 3 codec_7_3 [3; 6; 7; 5] 7).
  - reflexivity.
  - repeat constructor; cbn; lia.
Defined.

Example rs_find_errors_too_many :
  rs_find_errors codec_7_3 [1] 7 = Raise too_many_errors.
Proof. reflexivity. Qed.

(** ** Verification after correction (C4) *)

(** C4, for blocks on which the corrector returns: when decoding a block
    of symbols and sentinels reaches the errata corrector and the corrector
    returns [msg'], the syndromes of [msg'] are computed; if one of them is
    nonzero the decoder raises "Could not correct message", and if all are
    zero it returns [msg'] without its last [nsym] symbols. *)
Theorem rs_correct_msg_verifies
    (n0 k0 : Z) (self : RSCodec)
    (msg_in msg_out erase_pos synd fsynd err_pos msg' : list Z) (mx : Z) :
  RSCodec_init n0 k0 = Ok self ->
  Forall (fun v => v < q self) msg_in ->
  len msg_in <= n self ->
  find_erasures msg_in = Ok (msg_out, erase_pos) ->
  len erase_pos <= nsym self ->
  rs_calc_syndromes self msg_out (nsym self) = Ok synd ->
  py_max synd = Ok mx -> mx <> 0 ->
  rs_forney_syndromes self synd erase_pos (len msg_out) = Ok fsynd ->
  rs_find_errors self fsynd (len msg_out) = Ok (Some err_pos) ->
  rs_correct_errata self msg_out synd (erase_pos ++ err_pos) = Ok msg' ->
  exists synd',
    rs_calc_syndromes self msg' (nsym self) = Ok synd'
    /\ (Exists (fun s => s <> 0) synd' ->
        decode_block self msg_in = Raise could_not_correct)
    /\ (Forall (fun s => s = 0) synd' ->
        decode_block self msg_in
        = Ok (take (length msg' - Z.to_nat (nsym self)) msg')).
Proof.
  intros Hinit Hsym Hlen Hscan Hera Hsynd Hmax Hmx Hforney Hfind Herrata.
  apply RSCodec_init_inv in Hinit as [Hft _].
  pose proof Hscan as Hscan'. rewrite find_erasures_scan in Hscan'.
  injection Hscan' as Hout Hpos.
  assert (Forall (symbol self) msg_out) as Hout_sym.
  { rewrite <- Hout. by apply symbols_zero_erasures. }
  assert (synd <> []) as Hne by (intros ->; discriminate).
  destruct (rs_calc_syndromes_Ok_inv self msg_out synd (nsym self) Hsynd Hne)
    as (Hout_ne & Hnsym & Hpts).
  destruct (rs_correct_errata_symbols self Hft _ _ _ _ Hout_sym Herrata)
    as [Hmsg' Hlen'].
  assert (msg' <> []) as Hmsg'_ne.
  { intros ->. destruct msg_out; [done|]. unfold len in Hlen'. cbn in Hlen'.
    lia. }
  destruct (rs_calc_syndromes_total self Hft msg' (nsym self)
              Hmsg' Hmsg'_ne Hpts) as (synd' & Hsynd' & Hsym' & Hl').
  assert (synd' <> []) as Hne'.
  { intros ->. unfold len in Hl'. cbn in Hl'. lia. }
  destruct (py_max_symbols synd' Hne' (symbols_nonneg self _ Hsym'))
    as (mx' & Hmax' & Hnn & Hzero).
  assert (decode_block self msg_in
          = if mx' >? 0 then Raise could_not_correct
            else Ok (py_slice msg' 0 (- nsym self))) as Hdec.
  { unfold decode_block, rs_correct_msg.
    destruct (Z.gtb_spec (len msg_in) (n self)); [lia|].
    rewrite Hscan. cbn [bind].
    destruct (Z.gtb_spec (len erase_pos) (nsym self)); [lia|].
    rewrite Hsynd. cbn [bind]. rewrite Hmax. cbn [bind].
    destruct (Z.eqb_spec mx 0); [done|].
    rewrite Hforney. cbn [bind]. rewrite Hfind. cbn [bind].
    rewrite Herrata. cbn [bind]. rewrite Hsynd'. cbn [bind].
    by rewrite Hmax'. }
  exists synd'. split; [done|]. rewrite Hdec. split.
  - intros Hex. destruct (Z.gtb_spec mx' 0); [done|].
    assert (mx' = 0) as Hz by lia. apply Hzero in Hz.
    apply Exists_exists in Hex as (v & Hv & Hnz).
    rewrite Forall_forall in Hz. by specialize (Hz v Hv).
  - intros Hall. apply Hzero in Hall. subst mx'. cbn.
    by rewrite py_slice_strip.
Qed.

Lemma rs_correct_msg_verifies_witness :
  exists synd',
    rs_calc_syndromes codec_7_3 [0; 0; 0; 0; 0; 0; 0] (nsym codec_7_3)
    = Ok synd'
    /\ (Exists (fun s => s <> 0) synd' ->
        decode_block codec_7_3 [0; 5; 0; 0; 0; 0; 0] = Raise could_not_correct)
    /\ (Forall (fun s => s = 0) synd' ->
        decode_block codec_7_3 [0; 5; 0; 0; 0; 0; 0]
        = Ok (take (length [0; 0; 0; 0; 0; 0; 0]
                    - Z.to_nat (nsym codec_7_3)) [0; 0; 0; 0; 0; 0; 0])).
Proof.
  apply (rs_correct_msg_verifies 7 3 codec_7_3
           [0; 5; 0; 0; 0; 0; 0] [0; 5; 0; 0; 0; 0; 0] [] [5; 6; 4; 1]
           [5; 6; 4; 1] [1] [0; 0; 0; 0; 0; 0; 0] 6).
  - reflexivity.
  - repeat constructor.
  - vm_compute. discriminate.
  - reflexivity.
  - vm_compute. discriminate.
  - reflexivity.
  - reflexivity.
  - discriminate.
  - reflexivity.
  - reflexivity.
  - reflexivity.
Defined.

(** C4 as stated fails where the corrector raises: in [RSCodec(7, 3)] the
    block [[1, 1, -1, -1]] has erasures at [2] and [3], syndromes
    [[0, 7, 3, 1]] and Forney syndromes [[1, 1]]; the root search returns
    position [3], an erased one, so the locator built by the corrector for
    [[2, 3, 3]] has a double root and [gf_div] raises [ZeroDivisionError]:
    no syndromes are computed afterwards. *)
Lemma rs_correct_errata_divides_by_zero :
  RSCodec_init 7 3 = Ok codec_7_3
  /\ find_erasures [1; 1; -1; -1] = Ok ([1; 1; 0; 0], [2; 3])
  /\ rs_calc_syndromes codec_7_3 [1; 1; 0; 0] 4 = Ok [0; 7; 3; 1]
  /\ rs_forney_syndromes codec_7_3 [0; 7; 3; 1] [2; 3] 4 = Ok [1; 1]
  /\ rs_find_errors codec_7_3 [1; 1] 4 = Ok (Some [3])
  /\ rs_correct_errata codec_7_3 [1; 1; 0; 0] [0; 7; 3; 1] ([2; 3] ++ [3])
     = Raise ZeroDivisionError
  /\ decode_block codec_7_3 [1; 1; -1; -1] = Raise ZeroDivisionError.
Proof. split_and!; reflexivity. Qed.

(** ** Systematic encoding (C3) *)

(** X23: for the fields whose symbols fit the encoder's [bytearray]: in a
    codec with [q <= 256], for every message of symbols with
    [len(msg_in) + nsym <= n] (and [nsym >= 0]) the encoder returns a block
    of [len(msg_in) + nsym] symbols that starts with the message verbatim
    and ends with the remainder of the long division of the message,
    followed by [nsym] zeros, by the monic generator polynomial. *)
Theorem rs_encode_msg_systematic
    (n0 k0 : Z) (self : RSCodec) (msg_in : list Z) (nsym0 : Z) :
  RSCodec_init n0 k0 = Ok self ->
  q self <= 256 ->
  Forall (symbol self) msg_in ->
  0 <= nsym0 ->
  len msg_in + nsym0 <= n self ->
  exists gen msg_out,
    rs_generator_poly self nsym0 = Ok gen
    /\ gen !! 0%nat = Some 1 /\ len gen = nsym0 + 1
    /\ rs_encode_msg self msg_in nsym0 = Ok msg_out
    /\ len msg_out = len msg_in + nsym0
    /\ take (length msg_in) msg_out = msg_in
    /\ drop (length msg_in) msg_out
       = spec_remainder self gen (length msg_in)
           (msg_in ++ py_repeat 0 nsym0).
Proof.
  intros Hinit Hbyte Hmsg Hnsym Hlen.
  apply RSCodec_init_inv in Hinit as [Hft _].
  destruct (rs_encode_msg_total self Hft msg_in nsym0 Hbyte Hmsg Hnsym Hlen)
    as (gen & Hgen & Hgl & Henc).
  exists gen. eexists. split_and!.
  - done.
  - by eapply rs_generator_poly_monic.
  - done.
  - exact Henc.
  - unfold len. rewrite length_app, length_spec_remainder, length_app.
    unfold py_repeat. rewrite length_replicate. lia.
  - by rewrite take_app_length.
  - by rewrite drop_app_length.
Qed.

Lemma rs_encode_msg_systematic_witness :
  exists gen msg_out,
    rs_generator_poly codec_7_3 4 = Ok gen
    /\ gen !! 0%nat = Some 1 /\ len gen = 4 + 1
    /\ rs_encode_msg codec_7_3 [1; 0; 0] 4 = Ok msg_out
    /\ len msg_out = len [1; 0; 0] + 4
    /\ take (length [1; 0; 0]) msg_out = [1; 0; 0]
    /\ drop (length [1; 0; 0]) msg_out
       = spec_remainder codec_7_3 gen (length [1; 0; 0])
           ([1; 0; 0] ++ py_repeat 0 4).
Proof.
  apply (rs_encode_msg_systematic 7 3 codec_7_3 [1; 0; 0] 4).
  - reflexivity.
  - vm_compute. discriminate.
  - repeat constructor; vm_compute; discriminate.
  - lia.
  - vm_compute. discriminate.
Defined.

(** C3: the encoder breaks the claim over the fields beyond GF(256), which
    [_gf_poly] and the constructor support up to GF(65536) and on which the
    decoder works with plain lists. In [RSCodec(511, 510)], where
    [nsym = 1] and the generator is [[1, 2]], the one-symbol message
    [[128]] satisfies [len(msg_in) + nsym <= n] and has the parity
    [128 * 2 = 256], a symbol of GF(512); the encoder's [bytearray] buffer
    refuses it and [rs_encode_msg] raises [ValueError] instead of returning
    the systematic block [[128, 256]]. *)
Lemma rs_encode_msg_beyond_bytes :
  exists self,
    RSCodec_init 511 510 = Ok self
    /\ Forall (symbol self) [128]
    /\ len [128] + nsym self <= n self
    /\ rs_generator_poly self (nsym self) = Ok [1; 2]
    /\ gf_mul self 2 128 = Ok 256
    /\ encode_block self [128] = Raise byte_error.
Proof.
  eexists. split; [vm_compute; reflexivity|].
  split_and!; try (vm_compute; reflexivity).
  - apply Forall_singleton. vm_compute. split; [discriminate|reflexivity].
  - vm_compute. discriminate.
Qed.

(** * Further properties of the code *)

(** ** Construction *)


(** ** The field *)

(** X2: [gf_mul] is commutative on all integers and for every codec record:
    both orders return the same symbol or raise the same exception. *)
Theorem gf_mul_comm (self : RSCodec) (x y : Z) :
  gf_mul self x y = gf_mul self y x.
Proof.
  unfold gf_mul. rewrite (orb_comm (y =? 0)).
  destruct ((x =? 0) || (y =? 0)); [done|].
  assert (forall l i, py_get l i = Raise IndexError \/ exists v, py_get l i = Ok v)
    as Hget.
  { intros l i. unfold py_get. repeat case_match; eauto. }
  destruct (Hget (gf_log self) x) as [->|[lx ->]];
    destruct (Hget (gf_log self) y) as [->|[ly ->]]; cbn [bind]; try done.
  by rewrite (Z.add_comm lx ly).
Qed.

Section FieldLaws.
Variable self : RSCodec.
Hypothesis Hft : field_tables self.

(** The logarithm of a nonzero symbol, with its table entries. *)
Lemma symbol_log (x : Z) :
  1 <= x < q self ->
  exists lx, 0 <= lx < n self /\ py_get (gf_log self) x = Ok lx
             /\ py_get (gf_exp self) lx = Ok x.
Proof. apply (ft_exp_log _ Hft). Qed.

Lemma gf_exp_mod_inj (i j : Z) (v : Z) :
  0 <= i < n self -> 0 <= j < n self ->
  py_get (gf_exp self) i = Ok v -> py_get (gf_exp self) j = Ok v -> i = j.
Proof.
  intros Hi Hj H1 H2.
  pose proof (ft_log_exp _ Hft i v Hi H1) as L1.
  pose proof (ft_log_exp _ Hft j v Hj H2) as L2. congruence.
Qed.

Lemma gf_mul_1_r (x : Z) : symbol self x -> gf_mul self x 1 = Ok x.
Proof.
  intros Hx. pose proof (ft_n _ Hft) as Hn. unfold symbol in Hx.
  destruct (Z.eq_dec x 0) as [->|Hnz]; [done|].
  destruct (symbol_log x ltac:(lia)) as (lx & Hlx & Hlog & Hexp).
  unfold gf_mul. destruct (Z.eqb_spec x 0); [lia|]. cbn [Z.eqb orb].
  rewrite Hlog. cbn [bind].
  rewrite (ft_log_exp _ Hft 0 1 ltac:(lia) (ft_exp_0 _ Hft)). cbn [bind].
  by rewrite Z.add_0_r.
Qed.

Lemma gf_mul_nonzero (x y : Z) :
  1 <= x < q self -> 1 <= y < q self ->
  exists z, gf_mul self x y = Ok z /\ 1 <= z < q self.
Proof.
  intros Hx Hy.
  destruct (symbol_log x Hx) as (lx & Hlx & _ & Hex).
  destruct (symbol_log y Hy) as (ly & Hly & _ & Hey).
  destruct (gf_mul_log self Hft x y lx ly Hlx Hly Hex Hey) as (z & Hz & Hr & _).
  eauto.
Qed.

Lemma gf_mul_assoc_symbols (x y z : Z) :
  symbol self x -> symbol self y -> symbol self z ->
  exists xy yz r,
    gf_mul self x y = Ok xy /\ gf_mul self y z = Ok yz
    /\ gf_mul self xy z = Ok r /\ gf_mul self x yz = Ok r.
Proof.
  intros Hx Hy Hz. unfold symbol in *.
  pose proof (ft_n _ Hft) as Hn. pose proof (ft_q _ Hft) as Hq.
  assert (forall a, gf_mul self 0 a = Ok 0) as H0l by done.
  assert (forall a, gf_mul self a 0 = Ok 0) as H0r.
  { intros a. unfold gf_mul. by rewrite Z.eqb_refl, orb_true_r. }
  destruct (Z.eq_dec x 0) as [->|Hx0].
  { destruct (gf_mul_symbol self Hft y z Hy Hz) as (yz & Hyz & _).
    exists 0, yz, 0. by rewrite !H0l, Hyz. }
  destruct (Z.eq_dec y 0) as [->|Hy0].
  { exists 0, 0, 0. by rewrite !H0l, !H0r. }
  destruct (Z.eq_dec z 0) as [->|Hz0].
  { destruct (gf_mul_symbol self Hft x y Hx Hy) as (xy & Hxy & _).
    exists xy, 0, 0. by rewrite !H0r, Hxy. }
  destruct (symbol_log x ltac:(lia)) as (lx & Hlx & _ & Hex).
  destruct (symbol_log y ltac:(lia)) as (ly & Hly & _ & Hey).
  destruct (symbol_log z ltac:(lia)) as (lz & Hlz & _ & Hez).
  destruct (gf_mul_log self Hft x y lx ly Hlx Hly Hex Hey)
    as (xy & Hxy & Hxyr & Hxye).
  destruct (gf_mul_log self Hft y z ly lz Hly Hlz Hey Hez)
    as (yz & Hyz & Hyzr & Hyze).
  assert (0 <= (lx + ly) mod n self < n self) as Hm1
    by (apply Z.mod_pos_bound; lia).
  assert (0 <= (ly + lz) mod n self < n self) as Hm2
    by (apply Z.mod_pos_bound; lia).
  destruct (gf_mul_log self Hft xy z _ lz Hm1 Hlz Hxye Hez)
    as (r & Hr & Hrr & Hre).
  destruct (gf_mul_log self Hft x yz lx _ Hlx Hm2 Hex Hyze)
    as (r' & Hr' & Hrr' & Hre').
  exists xy, yz, r. split_and!; [done|done|done|].
  rewrite Hr'. f_equal.
  rewrite Zplus_mod_idemp_l in Hre. rewrite Zplus_mod_idemp_r in Hre'.
  rewrite Z.add_assoc in Hre'. congruence.
Qed.
End FieldLaws.

(** X3: Over every supported field [gf_mul] is associative on symbols. *)
Theorem gf_mul_assoc (n0 k0 : Z) (self : RSCodec) (x y z : Z) :
  RSCodec_init n0 k0 = Ok self ->
  symbol self x -> symbol self y -> symbol self z ->
  exists xy yz r,
    gf_mul self x y = Ok xy /\ gf_mul self y z = Ok yz
    /\ gf_mul self xy z = Ok r /\ gf_mul self x yz = Ok r.
Proof.
  intros Hinit. apply RSCodec_init_inv in Hinit as [Hft _].
  by apply gf_mul_assoc_symbols.
Qed.

Lemma gf_mul_assoc_witness :
  exists xy yz r,
    gf_mul codec_7_3 3 5 = Ok xy /\ gf_mul codec_7_3 5 6 = Ok yz
    /\ gf_mul codec_7_3 xy 6 = Ok r /\ gf_mul codec_7_3 3 yz = Ok r.
Proof.
  apply (gf_mul_assoc 7 3 codec_7_3 3 5 6); [reflexivity|..];
    vm_compute; (split; [discriminate|reflexivity]).
Defined.

(** X4: Over every supported field [1] is the identity of [gf_mul] on
    symbols, and a product of symbols is [0] only if a factor is. *)
Theorem gf_mul_identity_no_zero_divisors
    (n0 k0 : Z) (self : RSCodec) (x y : Z) :
  RSCodec_init n0 k0 = Ok self ->
  symbol self x -> symbol self y ->
  gf_mul self x 1 = Ok x
  /\ (gf_mul self x y = Ok 0 <-> x = 0 \/ y = 0).
Proof.
  intros Hinit Hx Hy. apply RSCodec_init_inv in Hinit as [Hft _].
  split; [by apply gf_mul_1_r|]. unfold symbol in *. split.
  - intros Hz. destruct (Z.eq_dec x 0); [by left|].
    destruct (Z.eq_dec y 0); [by right|].
    destruct (gf_mul_nonzero self Hft x y ltac:(lia) ltac:(lia))
      as (z & Hz' & Hr).
    rewrite Hz in Hz'. injection Hz' as <-. lia.
  - intros [->| ->]; [done|]. unfold gf_mul.
    by rewrite Z.eqb_refl, orb_true_r.
Qed.

Lemma gf_mul_identity_no_zero_divisors_witness :
  gf_mul codec_7_3 6 1 = Ok 6
  /\ (gf_mul codec_7_3 6 0 = Ok 0 <-> 6 = 0 \/ 0 = 0).
Proof.
  apply (gf_mul_identity_no_zero_divisors 7 3 codec_7_3 6 0); [reflexivity|..];
    vm_compute; (split; [discriminate|reflexivity]).
Defined.

Section Division.
Variable self : RSCodec.
Hypothesis Hft : field_tables self.

Lemma gf_div_then_mul (x y : Z) :
  symbol self x -> 1 <= y < q self ->
  exists w, gf_div self x y = Ok w /\ symbol self w /\ gf_mul self w y = Ok x.
Proof.
  intros Hx Hy. unfold symbol in Hx.
  pose proof (ft_n _ Hft) as Hn. pose proof (ft_q _ Hft) as Hq.
  destruct (Z.eq_dec x 0) as [->|Hx0].
  { exists 0. unfold gf_div. destruct (Z.eqb_spec y 0); [lia|].
    split_and!; [done|by apply symbol_0|done]. }
  destruct (symbol_log self Hft x ltac:(lia)) as (lx & Hlx & Hlogx & Hex).
  destruct (symbol_log self Hft y Hy) as (ly & Hly & Hlogy & Hey).
  unfold gf_div. destruct (Z.eqb_spec y 0); [lia|].
  destruct (Z.eqb_spec x 0); [lia|]. rewrite Hlogx, Hlogy. cbn [bind].
  destruct (ft_exp_range _ Hft (lx + n self - ly) ltac:(lia)) as (w & Hw & Hwr).
  exists w. split; [done|]. split; [unfold symbol; lia|].
  assert (py_get (gf_exp self) ((lx + n self - ly) mod n self) = Ok w) as Hw'.
  { destruct (Z.le_gt_cases ly lx).
    - replace ((lx + n self - ly) mod n self) with (lx - ly).
      + rewrite (ft_period _ Hft) in Hw by lia.
        by replace (lx + n self - ly - n self) with (lx - ly) in Hw by lia.
      + replace (lx + n self - ly) with (lx - ly + 1 * n self) by lia.
        rewrite Z.mod_add by lia. by rewrite Z.mod_small by lia.
    - by rewrite Z.mod_small by lia. }
  assert (0 <= (lx + n self - ly) mod n self < n self) as Hm
    by (apply Z.mod_pos_bound; lia).
  destruct (gf_mul_log self Hft w y _ ly Hm Hly Hw' Hey) as (r & Hr & _ & Hre).
  rewrite Hr. f_equal.
  rewrite Zplus_mod_idemp_l in Hre.
  replace (lx + n self - ly + ly) with (lx + 1 * n self) in Hre by lia.
  rewrite Z.mod_add, Z.mod_small in Hre by lia. congruence.
Qed.
End Division.

(** X5: Over every supported field, [gf_div] on symbols raises
    [ZeroDivisionError] exactly when the divisor is [0]; for any other
    divisor it returns a symbol whose product with the divisor is the
    dividend. *)
Theorem gf_div_total_inverse (n0 k0 : Z) (self : RSCodec) (x y : Z) :
  RSCodec_init n0 k0 = Ok self ->
  symbol self x -> symbol self y ->
  (gf_div self x y = Raise ZeroDivisionError <-> y = 0)
  /\ (y <> 0 ->
      exists w, gf_div self x y = Ok w /\ symbol self w
                /\ gf_mul self w y = Ok x).
Proof.
  intros Hinit Hx Hy. apply RSCodec_init_inv in Hinit as [Hft _].
  assert (y <> 0 ->
          exists w, gf_div self x y = Ok w /\ symbol self w
                    /\ gf_mul self w y = Ok x) as Hdiv.
  { intros Hnz. apply gf_div_then_mul; [done|done|]. unfold symbol in Hy. lia. }
  split; [|done]. split.
  - intros Hraise. destruct (Z.eq_dec y 0) as [|Hnz]; [done|].
    destruct (Hdiv Hnz) as (w & Hw & _). congruence.
  - intros ->. done.
Qed.

Lemma gf_div_total_inverse_witness :
  (gf_div codec_7_3 3 5 = Raise ZeroDivisionError <-> 5 = 0)
  /\ (5 <> 0 ->
      exists w, gf_div codec_7_3 3 5 = Ok w /\ symbol codec_7_3 w
                /\ gf_mul codec_7_3 w 5 = Ok 3).
Proof.
  apply (gf_div_total_inverse 7 3 codec_7_3 3 5); [reflexivity|..];
    vm_compute; (split; [discriminate|reflexivity]).
Defined.

(** *** Multiplication distributes over XOR *)

Lemma land_pow2 (x m : Z) :
  0 <= m -> Z.land x (2 ^ m) = if Z.testbit x m then 2 ^ m else 0.
Proof.
  intros Hm. apply Z.bits_inj'. intros i Hi.
  rewrite Z.land_spec, Z.pow2_bits_eqb by lia.
  destruct (Z.eqb_spec m i) as [->|Hne].
  - destruct (Z.testbit x i); cbn.
    + rewrite Z.pow2_bits_eqb by lia. by rewrite Z.eqb_refl.
    + by rewrite Z.bits_0.
  - rewrite andb_false_r. destruct (Z.testbit x m).
    + rewrite Z.pow2_bits_eqb by lia. symmetry. by apply Z.eqb_neq.
    + by rewrite Z.bits_0.
Qed.

Lemma lxor_swap_cancel (a b c : Z) :
  Z.lxor (Z.lxor a c) (Z.lxor b c) = Z.lxor a b.
Proof.
  apply Z.bits_inj'. intros i _. rewrite !Z.lxor_spec.
  by destruct (Z.testbit a i), (Z.testbit b i), (Z.testbit c i).
Qed.

Lemma lxor_swap_l (a b c : Z) :
  Z.lxor (Z.lxor a c) b = Z.lxor (Z.lxor a b) c.
Proof.
  apply Z.bits_inj'. intros i _. rewrite !Z.lxor_spec.
  by destruct (Z.testbit a i), (Z.testbit b i), (Z.testbit c i).
Qed.

(** One round of doubling is linear over XOR when [q] is a power of two. *)
Lemma gf_next_lxor (q poly a b : Z) :
  q = 2 ^ Z.log2 q ->
  gf_next q poly (Z.lxor a b)
  = Z.lxor (gf_next q poly a) (gf_next q poly b).
Proof.
  intros Hq. unfold gf_next. cbv zeta. rewrite Z.shiftl_lxor.
  set (A := Z.shiftl a 1). set (B := Z.shiftl b 1).
  assert (0 < 2 ^ Z.log2 q) as Hpos
    by (apply Z.pow_pos_nonneg; [lia|apply Z.log2_nonneg]).
  rewrite Hq, !land_pow2 by apply Z.log2_nonneg.
  rewrite Z.lxor_spec.
  destruct (Z.testbit A (Z.log2 q)), (Z.testbit B (Z.log2 q)); cbn [xorb];
    repeat match goal with
    | |- context [?v =? 0] =>
        destruct (Z.eqb_spec v 0); try lia
    end.
  - by rewrite lxor_swap_cancel.
  - by rewrite lxor_swap_l.
  - by rewrite Z.lxor_assoc.
Qed.

Lemma gf_next_0 (q poly : Z) : gf_next q poly 0 = 0.
Proof. done. Qed.

Lemma iter_gf_next_lxor (q poly : Z) (j : nat) (a b : Z) :
  q = 2 ^ Z.log2 q ->
  Nat.iter j (gf_next q poly) (Z.lxor a b)
  = Z.lxor (Nat.iter j (gf_next q poly) a) (Nat.iter j (gf_next q poly) b).
Proof.
  intros Hq. induction j as [|j IH]; [done|].
  rewrite !Nat.iter_succ, IH. by apply gf_next_lxor.
Qed.

Lemma iter_gf_next_0 (q poly : Z) (j : nat) :
  Nat.iter j (gf_next q poly) 0 = 0.
Proof. induction j as [|j IH]; [done|]. by rewrite Nat.iter_succ, IH. Qed.

(** Doubling [n] times leads back to [1], for every entry of [_gf_poly]. *)
Lemma supported_period (q poly : Z) :
  _gf_poly !! q = Some poly -> alpha_pow q poly (q - 1) = 1.
Proof.
  intros H. apply elem_of_list_to_map_2 in H.
  repeat (apply elem_of_cons in H as [[= -> ->]|H]; [by vm_compute|]).
  by apply elem_of_nil in H.
Qed.

(** The tables of a codec in terms of the powers of the generator. *)
Lemma RSCodec_init_powers (n0 k0 : Z) (self : RSCodec) :
  RSCodec_init n0 k0 = Ok self ->
  exists poly,
    tables_check (n self) (q self) poly = true
    /\ alpha_pow (q self) poly (n self) = 1
    /\ (forall i, 0 <= i < 2 * q self ->
          py_get (gf_exp self) i
          = Ok (alpha_pow (q self) poly (i mod n self)))
    /\ (forall j, 0 <= j < n self ->
          py_get (gf_log self) (alpha_pow (q self) poly j) = Ok j).
Proof.
  intros Hinit.
  destruct (_gf_poly !! (n0 + 1)) as [poly|] eqn:Hpoly.
  2:{ unfold RSCodec_init, calc_gf_elements in Hinit. rewrite Hpoly in Hinit.
      by destruct (py_alloc 1 _), (py_alloc 0 _). }
  pose proof (supported_size _ _ Hpoly) as Hsize.
  pose proof sys_maxsize_large as Hmax.
  pose proof (supported_tables_check _ _ Hpoly) as Hcheck.
  pose proof (supported_period _ _ Hpoly) as Hper.
  replace (n0 + 1 - 1) with n0 in Hcheck, Hper by lia.
  pose proof (check_n _ _ _ Hcheck) as Hn.
  destruct (calc_gf_elements_loop1 _ _ _ Hcheck)
    as (e & l & Hrun1 & He & Hl & Hexp & Hlog).
  destruct (calc_gf_elements_loop2 _ _ _ Hcheck e He Hexp)
    as (e' & Hrun2 & He' & Hper2).
  assert (self = mkRSCodec n0 k0 (n0 + 1) (n0 - k0) e' l) as ->.
  { revert Hinit. unfold RSCodec_init, calc_gf_elements.
    rewrite !py_alloc_fits by lia. rewrite Hpoly.
    cbn [bind] in Hrun1, Hrun2 |- *. rewrite Hrun1. cbn [bind].
    rewrite Hrun2. cbn [bind]. by intros [= <-]. }
  exists poly. cbn [n q gf_exp gf_log]. split_and!; [done|done| |].
  - intros i Hi. apply py_get_lookup; [lia|]. by apply Hper2.
  - intros j Hj. pose proof (pw_range _ _ _ Hcheck j Hj).
    apply py_get_lookup; [lia|]. by apply Hlog.
Qed.

Section Distributivity.
Variable self : RSCodec.
Variable poly : Z.
Hypothesis Hft : field_tables self.
Hypothesis Hperiod : alpha_pow (q self) poly (n self) = 1.
Hypothesis Hexp : forall i, 0 <= i < 2 * q self ->
  py_get (gf_exp self) i = Ok (alpha_pow (q self) poly (i mod n self)).

Local Abbreviation pw := (alpha_pow (q self) poly).
Local Abbreviation next := (gf_next (q self) poly).

Lemma alpha_pow_add (i j : Z) :
  0 <= i -> 0 <= j -> pw (i + j) = Nat.iter (Z.to_nat i) next (pw j).
Proof.
  intros Hi Hj. unfold alpha_pow.
  rewrite Z2Nat.inj_add by lia. apply Nat.iter_add.
Qed.

Lemma alpha_pow_mod (i : Z) : 0 <= i < 2 * n self -> pw (i mod n self) = pw i.
Proof.
  intros Hi. pose proof (ft_n _ Hft) as Hn.
  destruct (Z.lt_ge_cases i (n self)) as [Hlt|Hge].
  - by rewrite Z.mod_small by lia.
  - replace (i mod n self) with (i - n self).
    + replace i with (i - n self + n self) at 2 by lia.
      rewrite alpha_pow_add by lia. rewrite Hperiod.
      unfold alpha_pow. done.
    + replace i with (i - n self + 1 * n self) at 2 by lia.
      rewrite Z.mod_add by lia. by rewrite Z.mod_small by lia.
Qed.

Lemma symbol_is_power (x lx : Z) :
  0 <= lx < n self -> py_get (gf_exp self) lx = Ok x -> x = pw lx.
Proof.
  intros Hlx Hx. pose proof (ft_q _ Hft) as Hq.
  rewrite Hexp in Hx by lia. rewrite Z.mod_small in Hx by lia. congruence.
Qed.

(** Multiplying by a nonzero symbol doubles its logarithm many times. *)
Lemma gf_mul_iter (x y lx : Z) :
  1 <= x < q self -> symbol self y -> py_get (gf_log self) x = Ok lx ->
  gf_mul self x y = Ok (Nat.iter (Z.to_nat lx) next y).
Proof.
  intros Hx Hy Hlog. unfold symbol in Hy.
  pose proof (ft_n _ Hft) as Hn. pose proof (ft_q _ Hft) as Hq.
  destruct (symbol_log self Hft x Hx) as (lx' & Hlx & Hlog' & Hex).
  assert (lx' = lx) as -> by congruence.
  destruct (Z.eq_dec y 0) as [->|Hy0].
  { rewrite iter_gf_next_0. unfold gf_mul.
    by rewrite Z.eqb_refl, orb_true_r. }
  destruct (symbol_log self Hft y ltac:(lia)) as (ly & Hly & _ & Hey).
  destruct (gf_mul_log self Hft x y lx ly Hlx Hly Hex Hey)
    as (z & Hz & _ & Hze).
  rewrite Hz. f_equal.
  assert (0 <= (lx + ly) mod n self < n self) as Hm
    by (apply Z.mod_pos_bound; lia).
  rewrite (symbol_is_power z _ Hm Hze), alpha_pow_mod by lia.
  rewrite alpha_pow_add by lia.
  by rewrite <- (symbol_is_power y ly Hly Hey).
Qed.

Lemma gf_mul_lxor_symbols (x y z : Z) :
  symbol self x -> symbol self y -> symbol self z ->
  exists a b,
    gf_mul self x y = Ok a /\ gf_mul self x z = Ok b
    /\ gf_mul self x (Z.lxor y z) = Ok (Z.lxor a b).
Proof.
  intros Hx Hy Hz. unfold symbol in Hx.
  destruct (Z.eq_dec x 0) as [->|Hx0].
  { exists 0, 0. by split_and!. }
  destruct (symbol_log self Hft x ltac:(lia)) as (lx & _ & Hlog & _).
  do 2 eexists. split_and!.
  - apply (gf_mul_iter x y lx); [lia|done|done].
  - apply (gf_mul_iter x z lx); [lia|done|done].
  - rewrite (gf_mul_iter x (Z.lxor y z) lx);
      [|lia|by apply symbol_lxor|done].
    f_equal. apply iter_gf_next_lxor, (ft_pow2 _ Hft).
Qed.
End Distributivity.

(** X6: Over every supported field [gf_mul] distributes over XOR, the
    addition of the field, on symbols. *)
Theorem gf_mul_lxor_distr (n0 k0 : Z) (self : RSCodec) (x y z : Z) :
  RSCodec_init n0 k0 = Ok self ->
  symbol self x -> symbol self y -> symbol self z ->
  exists a b,
    gf_mul self x y = Ok a /\ gf_mul self x z = Ok b
    /\ gf_mul self x (Z.lxor y z) = Ok (Z.lxor a b).
Proof.
  intros Hinit. pose proof Hinit as [Hft _]%RSCodec_init_inv.
  destruct (RSCodec_init_powers _ _ _ Hinit) as (poly & _ & Hper & Hexp & _).
  by apply (gf_mul_lxor_symbols self poly).
Qed.

Lemma gf_mul_lxor_distr_witness :
  exists a b,
    gf_mul codec_7_3 3 5 = Ok a /\ gf_mul codec_7_3 3 6 = Ok b
    /\ gf_mul codec_7_3 3 (Z.lxor 5 6) = Ok (Z.lxor a b).
Proof.
  apply (gf_mul_lxor_distr 7 3 codec_7_3 3 5 6); [reflexivity|..];
    vm_compute; (split; [discriminate|reflexivity]).
Defined.

(** ** The decoder *)

Lemma for_app {S} (l1 l2 : list Z) (s : S) (body : Z -> S -> result S) :
  for_ (l1 ++ l2) s body = (s' <- for_ l1 s body ;; for_ l2 s' body).
Proof.
  revert s. induction l1 as [|i l1 IH]; intros s; cbn; [done|].
  destruct (body i s); cbn; [apply IH|done].
Qed.

(** A loop whose body either keeps the invariant or raises an exception of
    the class [E] does the same as a whole. *)
Lemma for_range_total_or {S} (E : exn -> Prop) (P : Z -> S -> Prop)
    (body : Z -> S -> result S) (a b : Z) (s : S) :
  a <= b -> P a s ->
  (forall i s, a <= i < b -> P i s ->
     (exists s', body i s = Ok s' /\ P (i + 1) s')
     \/ (exists e, body i s = Raise e /\ E e)) ->
  (exists s', for_ (py_range a b) s body = Ok s' /\ P b s')
  \/ (exists e, for_ (py_range a b) s body = Raise e /\ E e).
Proof.
  intros Hab. remember (Z.to_nat (b - a)) as d eqn:Hd.
  revert a s Hab Hd. induction d as [|d IH]; intros a s Hab Hd Hs Hbody.
  - assert (a = b) as -> by lia. rewrite py_range_nil by lia. eauto.
  - rewrite py_range_cons by lia. cbn.
    destruct (Hbody a s) as [(s' & -> & Hs')|(e & -> & He)]; [lia|done| |].
    + cbn. apply IH; [lia|lia|done|]. intros i s0 Hi. apply Hbody. lia.
    + right. eauto.
Qed.

Lemma mapM_Ok_length {A B} (f : A -> result B) (l : list A) (bs : list B) :
  mapM f l = Ok bs -> length bs = length l.
Proof. intros H%mapM_Ok_inv. symmetry. by eapply Forall2_length. Qed.

Lemma len_zero_erasures (msg : list Z) : len (zero_erasures msg) = len msg.
Proof. unfold len, zero_erasures. by rewrite length_fmap. Qed.

Lemma len_py_slice_strip {A} (l : list A) (m : Z) :
  1 <= m -> len (py_slice l 0 (- m)) = Z.max 0 (len l - m).
Proof.
  intros Hm. rewrite py_slice_strip by done. unfold len.
  rewrite length_take. lia.
Qed.

Lemma rs_correct_errata_len (self : RSCodec) (msg synd pos msg' : list Z) :
  rs_correct_errata self msg synd pos = Ok msg' -> len msg' = len msg.
Proof.
  intros H. unfold rs_correct_errata in H. cbv zeta in H.
  apply bind_Ok_inv in H as (q1 & _ & H).
  apply bind_Ok_inv in H as (p1 & _ & H).
  revert H.
  apply (for_range_partial (fun _ m => len m = len msg));
    [apply len_nonneg|done|].
  intros i m m' _ Hm Hbody.
  repeat (apply bind_Ok_inv in Hbody as (? & ? & Hbody)).
  apply py_set_Ok_len in Hbody. lia.
Qed.

Lemma py_max_Ok_nonempty (l : list Z) (mx : Z) : py_max l = Ok mx -> l <> [].
Proof. by destruct l. Qed.

Lemma rs_calc_syndromes_len (self : RSCodec) (msg synd : list Z) (nsym0 : Z) :
  rs_calc_syndromes self msg nsym0 = Ok synd -> len synd = Z.max 0 nsym0.
Proof.
  intros H%mapM_Ok_length. pose proof (len_py_range 0 nsym0) as Hr.
  unfold len in *. lia.
Qed.

(** X15: Whenever the decoder returns, the block was at most [n] long with
    at most [nsym] erasures, [nsym] is positive, and the result is [nsym]
    symbols shorter than the block (empty when the block has no more than
    [nsym] symbols): for every codec record, block and [nsym]. *)
Theorem rs_correct_msg_Ok_length
    (self : RSCodec) (msg_in out : list Z) (nsym0 : Z) :
  rs_correct_msg self msg_in nsym0 = Ok out ->
  len msg_in <= n self /\ 1 <= nsym0
  /\ len (erasure_positions msg_in) <= nsym0
  /\ len out = Z.max 0 (len msg_in - nsym0).
Proof.
  unfold rs_correct_msg.
  destruct (Z.gtb_spec (len msg_in) (n self)) as [|Hlen]; [done|].
  rewrite find_erasures_scan. cbn [bind].
  destruct (Z.gtb_spec (len (erasure_positions msg_in)) nsym0) as [|Hera];
    [done|].
  intros H. apply bind_Ok_inv in H as (synd & Hsynd & H).
  apply bind_Ok_inv in H as (mx & Hmx & H).
  assert (1 <= nsym0) as Hnsym.
  { apply py_max_Ok_nonempty in Hmx. apply rs_calc_syndromes_len in Hsynd.
    destruct synd; [done|]. unfold len in Hsynd. cbn in Hsynd. lia. }
  split_and!; [done|done|done|].
  destruct (mx =? 0).
  - injection H as <-. by rewrite len_py_slice_strip, len_zero_erasures.
  - apply bind_Ok_inv in H as (fsynd & _ & H).
    apply bind_Ok_inv in H as ([err_pos|] & _ & H); [|done].
    apply bind_Ok_inv in H as (msg' & Hmsg' & H).
    apply bind_Ok_inv in H as (synd' & _ & H).
    apply bind_Ok_inv in H as (mx' & _ & H).
    destruct (mx' >? 0); [done|]. injection H as <-.
    apply rs_correct_errata_len in Hmsg'.
    rewrite len_py_slice_strip, Hmsg', len_zero_erasures; done.
Qed.

Lemma rs_correct_msg_Ok_length_witness :
  len [0; 5; 0; 0; 0; 0; 0] <= n codec_7_3 /\ 1 <= 4
  /\ len (erasure_positions [0; 5; 0; 0; 0; 0; 0]) <= 4
  /\ len [0; 0; 0] = Z.max 0 (len [0; 5; 0; 0; 0; 0; 0] - 4).
Proof.
  apply (rs_correct_msg_Ok_length codec_7_3 [0; 5; 0; 0; 0; 0; 0] [0; 0; 0] 4).
  reflexivity.
Defined.

Lemma py_range_app (a b c : Z) :
  a <= b <= c -> py_range a c = py_range a b ++ py_range b c.
Proof.
  intros H. unfold py_range.
  replace (c - a) with ((b - a) + (c - b)) by lia.
  rewrite seqZ_app by lia. do 2 f_equal. lia.
Qed.

Lemma py_pop_Forall (P : Z -> Prop) (l : list Z) :
  Forall P l -> l <> [] ->
  exists l', py_pop l = Ok l' /\ Forall P l' /\ len l' = len l - 1.
Proof.
  intros Hl Hne. destruct l as [|a l]; [done|].
  exists (removelast (a :: l)). split; [done|].
  rewrite removelast_firstn_len. split; [by apply Forall_take|].
  unfold len. rewrite length_take. cbn [length]. lia.
Qed.

Section Forney.
Variable self : RSCodec.
Hypothesis Hft : field_tables self.

Local Abbreviation symbols := (Forall (symbol self)).

(** The first [m] rounds of the Forney transform, one syndrome shorter
    each. *)
Lemma rs_forney_syndromes_prefix (synd pos : list Z) (nmess m : Z) :
  symbols synd -> Forall (fun p => 0 <= p < nmess) pos ->
  nmess <= 2 * q self ->
  0 <= m <= len pos -> m <= len synd ->
  exists fsynd,
    for_ (py_range 0 m) synd (fun i fsynd =>
      pi <- py_get pos i ;;
      x <- py_get (gf_exp self) (nmess - 1 - pi) ;;
      fsynd <- for_ (py_range 0 (len fsynd - 1)) fsynd (fun i fsynd =>
                 a <- py_get fsynd i ;;
                 m <- gf_mul self a x ;;
                 b <- py_get fsynd (i + 1) ;;
                 py_set fsynd i (Z.lxor m b)) ;;
      py_pop fsynd)
    = Ok fsynd
    /\ symbols fsynd /\ len fsynd = len synd - m.
Proof.
  intros Hsynd Hpos Hnmess Hm Hms.
  set (Inv := fun (i : Z) (f : list Z) => symbols f /\ len f = len synd - i).
  match goal with
  | |- context [for_ _ ?s ?body] =>
      destruct (for_range_total Inv body 0 m s) as (f & -> & Hf)
  end.
  - lia.
  - split; [done|lia].
  - intros i f Hi [Hfs Hfl].
    destruct (py_get_Forall _ pos i Hpos ltac:(lia)) as (p & -> & Hp).
    cbn [bind].
    destruct (ft_exp_range _ Hft (nmess - 1 - p) ltac:(lia))
      as (x & -> & Hx). cbn [bind].
    assert (symbol self x) as Hxs by (unfold symbol; lia).
    match goal with
    | |- context [for_ (py_range 0 (len f - 1)) ?s ?body] =>
        destruct (for_range_total
                    (fun _ g => symbols g /\ len g = len f) body
                    0 (len f - 1) s) as (g & -> & Hgs & Hgl)
    end.
    + lia.
    + done.
    + intros j g Hj [Hgs Hgl].
      destruct (py_get_Forall _ g j Hgs ltac:(lia)) as (a & -> & Ha).
      cbn [bind].
      destruct (gf_mul_symbol self Hft a x Ha Hxs) as (w & -> & Hw).
      cbn [bind].
      destruct (py_get_Forall _ g (j + 1) Hgs ltac:(lia)) as (b & -> & Hb).
      cbn [bind].
      destruct (py_set_Forall _ g j (Z.lxor w b) Hgs) as (g' & -> & Hl' & Hs');
        [by apply symbol_lxor|lia|].
      exists g'. split; [done|]. split; [done|lia].
    + cbn [bind].
      destruct (py_pop_Forall _ g Hgs) as (g' & -> & Hs' & Hl').
      { intros ->. change (len (@nil Z)) with 0 in Hgl. lia. }
      exists g'. split; [done|]. split; [done|lia].
  - exists f. destruct Hf. by split_and!.
Qed.

Lemma rs_forney_syndromes_total (synd pos : list Z) (nmess : Z) :
  symbols synd -> Forall (fun p => 0 <= p < nmess) pos ->
  nmess <= 2 * q self -> len pos <= len synd ->
  exists fsynd,
    rs_forney_syndromes self synd pos nmess = Ok fsynd
    /\ symbols fsynd /\ len fsynd = len synd - len pos.
Proof.
  intros Hsynd Hpos Hnmess Hlen. unfold rs_forney_syndromes.
  apply rs_forney_syndromes_prefix; try done.
  pose proof (len_nonneg pos). lia.
Qed.

Lemma rs_forney_syndromes_IndexError (synd pos : list Z) (nmess : Z) :
  symbols synd -> Forall (fun p => 0 <= p < nmess) pos ->
  nmess <= 2 * q self -> len synd < len pos ->
  rs_forney_syndromes self synd pos nmess = Raise IndexError.
Proof.
  intros Hsynd Hpos Hnmess Hlen. unfold rs_forney_syndromes.
  pose proof (len_nonneg synd) as Hs.
  rewrite (py_range_app 0 (len synd) (len pos)) by lia. rewrite for_app.
  destruct (rs_forney_syndromes_prefix synd pos nmess (len synd))
    as (f & Hrun & _ & Hfl); try done; try lia.
  cbn [bind] in Hrun |- *. rewrite Hrun. cbn [bind].
  assert (f = []) as -> by (destruct f; [done|unfold len in Hfl; cbn in Hfl; lia]).
  rewrite py_range_cons by lia. cbn [for_].
  destruct (py_get_Forall _ pos (len synd) Hpos ltac:(lia)) as (p & -> & Hp).
  cbn [bind].
  destruct (ft_exp_range _ Hft (nmess - 1 - p) ltac:(lia)) as (x & -> & Hx).
  done.
Qed.
End Forney.

(** X17: The Forney transform over every supported field: on syndromes that
    are symbols and positions inside a block of [nmess <= n] symbols, it
    returns a sequence of symbols one shorter per position when there are no
    more positions than syndromes, and raises [IndexError] (a [pop] from the
    empty list) when there are more. *)
Theorem rs_forney_syndromes_shrinks
    (n0 k0 : Z) (self : RSCodec) (synd pos : list Z) (nmess : Z) :
  RSCodec_init n0 k0 = Ok self ->
  Forall (symbol self) synd ->
  Forall (fun p => 0 <= p < nmess) pos ->
  nmess <= n self ->
  (len pos <= len synd ->
   exists fsynd,
     rs_forney_syndromes self synd pos nmess = Ok fsynd
     /\ Forall (symbol self) fsynd /\ len fsynd = len synd - len pos)
  /\ (len synd < len pos ->
      rs_forney_syndromes self synd pos nmess = Raise IndexError).
Proof.
  intros Hinit Hsynd Hpos Hnmess.
  apply RSCodec_init_inv in Hinit as [Hft _].
  pose proof (ft_q _ Hft). pose proof (ft_n _ Hft).
  split; intros Hlen.
  - apply rs_forney_syndromes_total; (done || lia).
  - apply rs_forney_syndromes_IndexError; (done || lia).
Qed.

Lemma rs_forney_syndromes_shrinks_witness :
  (len [2; 3] <= len [0; 7; 3; 1] ->
   exists fsynd,
     rs_forney_syndromes codec_7_3 [0; 7; 3; 1] [2; 3] 4 = Ok fsynd
     /\ Forall (symbol codec_7_3) fsynd
     /\ len fsynd = len [0; 7; 3; 1] - len [2; 3])
  /\ (len [0; 7; 3; 1] < len [2; 3] ->
      rs_forney_syndromes codec_7_3 [0; 7; 3; 1] [2; 3] 4 = Raise IndexError).
Proof.
  apply (rs_forney_syndromes_shrinks 7 3 codec_7_3 [0; 7; 3; 1] [2; 3] 4).
  - reflexivity.
  - repeat constructor; vm_compute; discriminate.
  - repeat constructor; vm_compute; discriminate.
  - vm_compute. discriminate.
Defined.

(** The root search of [rs_find_errors] returns, without repetition, the
    positions of the block at which the locator vanishes. *)
Lemma root_search_positions
    (self : RSCodec) (err_poly : list Z) (nmess : Z) (err_pos : list Z) :
  for_ (py_range 0 nmess) [] (fun i err_pos =>
    e <- py_get (gf_exp self) (n self - i) ;;
    v <- gf_poly_eval self err_poly e ;;
    if v =? 0 then Ok (err_pos ++ [nmess - 1 - i]) else Ok err_pos)
  = Ok err_pos ->
  NoDup err_pos
  /\ forall p,
       p ∈ err_pos
       <-> 0 <= p < nmess
           /\ exists e,
                py_get (gf_exp self) (n self - (nmess - 1 - p)) = Ok e
                /\ gf_poly_eval self err_poly e = Ok 0.
Proof.
  destruct (Z.le_gt_cases 0 nmess) as [Hn|Hn].
  2:{ rewrite py_range_nil by lia. intros [= <-]. split; [constructor|].
      intros p. split; [by intros ?%elem_of_nil|lia]. }
  set (root := fun p => exists e,
         py_get (gf_exp self) (n self - (nmess - 1 - p)) = Ok e
         /\ gf_poly_eval self err_poly e = Ok 0).
  intros Hrun.
  enough (NoDup err_pos
          /\ forall p, p ∈ err_pos <-> nmess - nmess <= p < nmess /\ root p)
    as [Hnd Hiff].
  { split; [done|]. intros p. rewrite Hiff. rewrite Z.sub_diag. done. }
  revert Hrun.
  apply (for_range_partial
           (fun i pos => NoDup pos
              /\ forall p, p ∈ pos <-> nmess - i <= p < nmess /\ root p));
    [done| |].
  { split; [constructor|]. intros p.
    split; [by intros ?%elem_of_nil|lia]. }
  intros i pos pos' Hi [Hnd Hiff] Hbody.
  apply bind_Ok_inv in Hbody as (e & He & Hbody).
  apply bind_Ok_inv in Hbody as (v & Hv & Hbody).
  assert (n self - (nmess - 1 - (nmess - 1 - i)) = n self - i) as Hidx by lia.
  destruct (Z.eqb_spec v 0) as [->|Hnz]; injection Hbody as <-.
  - split.
    + apply NoDup_app. split_and!; [done| |apply NoDup_singleton].
      intros p Hp%Hiff ->%list_elem_of_singleton. lia.
    + intros p. rewrite elem_of_app, list_elem_of_singleton, Hiff. split.
      * intros [[Hr Hroot]| ->]; [split; [lia|done]|].
        split; [lia|]. exists e. by rewrite Hidx.
      * intros [Hr Hroot].
        destruct (Z.eq_dec p (nmess - 1 - i)); [by right|left].
        split; [lia|done].
  - split; [done|]. intros p. rewrite Hiff. split.
    + intros [Hr Hroot]. split; [lia|done].
    + intros [Hr Hroot]. split; [|done].
      destruct (Z.eq_dec p (nmess - 1 - i)) as [->|]; [|lia].
      destruct Hroot as (e' & He' & Hv'). rewrite Hidx in He'. congruence.
Qed.

(** X18: Every list of positions [rs_find_errors] returns holds, without
    repetition, exactly the positions [p] of the block at which the locator
    of the Berlekamp-Massey loop vanishes (at [gf_exp[n - (nmess - 1 -
    p)]]): for every codec record. *)
Theorem rs_find_errors_roots
    (self : RSCodec) (synd : list Z) (nmess : Z) (err_pos : list Z) :
  rs_find_errors self synd nmess = Ok (Some err_pos) ->
  exists err_poly old_poly,
    rs_find_errors_loop self synd = Ok (err_poly, old_poly)
    /\ NoDup err_pos
    /\ forall p,
         p ∈ err_pos
         <-> 0 <= p < nmess
             /\ exists e,
                  py_get (gf_exp self) (n self - (nmess - 1 - p)) = Ok e
                  /\ gf_poly_eval self err_poly e = Ok 0.
Proof.
  unfold rs_find_errors. intros H.
  apply bind_Ok_inv in H as ([err_poly old_poly] & Hloop & H).
  exists err_poly, old_poly. split; [done|].
  destruct (_ >? len synd); [done|].
  apply bind_Ok_inv in H as (pos & Hpos & H).
  destruct (negb _); [done|]. injection H as <-.
  by apply root_search_positions.
Qed.

Lemma rs_find_errors_roots_witness :
  exists err_poly old_poly,
    rs_find_errors_loop codec_7_3 [5; 6; 4; 1] = Ok (err_poly, old_poly)
    /\ NoDup [1]
    /\ forall p,
         p ∈ [1]
         <-> 0 <= p < 7
             /\ exists e,
                  py_get (gf_exp codec_7_3) (n codec_7_3 - (7 - 1 - p)) = Ok e
                  /\ gf_poly_eval codec_7_3 err_poly e = Ok 0.
Proof.
  apply (rs_find_errors_roots codec_7_3 [5; 6; 4; 1] 7 [1]). reflexivity.
Defined.

Lemma Forall_py_slice {A} (P : A -> Prop) (l : list A) (a b : Z) :
  Forall P l -> Forall P (py_slice l a b).
Proof. intros H. unfold py_slice. by apply Forall_take, Forall_drop. Qed.

Lemma len_py_slice {A} (l : list A) (a b : Z) :
  0 <= a <= b -> b <= len l -> len (py_slice l a b) = b - a.
Proof.
  intros Hab Hb. unfold py_slice, py_bound, len in *.
  destruct (Z.ltb_spec a 0); [lia|]. destruct (Z.ltb_spec b 0); [lia|].
  rewrite length_take, length_drop. lia.
Qed.

Lemma every_other_Forall {A} (P : A -> Prop) (l : list A) :
  Forall P l -> Forall P (every_other l).
Proof.
  enough (forall l, Forall P l ->
            Forall P (every_other l)
            /\ forall a, P a -> Forall P (every_other (a :: l))) as H
    by (intros Hl; by apply H).
  clear l. induction l as [|x l IH]; intros Hl.
  - split; [done|]. intros a Ha. by constructor.
  - apply Forall_cons in Hl as [Hx Hl]. destruct (IH Hl) as [IH1 IH2].
    split; [by apply IH2|]. intros a Ha. cbn. by constructor.
Qed.

Lemma every_other_nonempty {A} (l : list A) : l <> [] -> every_other l <> [].
Proof. by destruct l as [|x [|y l]]. Qed.

Lemma land_1_cases (m : Z) : Z.land m 1 = 0 \/ Z.land m 1 = 1.
Proof.
  assert (Z.land m 1 = m mod 2) as ->.
  { change 1 with (Z.ones 1). by rewrite Z.land_ones by lia. }
  pose proof (Z.mod_pos_bound m 2 ltac:(lia)). lia.
Qed.

Lemma nonempty_len {A} (l : list A) : 1 <= len l -> l <> [].
Proof. intros H ->. by cbn in H. Qed.

Section DecoderSteps.
Variable self : RSCodec.
Hypothesis Hft : field_tables self.

Local Abbreviation symbols := (Forall (symbol self)).

Lemma root_search_total (err_poly : list Z) (nmess : Z) :
  symbols err_poly -> err_poly <> [] -> 0 <= nmess <= n self ->
  exists err_pos,
    for_ (py_range 0 nmess) [] (fun i err_pos =>
      e <- py_get (gf_exp self) (n self - i) ;;
      v <- gf_poly_eval self err_poly e ;;
      if v =? 0 then Ok (err_pos ++ [nmess - 1 - i]) else Ok err_pos)
    = Ok err_pos.
Proof.
  intros Hp Hne Hn. pose proof (ft_q _ Hft) as Hq.
  match goal with
  | |- context [for_ _ ?s ?body] =>
      destruct (for_range_total (fun _ _ => True) body 0 nmess s)
        as (pos & Hrun & _)
  end; [lia|done| |by exists pos].
  intros i pos Hi _.
  destruct (ft_exp_range _ Hft (n self - i) ltac:(lia)) as (e & -> & He).
  cbn [bind].
  destruct (gf_poly_eval_total self Hft err_poly e Hp Hne) as (v & -> & _).
  { unfold symbol. lia. }
  cbn [bind]. destruct (v =? 0); eauto.
Qed.

(** The three outcomes of [rs_find_errors] on syndromes that are symbols. *)
Lemma rs_find_errors_outcome (synd : list Z) (nmess : Z) :
  symbols synd -> 0 <= nmess <= n self ->
  rs_find_errors self synd nmess = Raise too_many_errors
  \/ rs_find_errors self synd nmess = Ok None
  \/ exists err_pos,
       rs_find_errors self synd nmess = Ok (Some err_pos)
       /\ Forall (fun p => 0 <= p < nmess) err_pos.
Proof.
  intros Hsynd Hn.
  destruct (rs_find_errors_loop_total self Hft synd Hsynd)
    as (err_poly & old_poly & Hloop & Hsym & Hlen).
  destruct (root_search_total err_poly nmess Hsym) as (pos & Hpos);
    [apply nonempty_len; lia|done|].
  pose proof (root_search_positions self err_poly nmess pos Hpos)
    as [_ Hiff].
  unfold rs_find_errors. rewrite Hloop. cbn [bind].
  destruct (_ >? len synd); [by left|]. right.
  rewrite Hpos. cbn [bind]. destruct (negb _); [by left|]. right.
  exists pos. split; [done|]. apply Forall_forall. intros p Hp%Hiff. tauto.
Qed.
End DecoderSteps.

Section Errata.
Variable self : RSCodec.
Hypothesis Hft : field_tables self.

Local Abbreviation symbols := (Forall (symbol self)).

(** On positions inside a block of symbols the corrector returns a block
    of symbols of the same length or divides by zero. *)
Lemma rs_correct_errata_outcome (msg synd pos : list Z) :
  symbols msg -> symbols synd ->
  Forall (fun p => 0 <= p < len msg) pos -> len msg <= n self ->
  (exists msg', rs_correct_errata self msg synd pos = Ok msg'
                /\ symbols msg' /\ len msg' = len msg)
  \/ rs_correct_errata self msg synd pos = Raise ZeroDivisionError.
Proof.
  intros Hmsg Hsynd Hpos Hlen.
  pose proof (ft_q _ Hft) as Hq. pose proof (ft_n _ Hft) as Hn.
  pose proof (len_nonneg pos) as Hpl.
  unfold rs_correct_errata. cbv zeta.
  match goal with
  | |- context [for_ (py_range 0 (len pos)) [1] ?body] =>
      destruct (for_range_total
                  (fun i q1 => symbols q1 /\ len q1 = i + 1) body
                  0 (len pos) [1]) as (q1 & -> & Hq1s & Hq1l)
  end.
  { done. }
  { split; [by apply Forall_singleton, symbol_1|done]. }
  { intros i q0 Hi [Hq0s Hq0l].
    destruct (py_get_Forall _ pos i Hpos Hi) as (p & -> & Hp). cbn [bind].
    destruct (ft_exp_range _ Hft (len msg - 1 - p) ltac:(lia))
      as (x & -> & Hx). cbn [bind].
    destruct (gf_poly_mul_total self Hft q0 [x; 1] Hq0s)
      as (r & -> & Hrl & Hrs).
    { apply Forall_cons. split; [unfold symbol; lia|].
      by apply Forall_singleton, symbol_1. }
    exists r. split; [done|]. split; [done|].
    change (len [x; 1]) with 2 in Hrl. lia. }
  cbn [bind].
  set (p1 := rev (py_slice synd 0 (len pos))).
  assert (symbols p1) as Hp1s by (by apply Forall_rev, Forall_py_slice).
  pose proof (len_nonneg p1) as Hp1l.
  destruct (gf_poly_mul_total self Hft p1 q1 Hp1s Hq1s)
    as (p2 & -> & Hp2l & Hp2s). cbn [bind].
  set (p3 := py_slice p2 (len p2 - len pos) (len p2)).
  set (q3 := py_slice2 q1 (Z.land (len q1) 1) (len q1)).
  assert (symbols p3) as Hp3s by (by apply Forall_py_slice).
  assert (symbols q3) as Hq3s
    by (by apply every_other_Forall, Forall_py_slice).
  match goal with
  | |- context [for_ (py_range 0 (len pos)) msg ?body] =>
      destruct (for_range_total_or (fun e => e = ZeroDivisionError)
                  (fun _ m => symbols m /\ len m = len msg) body
                  0 (len pos) msg) as [(m & -> & Hms & Hml)|(e & -> & ->)]
  end.
  { done. }
  { done. }
  { intros i m Hi [Hms Hml].
    assert (p3 <> []) as Hp3ne.
    { apply nonempty_len. unfold p3. rewrite len_py_slice; lia. }
    assert (q3 <> []) as Hq3ne.
    { apply every_other_nonempty, nonempty_len.
      destruct (land_1_cases (len q1)) as [Hl|Hl]; rewrite Hl;
        rewrite len_py_slice; lia. }
    destruct (py_get_Forall _ pos i Hpos Hi) as (p & Hpi & Hp).
    rewrite Hpi. cbn [bind].
    destruct (ft_exp_range _ Hft (p + q self - len m) ltac:(lia))
      as (x & -> & Hx). cbn [bind].
    assert (symbol self x) as Hxs by (unfold symbol; lia).
    destruct (gf_poly_eval_total self Hft p3 x Hp3s Hp3ne Hxs)
      as (y & -> & Hy). cbn [bind].
    destruct (gf_mul_symbol self Hft x x Hxs Hxs) as (xx & -> & Hxx).
    cbn [bind].
    destruct (gf_poly_eval_total self Hft q3 xx Hq3s Hq3ne Hxx)
      as (z & -> & Hz). cbn [bind].
    destruct (py_get_Forall _ m p Hms ltac:(lia)) as (old & -> & Hold).
    cbn [bind].
    destruct (gf_mul_symbol self Hft x z Hxs Hz) as (xz & -> & Hxz).
    cbn [bind].
    destruct (Z.eq_dec xz 0) as [->|Hnz].
    { right. exists ZeroDivisionError. by split. }
    destruct (gf_div_symbol self Hft y xz Hy) as (d & -> & Hd).
    { unfold symbol in Hxz. lia. }
    cbn [bind].
    destruct (py_set_Forall _ m p (Z.lxor old d) Hms) as (m' & -> & Hl' & Hs');
      [by apply symbol_lxor|lia|].
    left. exists m'. split; [done|]. split; [done|lia]. }
  - left. by exists m.
  - by right.
Qed.
End Errata.

(** X16: On a well-formed block the decoder fails only in the ways of the
    error taxonomy: over every supported field with [1 <= nsym <= n], for
    every non-empty received block of symbols and erasure sentinels,
    [decode_block] returns or raises one of "message too long", "Too many
    erasures to correct", "Too many errors to correct", "Could not locate
    error", "Could not correct message" and [ZeroDivisionError]; it raises
    neither [IndexError] nor any other [ValueError]. *)
Theorem decode_block_raises_in_taxonomy
    (n0 k0 : Z) (self : RSCodec) (msg_in : list Z) :
  RSCodec_init n0 k0 = Ok self ->
  1 <= nsym self <= n self ->
  Forall (fun v => v < q self) msg_in ->
  msg_in <> [] ->
  raises in_taxonomy (decode_block self msg_in).
Proof.
  intros Hinit Hnsym Hsym Hne. apply RSCodec_init_inv in Hinit as [Hft _].
  pose proof (ft_q _ Hft) as Hq. pose proof (ft_n _ Hft) as Hn.
  unfold decode_block, rs_correct_msg.
  destruct (Z.gtb_spec (len msg_in) (n self)) as [|Hlen].
  { cbn. unfold in_taxonomy. auto. }
  rewrite find_erasures_scan. cbn [bind].
  destruct (Z.gtb_spec (len (erasure_positions msg_in)) (nsym self)) as [|Hera].
  { cbn. unfold in_taxonomy. auto. }
  set (msg_out := zero_erasures msg_in).
  assert (Forall (symbol self) msg_out) as Hout
    by (by apply symbols_zero_erasures).
  assert (len msg_out = len msg_in) as Hol by apply len_zero_erasures.
  assert (1 <= len msg_in) as Hl1.
  { destruct msg_in; [done|]. unfold len. cbn [length]. lia. }
  assert (forall i, 0 <= i < nsym self ->
            exists e, py_get (gf_exp self) i = Ok e) as Hpts.
  { intros i Hi. destruct (ft_exp_range _ Hft i ltac:(lia)) as (e & He & _).
    eauto. }
  destruct (rs_calc_syndromes_total self Hft msg_out (nsym self) Hout)
    as (synd & -> & Hsynd & Hsl); [apply nonempty_len; lia|done|].
  cbn [bind].
  destruct (py_max_symbols synd) as (mx & -> & _);
    [apply nonempty_len; lia|by apply (symbols_nonneg self)|].
  cbn [bind]. destruct (mx =? 0); [done|].
  assert (Forall (fun p => 0 <= p < len msg_out) (erasure_positions msg_in))
    as Hepos.
  { apply Forall_forall. intros p Hp. unfold erasure_positions in Hp.
    apply elem_of_erasures_from in Hp as (v & Hp0 & Hv & _).
    apply lookup_lt_Some in Hv. unfold len in *. lia. }
  destruct (rs_forney_syndromes_total self Hft synd
              (erasure_positions msg_in) (len msg_out) Hsynd Hepos)
    as (fsynd & -> & Hfs & _); [lia|lia|].
  cbn [bind].
  destruct (rs_find_errors_outcome self Hft fsynd (len msg_out) Hfs)
    as [-> |[-> |(err_pos & -> & Herr)]]; [lia| | |].
  { cbn. unfold in_taxonomy. auto 10. }
  { cbn. unfold in_taxonomy. auto 10. }
  cbn [bind].
  destruct (rs_correct_errata_outcome self Hft msg_out synd
              (erasure_positions msg_in ++ err_pos) Hout Hsynd)
    as [(msg' & -> & Hms & Hml)| ->].
  { by apply Forall_app. }
  { lia. }
  2:{ cbn. unfold in_taxonomy. auto. }
  cbn [bind].
  destruct (rs_calc_syndromes_total self Hft msg' (nsym self) Hms)
    as (synd' & -> & Hsynd' & Hsl'); [apply nonempty_len; lia|done|].
  cbn [bind].
  destruct (py_max_symbols synd') as (mx' & -> & _);
    [apply nonempty_len; lia|by apply (symbols_nonneg self)|].
  cbn [bind]. destruct (mx' >? 0); [|done].
  cbn. unfold in_taxonomy. auto 10.
Qed.

Lemma decode_block_raises_in_taxonomy_witness :
  raises in_taxonomy (decode_block codec_7_3 [1; 1; -1; -1]).
Proof.
  apply (decode_block_raises_in_taxonomy 7 3 codec_7_3 [1; 1; -1; -1]).
  - reflexivity.
  - vm_compute. split; discriminate.
  - repeat constructor.
  - discriminate.
Defined.

(** ** Polynomials *)

(** Writing [vals] one by one into a zero-filled stretch of a buffer. *)
Lemma insert_fill (a : nat) (vals : list Z) (i : nat) (v : Z) :
  vals !! i = Some v ->
  <[(a + i)%nat := v]>
    (replicate a 0 ++ take i vals ++ replicate (length vals - i) 0)
  = replicate a 0 ++ take (S i) vals ++ replicate (length vals - S i) 0.
Proof.
  intros Hv. pose proof (lookup_lt_Some _ _ _ Hv) as Hlt.
  rewrite insert_app_r_alt by (rewrite length_replicate; lia).
  rewrite length_replicate. f_equal.
  replace (a + i - a)%nat with i by lia.
  rewrite insert_app_r_alt by (rewrite length_take; lia).
  rewrite length_take. replace (i - i `min` length vals)%nat with 0%nat by lia.
  rewrite (take_S_r _ _ _ Hv), <- app_assoc. f_equal.
  replace (length vals - i)%nat with (S (length vals - S i)) by lia.
  done.
Qed.

Lemma fill_lookup_zero (a : nat) (vals : list Z) (i : nat) :
  (i < length vals)%nat ->
  (replicate a 0 ++ take i vals ++ replicate (length vals - i) 0)
    !! (a + i)%nat = Some 0.
Proof.
  intros Hlt. rewrite lookup_app_r by (rewrite length_replicate; lia).
  rewrite length_replicate. replace (a + i - a)%nat with i by lia.
  rewrite lookup_app_r by (rewrite length_take; lia).
  rewrite length_take. apply lookup_replicate_2. lia.
Qed.

Lemma length_fill (a : nat) (vals : list Z) (i : nat) :
  (i <= length vals)%nat ->
  length (replicate a 0 ++ take i vals ++ replicate (length vals - i) 0)
  = (a + length vals)%nat.
Proof.
  intros Hi. rewrite !length_app, !length_replicate, length_take. lia.
Qed.

Lemma len_xor_aligned (p1 p2 : list Z) :
  len (xor_aligned p1 p2) = Z.max (len p1) (len p2).
Proof.
  unfold xor_aligned, pad_left, len.
  rewrite length_zip_with, !length_app, !length_replicate. lia.
Qed.

Lemma gf_poly_add_run (p1 p2 : list Z) :
  gf_poly_add p1 p2 = Ok (xor_aligned p1 p2).
Proof.
  set (m := Nat.max (length p1) (length p2)).
  pose proof (len_xor_aligned p1 p2) as Hlen.
  unfold gf_poly_add.
  assert (length p1 <= m /\ length p2 <= m)%nat as [Hm1 Hm2]
    by (unfold m; lia).
  assert (py_repeat 0 (Z.max (len p1) (len p2)) = replicate m 0) as ->.
  { unfold py_repeat, len, m. f_equal. lia. }
  set (fill := fun (vals : list Z) (i : nat) =>
    replicate (m - length vals) 0 ++ take i vals
    ++ replicate (length vals - i) 0).
  match goal with
  | |- context [for_ (py_range 0 (len p1)) ?s ?body] =>
      destruct (for_range_total (fun i r => r = fill p1 (Z.to_nat i)) body
                  0 (len p1) s) as (r1 & -> & ->)
  end.
  { apply len_nonneg. }
  { unfold fill. change (Z.to_nat 0) with 0%nat. rewrite take_0. cbn [app].
    rewrite Nat.sub_0_r, <- replicate_add. f_equal. lia. }
  { intros i r Hi ->. unfold len in Hi.
    destruct (lookup_lt_is_Some_2 p1 (Z.to_nat i)) as [v Hv]; [lia|].
    rewrite (py_get_lookup _ _ v) by (lia || done). cbn [bind].
    assert (len (fill p1 (Z.to_nat i)) = Z.of_nat m) as Hl.
    { unfold len, fill. rewrite length_fill by lia. lia. }
    rewrite Hl. rewrite py_set_in_range by (rewrite Hl; unfold len; lia).
    eexists. split; [done|].
    replace (Z.to_nat (i + Z.of_nat m - len p1))
      with (m - length p1 + Z.to_nat i)%nat by (unfold len; lia).
    replace (Z.to_nat (i + 1)) with (S (Z.to_nat i)) by lia.
    by apply insert_fill. }
  cbn [bind].
  assert (fill p1 (Z.to_nat (len p1)) = pad_left m p1) as ->.
  { unfold fill, pad_left, len. rewrite Nat2Z.id, firstn_all, Nat.sub_diag.
    cbn. by rewrite app_nil_r. }
  match goal with
  | |- context [for_ (py_range 0 (len p2)) ?s ?body] =>
      destruct (for_range_total
                  (fun i r => r = zip_with Z.lxor (pad_left m p1)
                                    (fill p2 (Z.to_nat i))) body
                  0 (len p2) s) as (r2 & -> & ->)
  end.
  { apply len_nonneg. }
  { unfold fill. change (Z.to_nat 0) with 0%nat. rewrite take_0. cbn [app].
    rewrite Nat.sub_0_r, <- replicate_add.
    replace (m - length p2 + length p2)%nat with m by lia.
    apply list_eq. intros j.
    rewrite lookup_zip_with.
    destruct (pad_left m p1 !! j) as [x|] eqn:Hx; [|done]. cbn.
    assert (j < m)%nat as Hj.
    { apply lookup_lt_Some in Hx. unfold pad_left in Hx.
      rewrite length_app, length_replicate in Hx. lia. }
    rewrite lookup_replicate_2 by done. cbn. by rewrite Z.lxor_0_r. }
  { intros i r Hi ->. unfold len in Hi.
    destruct (lookup_lt_is_Some_2 p2 (Z.to_nat i)) as [v Hv]; [lia|].
    assert (length (pad_left m p1) = m) as Hpl.
    { unfold pad_left. rewrite length_app, length_replicate. lia. }
    assert (len (zip_with Z.lxor (pad_left m p1) (fill p2 (Z.to_nat i)))
            = Z.of_nat m) as Hl.
    { unfold len, fill. rewrite length_zip_with, length_fill by lia. lia. }
    rewrite Hl.
    set (idx := (m - length p2 + Z.to_nat i)%nat).
    assert (Z.to_nat (i + Z.of_nat m - len p2) = idx) as Hidx
      by (unfold len, idx; lia).
    destruct (lookup_lt_is_Some_2 (pad_left m p1) idx) as [x Hx];
      [unfold idx; lia|].
    rewrite (py_get_lookup _ _ (Z.lxor x 0)); [|unfold len; lia|].
    2:{ rewrite Hidx, lookup_zip_with, Hx. cbn. unfold fill, idx.
        rewrite fill_lookup_zero by lia. done. }
    cbn [bind]. rewrite (py_get_lookup _ _ v) by (lia || done). cbn [bind].
    rewrite py_set_in_range by (rewrite Hl; unfold len, idx in *; lia).
    eexists. split; [done|]. rewrite Hidx, Z.lxor_0_r.
    replace (Z.to_nat (i + 1)) with (S (Z.to_nat i)) by lia.
    unfold fill. rewrite <- (insert_fill _ _ _ _ Hv).
    fold idx. rewrite <- (list_insert_id _ _ _ Hx) at 2.
    by rewrite insert_zip_with. }
  f_equal. unfold xor_aligned. fold m. f_equal.
  unfold fill, pad_left, len. rewrite Nat2Z.id, firstn_all, Nat.sub_diag.
  cbn. by rewrite app_nil_r.
Qed.

(** X7: [gf_poly_add] returns on all lists of integers: the XOR of its
    arguments aligned at their low-order ends, of the length of the longer
    one and with the shorter argument's leading coefficients untouched. *)
Theorem gf_poly_add_aligned (p1 p2 : list Z) :
  gf_poly_add p1 p2 = Ok (xor_aligned p1 p2)
  /\ len (xor_aligned p1 p2) = Z.max (len p1) (len p2)
  /\ (len p2 <= len p1 ->
      take (length p1 - length p2) (xor_aligned p1 p2)
      = take (length p1 - length p2) p1).
Proof.
  split; [apply gf_poly_add_run|]. split; [apply len_xor_aligned|].
  intros Hle. unfold len in Hle. unfold xor_aligned, pad_left.
  replace (Nat.max (length p1) (length p2)) with (length p1) by lia.
  rewrite Nat.sub_diag. cbn [replicate app].
  apply list_eq. intros j. rewrite !lookup_take.
  destruct (decide (j < length p1 - length p2)%nat) as [Hj|Hj]; [|done].
  rewrite lookup_zip_with.
  rewrite (lookup_app_l (replicate _ _)) by (rewrite length_replicate; lia).
  rewrite lookup_replicate_2 by lia.
  destruct (p1 !! j) as [a|]; [|done]. cbn. by rewrite Z.lxor_0_r.
Qed.

(** ** Evaluation of polynomials *)

Lemma fmul_comm (self : RSCodec) (x y : Z) : fmul self x y = fmul self y x.
Proof.
  unfold fmul, gf_mul. rewrite (orb_comm (y =? 0)).
  destruct ((x =? 0) || (y =? 0)); [done|].
  assert (forall l i, py_get l i = Raise IndexError \/ exists v, py_get l i = Ok v)
    as Hget.
  { intros l i. unfold py_get. repeat case_match; eauto. }
  destruct (Hget (gf_log self) x) as [->|[lx ->]];
    destruct (Hget (gf_log self) y) as [->|[ly ->]]; cbn [bind]; try done.
  by rewrite (Z.add_comm lx ly).
Qed.

Lemma fmul_0_l (self : RSCodec) (x : Z) : fmul self 0 x = 0.
Proof. by rewrite fmul_comm, fmul_0_r. Qed.

Create HintDb sym.

Section Algebra.
Variable self : RSCodec.
Hypothesis Hft : field_tables self.
Hypothesis Hdistr : forall x y z,
  symbol self x -> symbol self y -> symbol self z ->
  fmul self x (Z.lxor y z) = Z.lxor (fmul self x y) (fmul self x z).

Local Abbreviation symbols := (Forall (symbol self)).
Local Notation "x ⊗ y" := (fmul self x y) (at level 40, left associativity).
Local Notation "x ⊕ y" := (Z.lxor x y) (at level 50, left associativity).

Local Hint Resolve fmul_symbol symbol_lxor symbol_0 symbol_1 : sym.

Lemma gf_mul_fmul (x y : Z) :
  symbol self x -> symbol self y -> gf_mul self x y = Ok (x ⊗ y).
Proof.
  intros Hx Hy. destruct (gf_mul_symbol self Hft x y Hx Hy) as (z & Hz & _).
  by rewrite (fmul_gf_mul _ _ _ _ Hz).
Qed.

Lemma fmul_assoc (x y z : Z) :
  symbol self x -> symbol self y -> symbol self z ->
  x ⊗ y ⊗ z = x ⊗ (y ⊗ z).
Proof.
  intros Hx Hy Hz.
  destruct (gf_mul_assoc_symbols self Hft x y z Hx Hy Hz)
    as (xy & yz & r & H1 & H2 & H3 & H4).
  rewrite (fmul_gf_mul _ _ _ _ H1), (fmul_gf_mul _ _ _ _ H2).
  by rewrite (fmul_gf_mul _ _ _ _ H3), (fmul_gf_mul _ _ _ _ H4).
Qed.

Lemma fmul_1_r (x : Z) : symbol self x -> x ⊗ 1 = x.
Proof. intros Hx. apply fmul_gf_mul. by apply gf_mul_1_r. Qed.

Lemma fmul_1_l (x : Z) : symbol self x -> 1 ⊗ x = x.
Proof. intros Hx. rewrite fmul_comm. by apply fmul_1_r. Qed.

Lemma fmul_lxor_l (x y z : Z) :
  symbol self x -> symbol self y -> symbol self z ->
  (x ⊕ y) ⊗ z = (x ⊗ z) ⊕ (y ⊗ z).
Proof.
  intros Hx Hy Hz.
  rewrite (fmul_comm _ (x ⊕ y)), (fmul_comm _ x), (fmul_comm _ y).
  by apply Hdistr.
Qed.

Lemma fpow_symbol (x : Z) (k : nat) : symbol self x -> symbol self (fpow self x k).
Proof.
  intros Hx. induction k as [|k IH]; [by apply symbol_1|].
  unfold fpow. rewrite Nat.iter_succ. by apply fmul_symbol.
Qed.

Local Hint Resolve fpow_symbol : sym.

Lemma fpow_S (x : Z) (k : nat) : fpow self x (S k) = fpow self x k ⊗ x.
Proof. unfold fpow. by rewrite Nat.iter_succ. Qed.

Lemma fpow_add (x : Z) (a b : nat) :
  symbol self x -> fpow self x (a + b) = fpow self x a ⊗ fpow self x b.
Proof.
  intros Hx. induction b as [|b IH].
  - rewrite Nat.add_0_r. change (fpow self x 0) with 1.
    by rewrite fmul_1_r by auto with sym.
  - rewrite Nat.add_succ_r, !fpow_S, IH.
    by rewrite fmul_assoc by auto with sym.
Qed.

Lemma horner_symbol (x : Z) (p : list Z) (u : Z) :
  symbol self x -> symbols p -> symbol self u ->
  symbol self (fold_left (horner self x) p u).
Proof.
  intros Hx Hp. revert u.
  induction Hp as [|c p Hc Hp IH]; intros u Hu; [done|].
  cbn. apply IH. unfold horner. auto with sym.
Qed.

Lemma peval_symbol (x : Z) (p : list Z) :
  symbol self x -> symbols p -> symbol self (peval self p x).
Proof. intros Hx Hp. apply horner_symbol; auto with sym. Qed.

Local Hint Resolve peval_symbol horner_symbol : sym.

Lemma horner_shift (x : Z) (p : list Z) (u : Z) :
  symbol self x -> symbols p -> symbol self u ->
  fold_left (horner self x) p u
  = (u ⊗ fpow self x (length p)) ⊕ peval self p x.
Proof.
  intros Hx Hp. revert u. unfold peval.
  induction Hp as [|c p Hc Hp IH]; intros u Hu.
  - cbn. change (fpow self x 0) with 1.
    by rewrite fmul_1_r, Z.lxor_0_r.
  - cbn [fold_left length].
    rewrite (IH (horner self x u c)) by (unfold horner; auto with sym).
    rewrite (IH (horner self x 0 c)) by (unfold horner; auto with sym).
    unfold horner. rewrite fmul_0_l, Z.lxor_0_l.
    rewrite fmul_lxor_l by auto with sym.
    rewrite fmul_assoc by auto with sym.
    rewrite (fmul_comm _ x), <- fpow_S.
    by rewrite Z.lxor_assoc.
Qed.

Lemma peval_app (x : Z) (a b : list Z) :
  symbol self x -> symbols a -> symbols b ->
  peval self (a ++ b) x
  = (peval self a x ⊗ fpow self x (length b)) ⊕ peval self b x.
Proof.
  intros Hx Ha Hb. unfold peval at 1. rewrite fold_left_app.
  apply horner_shift; auto with sym.
Qed.

Lemma peval_cons (x c : Z) (p : list Z) :
  symbol self x -> symbol self c -> symbols p ->
  peval self (c :: p) x = (c ⊗ fpow self x (length p)) ⊕ peval self p x.
Proof.
  intros Hx Hc Hp. unfold peval at 1. cbn [fold_left].
  unfold horner at 2. rewrite fmul_0_l, Z.lxor_0_l.
  by apply horner_shift.
Qed.

Lemma peval_zeros (x : Z) (k : nat) : peval self (replicate k 0) x = 0.
Proof.
  unfold peval. induction k as [|k IH]; [done|].
  cbn. unfold horner at 2. by rewrite fmul_0_l.
Qed.

Lemma horner_zip (x : Z) (a b : list Z) (u v : Z) :
  symbol self x -> symbols a -> symbols b -> length a = length b ->
  symbol self u -> symbol self v ->
  fold_left (horner self x) (zip_with Z.lxor a b) (u ⊕ v)
  = fold_left (horner self x) a u ⊕ fold_left (horner self x) b v.
Proof.
  intros Hx Ha. revert b u v.
  induction Ha as [|c a Hc Ha IH]; intros [|d b] u v Hb Hlen Hu Hv;
    try done.
  apply Forall_cons in Hb as [Hd Hb]. cbn.
  rewrite <- IH by (unfold horner; auto with sym).
  f_equal. unfold horner. rewrite fmul_lxor_l by auto with sym.
  rewrite !Z.lxor_assoc. f_equal.
  rewrite <- !Z.lxor_assoc. f_equal. apply Z.lxor_comm.
Qed.

Lemma peval_zip (x : Z) (a b : list Z) :
  symbol self x -> symbols a -> symbols b -> length a = length b ->
  peval self (zip_with Z.lxor a b) x = peval self a x ⊕ peval self b x.
Proof.
  intros Hx Ha Hb Hlen. unfold peval.
  rewrite <- horner_zip by auto with sym. done.
Qed.

Lemma horner_scale (x e : Z) (p : list Z) (u : Z) :
  symbol self x -> symbol self e -> symbols p -> symbol self u ->
  fold_left (horner self x) ((fun c => c ⊗ e) <$> p) (u ⊗ e)
  = fold_left (horner self x) p u ⊗ e.
Proof.
  intros Hx He Hp. revert u.
  induction Hp as [|c p Hc Hp IH]; intros u Hu; [done|].
  cbn. rewrite <- IH by (unfold horner; auto with sym).
  f_equal. unfold horner. rewrite fmul_lxor_l by auto with sym.
  f_equal. rewrite !fmul_assoc by auto with sym.
  by rewrite (fmul_comm _ e x).
Qed.

Lemma peval_scale (x e : Z) (p : list Z) :
  symbol self x -> symbol self e -> symbols p ->
  peval self ((fun c => c ⊗ e) <$> p) x = peval self p x ⊗ e.
Proof.
  intros Hx He Hp. unfold peval.
  rewrite <- horner_scale by auto with sym. by rewrite fmul_0_l.
Qed.

Lemma peval_pad_left (x : Z) (m : nat) (p : list Z) :
  symbol self x -> symbols p -> peval self (pad_left m p) x = peval self p x.
Proof.
  intros Hx Hp. unfold pad_left.
  rewrite peval_app; [|done|apply Forall_replicate; auto with sym|done].
  by rewrite peval_zeros, fmul_0_l, Z.lxor_0_l.
Qed.

Lemma xor_into_zip (d v : list Z) :
  (length v <= length d)%nat ->
  xor_into d v = zip_with Z.lxor d (v ++ replicate (length d - length v) 0).
Proof.
  revert v. induction d as [|a d IH]; intros [|b v] Hlen; cbn in *;
    try done; try lia.
  - f_equal; [by rewrite Z.lxor_0_r|].
    specialize (IH [] ltac:(cbn; lia)).
    rewrite xor_into_nil_r in IH. cbn in IH. by rewrite Nat.sub_0_r in IH.
  - f_equal. apply IH. lia.
Qed.

Lemma peval_xor_into (x : Z) (d v : list Z) :
  symbol self x -> symbols d -> symbols v -> (length v <= length d)%nat ->
  peval self (xor_into d v) x
  = peval self d x ⊕ (peval self v x ⊗ fpow self x (length d - length v)).
Proof.
  intros Hx Hd Hv Hlen.
  assert (symbols (replicate (length d - length v) 0)) as Hz
    by (apply Forall_replicate; auto with sym).
  rewrite xor_into_zip by done.
  rewrite peval_zip; [|done|done|by apply Forall_app|].
  2:{ rewrite length_app, length_replicate. lia. }
  rewrite peval_app by done.
  by rewrite peval_zeros, Z.lxor_0_r, length_replicate.
Qed.

(** Adding [v] into [r] from position [j] on adds [v], shifted to that
    position, to the value of [r]. *)
Lemma peval_xor_at (x : Z) (j : nat) (r v : list Z) :
  symbol self x -> symbols r -> symbols v ->
  (j + length v <= length r)%nat ->
  peval self (take j r ++ xor_into (drop j r) v) x
  = peval self r x
    ⊕ (peval self v x ⊗ fpow self x (length r - j - length v)).
Proof.
  intros Hx Hr Hv Hlen.
  assert (symbols (take j r)) as Ht by by apply Forall_take.
  assert (symbols (drop j r)) as Hdr by by apply Forall_drop.
  rewrite peval_app; [|done|done|].
  2:{ apply Forall_xor_into; auto with sym. }
  rewrite length_xor_into.
  rewrite peval_xor_into by (rewrite ?length_drop; done || lia).
  assert (peval self r x
          = (peval self (take j r) x ⊗ fpow self x (length (drop j r)))
            ⊕ peval self (drop j r) x) as ->.
  { rewrite <- (take_drop j r) at 1. by apply peval_app. }
  rewrite length_drop. by rewrite Z.lxor_assoc.
Qed.

(** [gf_poly_eval] computes the value of the polynomial. *)
Lemma gf_poly_eval_peval (p : list Z) (x : Z) :
  symbols p -> p <> [] -> symbol self x ->
  gf_poly_eval self p x = Ok (peval self p x).
Proof.
  intros Hp Hne Hx. unfold gf_poly_eval.
  destruct p as [|c p]; [done|].
  apply Forall_cons in Hp as Hcp. destruct Hcp as [Hc Hp'].
  rewrite (py_get_lookup _ 0 c) by done. cbn [bind].
  match goal with
  | |- context [for_ _ ?s ?body] =>
      destruct (for_range_total
                  (fun i y => y = peval self (take (Z.to_nat i) (c :: p)) x)
                  body 1 (len (c :: p)) s) as (y & -> & ->)
  end.
  - unfold len. cbn. lia.
  - change (take (Z.to_nat 1) (c :: p)) with (c :: take 0 p).
    rewrite take_0. unfold peval, horner. cbn [fold_left].
    by rewrite fmul_0_l, Z.lxor_0_l.
  - intros i y Hi ->. unfold len in Hi.
    rewrite gf_mul_fmul; [|apply peval_symbol; [done|by apply Forall_take]|done].
    cbn [bind].
    destruct (lookup_lt_is_Some_2 (c :: p) (Z.to_nat i)) as [a Ha]; [lia|].
    rewrite (py_get_lookup _ i a) by (done || lia). cbn [bind].
    eexists. split; [done|].
    replace (Z.to_nat (i + 1)) with (S (Z.to_nat i)) by lia.
    rewrite (take_S_r _ _ _ Ha). unfold peval. by rewrite fold_left_app.
  - do 2 f_equal. apply take_ge. unfold len. lia.
Qed.

(** [gf_poly_scale] multiplies every coefficient. *)
Lemma gf_poly_scale_map (p : list Z) (e : Z) :
  symbols p -> symbol self e ->
  gf_poly_scale self p e = Ok ((fun c => c ⊗ e) <$> p).
Proof.
  intros Hp He. unfold gf_poly_scale.
  rewrite mapM_range_get_0.
  induction Hp as [|c p Hc Hp IH]; [done|].
  cbn [mapM fmap list_fmap]. rewrite gf_mul_fmul by done. cbn [bind].
  by rewrite IH.
Qed.

(** The inner loop of [gf_poly_mul] adds [qj] times [p1] into [r] from
    position [j] on. *)
Lemma gf_poly_mul_inner (r p1 p2 : list Z) (j qj : Z) :
  symbols r -> symbols p1 -> symbol self qj ->
  py_get p2 j = Ok qj -> 0 <= j -> j + len p1 <= len r ->
  for_ (py_range 0 (len p1)) r (fun i r =>
    old <- py_get r (i + j) ;;
    pi <- py_get p1 i ;;
    qj <- py_get p2 j ;;
    m <- gf_mul self pi qj ;;
    py_set r (i + j) (Z.lxor old m))
  = Ok (take (Z.to_nat j) r
        ++ xor_into (drop (Z.to_nat j) r) ((fun c => c ⊗ qj) <$> p1)).
Proof.
  intros Hr Hp1 Hqj Hget Hj Hlen.
  set (vals := (fun c => c ⊗ qj) <$> p1).
  set (Inv := fun (i : Z) (b : list Z) =>
    b = take (Z.to_nat j) r
        ++ xor_into (drop (Z.to_nat j) r) (take (Z.to_nat i) vals)).
  assert (length (take (Z.to_nat j) r) = Z.to_nat j) as Hpre.
  { rewrite length_take. unfold len in Hlen. lia. }
  match goal with
  | |- context [for_ _ ?s ?body] =>
      destruct (for_range_total Inv body 0 (len p1) s) as (b & -> & Hb)
  end.
  - apply len_nonneg.
  - unfold Inv. change (Z.to_nat 0) with 0%nat.
    by rewrite take_0, xor_into_nil_r, take_drop.
  - intros i b Hi ->. unfold len in Hi, Hlen.
    destruct (lookup_lt_is_Some_2 p1 (Z.to_nat i)) as [a Ha]; [lia|].
    destruct (lookup_lt_is_Some_2 r (Z.to_nat (i + j))) as [old Hold];
      [lia|].
    pose proof (Forall_lookup_1 _ _ _ _ Hp1 Ha) as Ha_sym.
    assert (drop (Z.to_nat j) r !! Z.to_nat i = Some old) as Hd.
    { rewrite lookup_drop. by replace (Z.to_nat j + Z.to_nat i)%nat
        with (Z.to_nat (i + j)) by lia. }
    assert (vals !! Z.to_nat i = Some (a ⊗ qj)) as Hv.
    { unfold vals. by rewrite list_lookup_fmap, Ha. }
    rewrite (py_get_lookup _ (i + j) old); [|lia|].
    2:{ rewrite lookup_app_r by lia. rewrite Hpre.
        replace (Z.to_nat (i + j) - Z.to_nat j)%nat with (Z.to_nat i) by lia.
        rewrite lookup_xor_into_ge; [done|]. rewrite length_take. lia. }
    cbn [bind]. rewrite (py_get_lookup _ i a) by (done || lia).
    cbn [bind]. rewrite Hget. cbn [bind].
    rewrite gf_mul_fmul by done. cbn [bind].
    rewrite py_set_in_range.
    2:{ unfold len. rewrite length_app, length_xor_into, length_drop, Hpre.
        lia. }
    eexists. split; [done|]. unfold Inv.
    rewrite insert_app_r_alt by lia. rewrite Hpre. f_equal.
    replace (Z.to_nat (i + j) - Z.to_nat j)%nat with (Z.to_nat i) by lia.
    replace (Z.to_nat (i + 1)) with (S (Z.to_nat i)) by lia.
    by apply xor_into_take_S.
  - unfold Inv in Hb. rewrite Hb.
    do 3 f_equal. apply take_ge. unfold vals, len.
    rewrite length_fmap. lia.
Qed.

Lemma peval_singleton (x c : Z) : symbol self c -> peval self [c] x = c.
Proof.
  intros Hc. unfold peval, horner. cbn [fold_left].
  by rewrite fmul_0_l, Z.lxor_0_l.
Qed.

Lemma peval_take_S (x : Z) (p : list Z) (j : nat) (c : Z) :
  symbol self x -> symbols p -> p !! j = Some c ->
  peval self (take (S j) p ++ replicate (length p - S j) 0) x
  = peval self (take j p ++ replicate (length p - j) 0) x
    ⊕ (c ⊗ fpow self x (length p - S j)).
Proof.
  intros Hx Hp Hc. pose proof (lookup_lt_Some _ _ _ Hc) as Hlt.
  pose proof (Forall_lookup_1 _ _ _ _ Hp Hc) as Hc_sym.
  assert (symbols (take j p)) as Ht by by apply Forall_take.
  set (k := (length p - S j)%nat).
  replace (length p - j)%nat with (1 + k)%nat by (unfold k; lia).
  assert (forall m, symbols (replicate m 0)) as Hz
    by (intros m; apply Forall_replicate; auto with sym).
  assert (symbols [c]) as Hc1 by by apply Forall_singleton.
  rewrite (take_S_r _ _ _ Hc).
  rewrite (peval_app _ (take j p ++ [c])); [|done|by apply Forall_app|done].
  rewrite (peval_app _ (take j p) [c]) by done.
  rewrite (peval_app _ (take j p) (replicate _ _)) by done.
  rewrite !peval_zeros, !Z.lxor_0_r, !length_replicate.
  rewrite peval_singleton by done. cbn [length].
  rewrite fmul_lxor_l by auto with sym.
  f_equal. rewrite fpow_add by done.
  by rewrite fmul_assoc by auto with sym.
Qed.

(** [gf_poly_mul] returns the product: of the length of a product, and whose
    value at every point is the product of the values. *)
Lemma gf_poly_mul_peval (p1 p2 : list Z) (x : Z) :
  symbols p1 -> symbols p2 -> symbol self x ->
  exists r, gf_poly_mul self p1 p2 = Ok r
    /\ len r = Z.max 0 (len p1 + len p2 - 1) /\ symbols r
    /\ peval self r x = peval self p1 x ⊗ peval self p2 x.
Proof.
  intros Hp1 Hp2 Hx. unfold gf_poly_mul.
  pose proof (len_nonneg p1). pose proof (len_nonneg p2).
  set (M := Z.max 0 (len p1 + len p2 - 1)).
  set (Inv := fun (j : Z) (r : list Z) =>
    len r = M /\ symbols r
    /\ peval self r x
       = peval self p1 x
         ⊗ peval self (take (Z.to_nat j) p2
                        ++ replicate (length p2 - Z.to_nat j) 0) x).
  match goal with
  | |- context [for_ (py_range 0 (len p2)) ?s ?body] =>
      destruct (for_range_total Inv body 0 (len p2) s)
        as (r & -> & Hr & Hs & Hv)
  end.
  { lia. }
  { split_and!.
    - rewrite len_py_repeat. lia.
    - apply Forall_py_repeat, symbol_0, Hft.
    - change (Z.to_nat 0) with 0%nat. rewrite take_0. cbn [app].
      unfold py_repeat. by rewrite !peval_zeros, fmul_0_r. }
  { intros j r Hj (Hlen & Hsym & Hval). unfold len in Hj.
    destruct (lookup_lt_is_Some_2 p2 (Z.to_nat j)) as [qj Hqj]; [lia|].
    pose proof (Forall_lookup_1 _ _ _ _ Hp2 Hqj) as Hqj_sym.
    assert (symbols ((fun c => c ⊗ qj) <$> p1)) as Hsc.
    { apply Forall_fmap. eapply Forall_impl; [exact Hp1|].
      intros c Hc. cbn. auto with sym. }
    rewrite (gf_poly_mul_inner r p1 p2 j qj); try done; try lia.
    2:{ apply py_get_lookup; [lia|done]. }
    2:{ unfold len in *. lia. }
    eexists. split; [done|]. split_and!.
    - unfold len in *.
      rewrite length_app, length_xor_into, length_take, length_drop. lia.
    - apply Forall_app. split; [by apply Forall_take|].
      apply Forall_xor_into; [auto with sym|by apply Forall_drop|done].
    - rewrite peval_xor_at; try done.
      2:{ rewrite length_fmap. unfold len in *. lia. }
      rewrite peval_scale, Hval by done.
      replace (Z.to_nat (j + 1)) with (S (Z.to_nat j)) by lia.
      rewrite (peval_take_S _ _ _ _ Hx Hp2 Hqj).
      assert (symbols (take (Z.to_nat j) p2
                       ++ replicate (length p2 - Z.to_nat j) 0)).
      { apply Forall_app. split; [by apply Forall_take|].
        apply Forall_replicate. auto with sym. }
      rewrite Hdistr by auto with sym. f_equal.
      rewrite fmul_assoc by auto with sym. do 3 f_equal.
      rewrite length_fmap. unfold len in *. lia. }
  exists r. split_and!; try done.
  rewrite Hv. do 2 f_equal. unfold len.
  rewrite Nat2Z.id, firstn_all, Nat.sub_diag. cbn. by rewrite app_nil_r.
Qed.

(** The value of a sum is the sum of the values. *)
Lemma peval_xor_aligned (p1 p2 : list Z) (x : Z) :
  symbols p1 -> symbols p2 -> symbol self x ->
  peval self (xor_aligned p1 p2) x = peval self p1 x ⊕ peval self p2 x.
Proof.
  intros Hp1 Hp2 Hx. unfold xor_aligned.
  assert (forall m p, symbols p -> symbols (pad_left m p)) as Hpad.
  { intros m p Hp. apply Forall_app. split; [|done].
    apply Forall_replicate. auto with sym. }
  rewrite peval_zip; [|done|by apply Hpad|by apply Hpad|].
  - by rewrite !peval_pad_left.
  - unfold pad_left. rewrite !length_app, !length_replicate. lia.
Qed.
End Algebra.

(** The field of a codec: its tables, and distributivity in terms of
    [fmul]. *)
Lemma RSCodec_init_field (n0 k0 : Z) (self : RSCodec) :
  RSCodec_init n0 k0 = Ok self ->
  field_tables self
  /\ forall x y z, symbol self x -> symbol self y -> symbol self z ->
       fmul self x (Z.lxor y z) = Z.lxor (fmul self x y) (fmul self x z).
Proof.
  intros Hinit. pose proof Hinit as [Hft _]%RSCodec_init_inv.
  destruct (RSCodec_init_powers _ _ _ Hinit) as (poly & _ & Hper & Hexp & _).
  split; [done|]. intros x y z Hx Hy Hz.
  destruct (gf_mul_lxor_symbols self poly Hft Hper Hexp x y z Hx Hy Hz)
    as (a & b & Ha & Hb & Hab).
  by rewrite (fmul_gf_mul _ _ _ _ Ha), (fmul_gf_mul _ _ _ _ Hb),
    (fmul_gf_mul _ _ _ _ Hab).
Qed.

(** X10: Over every supported field the value of a product of polynomials is
    the product of the values: [gf_poly_mul] followed by [gf_poly_eval] at
    [x] gives [gf_mul] of the two values at [x]. *)
Theorem gf_poly_mul_eval
    (n0 k0 : Z) (self : RSCodec) (p1 p2 : list Z) (x : Z) :
  RSCodec_init n0 k0 = Ok self ->
  Forall (symbol self) p1 -> Forall (symbol self) p2 ->
  p1 <> [] -> p2 <> [] -> symbol self x ->
  exists r a b ab,
    gf_poly_mul self p1 p2 = Ok r /\ len r = len p1 + len p2 - 1
    /\ gf_poly_eval self p1 x = Ok a /\ gf_poly_eval self p2 x = Ok b
    /\ gf_mul self a b = Ok ab /\ gf_poly_eval self r x = Ok ab.
Proof.
  intros Hinit Hp1 Hp2 Hn1 Hn2 Hx.
  destruct (RSCodec_init_field _ _ _ Hinit) as [Hft Hdistr].
  destruct (gf_poly_mul_peval self Hft Hdistr p1 p2 x Hp1 Hp2 Hx)
    as (r & Hr & Hlen & Hsym & Hval).
  assert (1 <= len p1) by (destruct p1; [done|unfold len; cbn; lia]).
  assert (1 <= len p2) by (destruct p2; [done|unfold len; cbn; lia]).
  exists r, (peval self p1 x), (peval self p2 x),
    (fmul self (peval self p1 x) (peval self p2 x)).
  split_and!.
  - done.
  - lia.
  - by apply gf_poly_eval_peval.
  - by apply gf_poly_eval_peval.
  - apply gf_mul_fmul; [done|by apply peval_symbol..].
  - rewrite <- Hval. apply gf_poly_eval_peval; [done|done| |done].
    apply nonempty_len. lia.
Qed.

Lemma gf_poly_mul_eval_witness :
  exists r a b ab,
    gf_poly_mul codec_7_3 [1; 2] [3; 0; 5] = Ok r
    /\ len r = len [1; 2] + len [3; 0; 5] - 1
    /\ gf_poly_eval codec_7_3 [1; 2] 6 = Ok a
    /\ gf_poly_eval codec_7_3 [3; 0; 5] 6 = Ok b
    /\ gf_mul codec_7_3 a b = Ok ab /\ gf_poly_eval codec_7_3 r 6 = Ok ab.
Proof.
  apply (gf_poly_mul_eval 7 3 codec_7_3 [1; 2] [3; 0; 5] 6).
  - reflexivity.
  - repeat constructor; vm_compute; discriminate.
  - repeat constructor; vm_compute; discriminate.
  - discriminate.
  - discriminate.
  - vm_compute. split; [discriminate|reflexivity].
Defined.

Lemma Forall_zip_with_lxor (P : Z -> Prop) (a b : list Z) :
  (forall x y, P x -> P y -> P (Z.lxor x y)) ->
  Forall P a -> Forall P b -> Forall P (zip_with Z.lxor a b).
Proof.
  intros Hxor Ha. revert b.
  induction Ha as [|c a Hc Ha IH]; intros [|d b] Hb; cbn; try done.
  apply Forall_cons in Hb as [Hd Hb]. constructor; auto.
Qed.

(** X9: The value of a sum of polynomials is the sum (XOR) of the values. *)
Theorem gf_poly_add_eval
    (n0 k0 : Z) (self : RSCodec) (p1 p2 : list Z) (x : Z) :
  RSCodec_init n0 k0 = Ok self ->
  Forall (symbol self) p1 -> Forall (symbol self) p2 ->
  p1 <> [] -> p2 <> [] -> symbol self x ->
  exists r a b,
    gf_poly_add p1 p2 = Ok r
    /\ gf_poly_eval self p1 x = Ok a /\ gf_poly_eval self p2 x = Ok b
    /\ gf_poly_eval self r x = Ok (Z.lxor a b).
Proof.
  intros Hinit Hp1 Hp2 Hn1 Hn2 Hx.
  destruct (RSCodec_init_field _ _ _ Hinit) as [Hft Hdistr].
  assert (1 <= len p1) by (destruct p1; [done|unfold len; cbn; lia]).
  exists (xor_aligned p1 p2), (peval self p1 x), (peval self p2 x).
  split_and!.
  - apply gf_poly_add_run.
  - by apply gf_poly_eval_peval.
  - by apply gf_poly_eval_peval.
  - rewrite <- (peval_xor_aligned self Hft Hdistr) by done.
    apply gf_poly_eval_peval; [done| | |done].
    + unfold xor_aligned.
      apply Forall_zip_with_lxor; [by apply symbol_lxor|..];
        (apply Forall_app; split; [|done]);
        apply Forall_replicate; by apply symbol_0.
    + apply nonempty_len. rewrite len_xor_aligned. lia.
Qed.

Lemma gf_poly_add_eval_witness :
  exists r a b,
    gf_poly_add [1; 2] [3; 0; 5] = Ok r
    /\ gf_poly_eval codec_7_3 [1; 2] 6 = Ok a
    /\ gf_poly_eval codec_7_3 [3; 0; 5] 6 = Ok b
    /\ gf_poly_eval codec_7_3 r 6 = Ok (Z.lxor a b).
Proof.
  apply (gf_poly_add_eval 7 3 codec_7_3 [1; 2] [3; 0; 5] 6).
  - reflexivity.
  - repeat constructor; vm_compute; discriminate.
  - repeat constructor; vm_compute; discriminate.
  - discriminate.
  - discriminate.
  - vm_compute. split; [discriminate|reflexivity].
Defined.

(** X8: The value of a scaled polynomial is the scaled value:
    [gf_poly_scale] keeps the length and multiplies the value at every
    point. *)
Theorem gf_poly_scale_eval
    (n0 k0 : Z) (self : RSCodec) (p : list Z) (c x : Z) :
  RSCodec_init n0 k0 = Ok self ->
  Forall (symbol self) p -> p <> [] -> symbol self c -> symbol self x ->
  exists r a ac,
    gf_poly_scale self p c = Ok r /\ len r = len p
    /\ gf_poly_eval self p x = Ok a /\ gf_mul self a c = Ok ac
    /\ gf_poly_eval self r x = Ok ac.
Proof.
  intros Hinit Hp Hne Hc Hx.
  destruct (RSCodec_init_field _ _ _ Hinit) as [Hft Hdistr].
  exists ((fun a => fmul self a c) <$> p), (peval self p x),
    (fmul self (peval self p x) c).
  split_and!.
  - by apply gf_poly_scale_map.
  - unfold len. by rewrite length_fmap.
  - by apply gf_poly_eval_peval.
  - apply gf_mul_fmul; [done|by apply peval_symbol|done].
  - rewrite <- (peval_scale self Hft Hdistr) by done.
    apply gf_poly_eval_peval; [done| | |done].
    + apply Forall_fmap. eapply Forall_impl; [exact Hp|].
      intros a Ha. by apply fmul_symbol.
    + by destruct p.
Qed.

Lemma gf_poly_scale_eval_witness :
  exists r a ac,
    gf_poly_scale codec_7_3 [3; 0; 5] 4 = Ok r /\ len r = len [3; 0; 5]
    /\ gf_poly_eval codec_7_3 [3; 0; 5] 6 = Ok a
    /\ gf_mul codec_7_3 a 4 = Ok ac
    /\ gf_poly_eval codec_7_3 r 6 = Ok ac.
Proof.
  apply (gf_poly_scale_eval 7 3 codec_7_3 [3; 0; 5] 4 6).
  - reflexivity.
  - repeat constructor; vm_compute; discriminate.
  - discriminate.
  - vm_compute. split; [discriminate|reflexivity].
  - vm_compute. split; [discriminate|reflexivity].
Defined.

(** ** The generator polynomial and the code words *)

Lemma mapM_const {A B} (f : A -> result B) (l : list A) (c : B) :
  (forall a, a ∈ l -> f a = Ok c) -> mapM f l = Ok (replicate (length l) c).
Proof.
  induction l as [|a l IH]; intros Hf; [done|].
  cbn [mapM]. rewrite (Hf a) by (apply elem_of_cons; by left). cbn [bind].
  rewrite IH; [done|]. intros b Hb. apply Hf. apply elem_of_cons. by right.
Qed.

Section Codeword.
Variable self : RSCodec.
Hypothesis Hft : field_tables self.
Hypothesis Hdistr : forall x y z,
  symbol self x -> symbol self y -> symbol self z ->
  fmul self x (Z.lxor y z) = Z.lxor (fmul self x y) (fmul self x z).

Local Abbreviation symbols := (Forall (symbol self)).
Local Notation "x ⊗ y" := (fmul self x y) (at level 40, left associativity).
Local Notation "x ⊕ y" := (Z.lxor x y) (at level 50, left associativity).

Local Hint Resolve fmul_symbol symbol_lxor symbol_0 symbol_1 fpow_symbol
  peval_symbol : sym.

Lemma peval_linear_factor (x e : Z) :
  symbol self x -> symbol self e -> peval self [1; e] x = x ⊕ e.
Proof.
  intros Hx He. unfold peval, horner. cbn [fold_left].
  by rewrite fmul_0_l, Z.lxor_0_l, fmul_1_l.
Qed.

(** The generator polynomial vanishes at [gf_exp[1]], ..., [gf_exp[nsym]]. *)
Lemma rs_generator_poly_peval (nsym0 : Z) :
  0 <= nsym0 <= n self ->
  exists gen,
    rs_generator_poly self nsym0 = Ok gen
    /\ len gen = nsym0 + 1 /\ symbols gen
    /\ forall i e, 1 <= i <= nsym0 -> py_get (gf_exp self) i = Ok e ->
         peval self gen e = 0.
Proof.
  intros Hn. unfold rs_generator_poly.
  pose proof (ft_q _ Hft) as Hq.
  set (Inv := fun (i : Z) (g : list Z) =>
    len g = i /\ symbols g
    /\ forall t e, 1 <= t < i -> py_get (gf_exp self) t = Ok e ->
         peval self g e = 0).
  match goal with
  | |- context [for_ _ ?s ?body] =>
      destruct (for_range_total Inv body 1 (nsym0 + 1) s)
        as (g & -> & Hl & Hs & Hroots)
  end.
  - lia.
  - split_and!; [done|by apply Forall_singleton, symbol_1|]. intros; lia.
  - intros i g Hi (Hlen & Hsym & Hroots).
    destruct (ft_exp_range _ Hft i ltac:(lia)) as (e & He & Her).
    rewrite He. cbn [bind].
    assert (symbol self e) as He_sym by (unfold symbol; lia).
    assert (symbols [1; e]) as Hfac.
    { apply Forall_cons. split; [by apply symbol_1|by apply Forall_singleton]. }
    destruct (gf_poly_mul_peval self Hft Hdistr g [1; e] 0 Hsym Hfac)
      as (r & Hr & Hrl & Hrs & _); [by apply symbol_0|].
    exists r. split; [done|]. split_and!; [|done|].
    + change (len [1; e]) with 2 in Hrl. lia.
    + intros t x Ht Hx.
      assert (symbol self x) as Hx_sym.
      { apply gf_exp_Ok_symbol in Hx; [|done]. unfold symbol. lia. }
      destruct (gf_poly_mul_peval self Hft Hdistr g [1; e] x Hsym Hfac Hx_sym)
        as (r' & Hr' & _ & _ & Hval).
      rewrite Hr in Hr'. injection Hr' as <-. rewrite Hval.
      destruct (Z.eq_dec t i) as [->|Hne].
      * rewrite He in Hx. injection Hx as <-.
        rewrite peval_linear_factor by done.
        by rewrite Z.lxor_nilpotent, fmul_0_r.
      * rewrite (Hroots t x) by (done || lia). by rewrite fmul_0_l.
  - exists g. split_and!; [done|done|done|].
    intros i e Hi. apply Hroots. lia.
Qed.

(** A division step by a monic divisor keeps the value at every root of
    the divisor. *)
Lemma spec_division_step_peval (g d : list Z) (x : Z) :
  symbol self x -> symbols g -> symbols d ->
  g !! 0%nat = Some 1 -> peval self g x = 0 ->
  (length g <= length d)%nat ->
  peval self (spec_division_step self g d) x = peval self d x.
Proof.
  intros Hx Hg Hd Hmonic Hroot Hlen.
  destruct g as [|g0 g']; [done|]. cbn in Hmonic. injection Hmonic as ->.
  destruct d as [|c rest]; [cbn in Hlen; lia|].
  apply Forall_cons in Hg as [_ Hg']. apply Forall_cons in Hd as [Hc Hrest].
  cbn [length] in Hlen.
  rewrite peval_cons in Hroot by auto with sym.
  rewrite fmul_1_l in Hroot by auto with sym.
  apply Z.lxor_eq in Hroot.
  cbn [spec_division_step tail].
  assert (symbols ((fun gj => gj ⊗ c) <$> g')) as Hsc.
  { apply Forall_fmap. eapply Forall_impl; [exact Hg'|].
    intros a Ha. cbn. auto with sym. }
  rewrite (peval_xor_into self Hft Hdistr);
    [|done|done|done|rewrite length_fmap; lia].
  rewrite peval_scale by done. rewrite <- Hroot, length_fmap.
  rewrite peval_cons by done. rewrite Z.lxor_comm. f_equal.
  rewrite (fmul_comm _ _ c), fmul_assoc by auto with sym.
  rewrite <- fpow_add by done. do 2 f_equal. lia.
Qed.

Lemma spec_division_step_symbols (g d : list Z) :
  symbols g -> symbols d -> symbols (spec_division_step self g d).
Proof.
  intros Hg Hd. destruct d as [|c rest]; [done|].
  apply Forall_cons in Hd as [Hc Hrest]. cbn [spec_division_step].
  apply Forall_xor_into; [auto with sym|done|].
  apply Forall_fmap. destruct g as [|g0 g']; [done|].
  apply Forall_cons in Hg as [_ Hg']. cbn [tail].
  eapply Forall_impl; [exact Hg'|]. intros a Ha. cbn. auto with sym.
Qed.

Lemma spec_remainder_peval (g d : list Z) (x : Z) (steps : nat) :
  symbol self x -> symbols g -> symbols d ->
  g !! 0%nat = Some 1 -> peval self g x = 0 ->
  (steps + length g <= S (length d))%nat ->
  symbols (spec_remainder self g steps d)
  /\ peval self (spec_remainder self g steps d) x = peval self d x.
Proof.
  intros Hx Hg Hd Hmonic Hroot.
  induction steps as [|steps IH]; intros Hlen; [done|].
  destruct IH as [IHs IHv]; [lia|].
  pose proof (length_spec_remainder self g steps d) as Hl.
  unfold spec_remainder in *. rewrite Nat.iter_succ. split.
  - by apply spec_division_step_symbols.
  - rewrite spec_division_step_peval; try done. lia.
Qed.

(** The encoder returns a multiple of the generator polynomial: a block
    that vanishes at [gf_exp[1]], ..., [gf_exp[nsym]]. *)
Lemma rs_encode_msg_peval (msg_in : list Z) (nsym0 : Z) :
  q self <= 256 -> symbols msg_in ->
  0 <= nsym0 -> len msg_in + nsym0 <= n self ->
  exists out,
    rs_encode_msg self msg_in nsym0 = Ok out
    /\ symbols out /\ len out = len msg_in + nsym0
    /\ forall i e, 1 <= i <= nsym0 -> py_get (gf_exp self) i = Ok e ->
         peval self out e = 0.
Proof.
  intros Hbyte Hmsg Hnsym Hlen.
  pose proof (len_nonneg msg_in) as HL.
  destruct (rs_encode_msg_total self Hft msg_in nsym0 Hbyte Hmsg Hnsym Hlen)
    as (gen & Hgen & Hgl & Henc).
  destruct (rs_generator_poly_peval nsym0 ltac:(lia))
    as (gen' & Hgen' & _ & Hgs & Hroots).
  rewrite Hgen in Hgen'. injection Hgen' as <-.
  pose proof (rs_generator_poly_monic self Hft nsym0 gen Hgen) as Hmonic.
  set (d := msg_in ++ py_repeat 0 nsym0) in *.
  assert (symbols (py_repeat 0 nsym0)) as Hz
    by (apply Forall_py_repeat; auto with sym).
  assert (symbols d) as Hd by by apply Forall_app.
  assert (length d = (length msg_in + Z.to_nat nsym0)%nat) as Hdl.
  { unfold d, py_repeat. by rewrite length_app, length_replicate. }
  assert (length (spec_remainder self gen (length msg_in) d)
          = Z.to_nat nsym0) as Hrl.
  { rewrite length_spec_remainder. lia. }
  eexists. split; [exact Henc|]. split_and!.
  - apply Forall_app. split; [done|].
    destruct gen as [|g0 g']; [done|].
    clear -Hft Hgs Hd. unfold spec_remainder.
    induction (length msg_in) as [|k IH]; [done|].
    rewrite Nat.iter_succ. by apply spec_division_step_symbols.
  - unfold len in *. rewrite length_app, Hrl. lia.
  - intros i e Hi He.
    assert (symbol self e) as He_sym.
    { apply gf_exp_Ok_symbol in He; [|done]. unfold symbol. lia. }
    destruct (spec_remainder_peval gen d e (length msg_in)) as [Hrs Hrv];
      try done.
    { by apply (Hroots i). }
    { unfold len in Hgl. lia. }
    rewrite peval_app, Hrv, Hrl by done.
    unfold d. rewrite peval_app by done.
    unfold py_repeat at 2. rewrite peval_zeros, Z.lxor_0_r.
    unfold py_repeat. rewrite length_replicate.
    apply Z.lxor_nilpotent.
Qed.
End Codeword.

(** X11: Over every supported field the generator polynomial of [nsym0]
    redundancy symbols is monic of degree [nsym0] and vanishes at
    [gf_exp[1]], ..., [gf_exp[nsym0]]: the powers of the primitive element
    from the first on, not from the zeroth. *)
Theorem rs_generator_poly_roots
    (n0 k0 : Z) (self : RSCodec) (nsym0 i : Z) :
  RSCodec_init n0 k0 = Ok self ->
  1 <= i <= nsym0 -> nsym0 <= n self ->
  exists gen e,
    rs_generator_poly self nsym0 = Ok gen
    /\ len gen = nsym0 + 1 /\ gen !! 0%nat = Some 1
    /\ py_get (gf_exp self) i = Ok e
    /\ gf_poly_eval self gen e = Ok 0.
Proof.
  intros Hinit Hi Hn.
  destruct (RSCodec_init_field _ _ _ Hinit) as [Hft Hdistr].
  destruct (rs_generator_poly_peval self Hft Hdistr nsym0 ltac:(lia))
    as (gen & Hgen & Hlen & Hsym & Hroots).
  pose proof (ft_q _ Hft) as Hq.
  destruct (ft_exp_range _ Hft i ltac:(lia)) as (e & He & Her).
  exists gen, e. split_and!; try done.
  - by eapply rs_generator_poly_monic.
  - rewrite <- (Hroots i e Hi He).
    apply gf_poly_eval_peval; [done|done| |unfold symbol; lia].
    apply nonempty_len. lia.
Qed.

Lemma rs_generator_poly_roots_witness :
  exists gen e,
    rs_generator_poly codec_7_3 4 = Ok gen
    /\ len gen = 4 + 1 /\ gen !! 0%nat = Some 1
    /\ py_get (gf_exp codec_7_3) 3 = Ok e
    /\ gf_poly_eval codec_7_3 gen e = Ok 0.
Proof.
  apply (rs_generator_poly_roots 7 3 codec_7_3 4 3).
  - reflexivity.
  - lia.
  - vm_compute. discriminate.
Defined.

(** X12: Over a field that fits a byte every block the encoder returns is a
    code word of the generator's code: it vanishes at [gf_exp[1]], ...,
    [gf_exp[nsym0]]. *)
Theorem rs_encode_msg_codeword
    (n0 k0 : Z) (self : RSCodec) (msg_in : list Z) (nsym0 i : Z) :
  RSCodec_init n0 k0 = Ok self ->
  q self <= 256 -> Forall (symbol self) msg_in ->
  1 <= i <= nsym0 -> len msg_in + nsym0 <= n self ->
  exists out e,
    rs_encode_msg self msg_in nsym0 = Ok out
    /\ py_get (gf_exp self) i = Ok e
    /\ gf_poly_eval self out e = Ok 0.
Proof.
  intros Hinit Hbyte Hmsg Hi Hlen.
  destruct (RSCodec_init_field _ _ _ Hinit) as [Hft Hdistr].
  pose proof (len_nonneg msg_in) as HL.
  destruct (rs_encode_msg_peval self Hft Hdistr msg_in nsym0
              Hbyte Hmsg ltac:(lia) Hlen)
    as (out & Hout & Hsym & Hol & Hroots).
  pose proof (ft_q _ Hft) as Hq.
  destruct (ft_exp_range _ Hft i ltac:(lia)) as (e & He & Her).
  exists out, e. split_and!; try done.
  rewrite <- (Hroots i e Hi He).
  apply gf_poly_eval_peval; [done|done| |unfold symbol; lia].
  apply nonempty_len. lia.
Qed.

Lemma rs_encode_msg_codeword_witness :
  exists out e,
    rs_encode_msg codec_7_3 [1; 2; 3] 4 = Ok out
    /\ py_get (gf_exp codec_7_3) 2 = Ok e
    /\ gf_poly_eval codec_7_3 out e = Ok 0.
Proof.
  apply (rs_encode_msg_codeword 7 3 codec_7_3 [1; 2; 3] 4 2).
  - reflexivity.
  - vm_compute. discriminate.
  - repeat constructor; vm_compute; discriminate.
  - lia.
  - vm_compute. discriminate.
Defined.

Lemma peval_at_1 (self : RSCodec) (p : list Z) :
  field_tables self -> Forall (symbol self) p -> peval self p 1 = xor_sum p.
Proof.
  intros Hft Hp. unfold peval, xor_sum.
  assert (symbol self 0) as H0 by by apply symbol_0.
  revert H0. generalize 0.
  induction Hp as [|c p Hc Hp IH]; intros u Hu; [done|].
  cbn [fold_left]. unfold horner at 2. rewrite fmul_1_r by done.
  apply IH. by apply symbol_lxor.
Qed.

Lemma xor_sum_symbol (self : RSCodec) (p : list Z) :
  field_tables self -> Forall (symbol self) p -> symbol self (xor_sum p).
Proof.
  intros Hft Hp. rewrite <- (peval_at_1 self) by done.
  apply peval_symbol; [done|by apply symbol_1|done].
Qed.

(** The syndromes of a block of symbols that vanishes at [gf_exp[1]], ...,
    [gf_exp[nsym0 - 1]]: the sum of the block, then zeros. *)
Lemma rs_calc_syndromes_codeword (self : RSCodec) (out : list Z) (nsym0 : Z) :
  field_tables self -> Forall (symbol self) out -> out <> [] ->
  1 <= nsym0 <= n self ->
  (forall i e, 1 <= i < nsym0 -> py_get (gf_exp self) i = Ok e ->
     peval self out e = 0) ->
  rs_calc_syndromes self out nsym0
  = Ok (xor_sum out :: replicate (Z.to_nat (nsym0 - 1)) 0).
Proof.
  intros Hft Hsym Hne Hn Hroots. unfold rs_calc_syndromes.
  pose proof (ft_q _ Hft) as Hq.
  rewrite py_range_cons by lia. cbn [mapM].
  rewrite (ft_exp_0 _ Hft). cbn [bind].
  rewrite gf_poly_eval_peval; [|done|done|done|by apply symbol_1].
  cbn [bind]. rewrite (peval_at_1 self) by done.
  rewrite (mapM_const _ _ 0).
  - cbn [bind]. do 3 f_equal.
    pose proof (len_py_range (0 + 1) nsym0) as Hl. unfold len in Hl. lia.
  - intros i Hi%elem_of_py_range.
    destruct (ft_exp_range _ Hft i ltac:(lia)) as (e & He & Her).
    rewrite He. cbn [bind].
    rewrite gf_poly_eval_peval; [|done|done|done|unfold symbol; lia].
    f_equal. apply (Hroots i); [lia|done].
Qed.

(** X13: The syndromes the decoder computes of a block the encoder returned:
    all zero but the first, which is the sum (XOR) of the block's symbols.
    The decoder evaluates at [gf_exp[0]], ..., [gf_exp[nsym0 - 1]] while the
    encoder's blocks vanish at [gf_exp[1]], ..., [gf_exp[nsym0]]. *)
Theorem rs_encode_msg_syndromes
    (n0 k0 : Z) (self : RSCodec) (msg_in : list Z) (nsym0 : Z) :
  RSCodec_init n0 k0 = Ok self ->
  q self <= 256 -> Forall (symbol self) msg_in ->
  1 <= nsym0 -> len msg_in + nsym0 <= n self ->
  exists out,
    rs_encode_msg self msg_in nsym0 = Ok out
    /\ rs_calc_syndromes self out nsym0
       = Ok (xor_sum out :: replicate (Z.to_nat (nsym0 - 1)) 0).
Proof.
  intros Hinit Hbyte Hmsg Hnsym Hlen.
  destruct (RSCodec_init_field _ _ _ Hinit) as [Hft Hdistr].
  pose proof (len_nonneg msg_in) as HL.
  destruct (rs_encode_msg_peval self Hft Hdistr msg_in nsym0
              Hbyte Hmsg ltac:(lia) Hlen)
    as (out & Hout & Hsym & Hol & Hroots).
  exists out. split; [done|].
  apply rs_calc_syndromes_codeword; try done.
  - apply nonempty_len. lia.
  - lia.
  - intros i e Hi. apply Hroots. lia.
Qed.

Lemma rs_encode_msg_syndromes_witness :
  exists out,
    rs_encode_msg codec_7_3 [1; 2; 3] 4 = Ok out
    /\ rs_calc_syndromes codec_7_3 out 4
       = Ok (xor_sum out :: replicate (Z.to_nat (4 - 1)) 0).
Proof.
  apply (rs_encode_msg_syndromes 7 3 codec_7_3 [1; 2; 3] 4).
  - reflexivity.
  - vm_compute. discriminate.
  - repeat constructor; vm_compute; discriminate.
  - lia.
  - vm_compute. discriminate.
Defined.

(** ** The round trip of one block *)

Section RoundTrip.
Variable self : RSCodec.
Hypothesis Hft : field_tables self.

Local Abbreviation symbols := (Forall (symbol self)).

Local Ltac sym_list :=
  repeat (apply Forall_cons; split; [done|]); apply Forall_nil_2.

(** The Berlekamp-Massey loop on the syndromes [s0, 0, ..., 0] with
    [s0 <> 0]: the locator it ends with is [[s0, 1]] after one syndrome and
    the constant [[0, 1]] after more. *)
Lemma rs_find_errors_loop_single (s0 : Z) (m : nat) :
  1 <= s0 < q self ->
  exists old,
    rs_find_errors_loop self (s0 :: replicate m 0)
    = Ok (match m with O => [s0; 1] | S _ => [0; 1] end, old).
Proof.
  intros Hs0.
  assert (symbol self s0) as Hs0_sym by (unfold symbol; lia).
  destruct (gf_div_then_mul self Hft 1 s0 (symbol_1 self Hft) Hs0)
    as (inv & Hdiv & Hinv & Hinv_mul).
  apply fmul_gf_mul in Hinv_mul.
  destruct (gf_mul_nonzero self Hft s0 s0 Hs0 Hs0) as (d2 & Hd2 & Hd2r).
  apply fmul_gf_mul in Hd2.
  assert (symbol self d2) as Hd2_sym by (unfold symbol; lia).
  assert (fmul self inv d2 = s0) as Hinv_d2.
  { rewrite <- Hd2, <- fmul_assoc, Hinv_mul by done. by apply fmul_1_l. }
  assert (symbol self 0) as H0 by by apply symbol_0.
  assert (symbol self 1) as H1 by by apply symbol_1.
  assert (gf_poly_scale self [1; 0] s0 = Ok [s0; 0]) as Hsc1.
  { rewrite gf_poly_scale_map by (done || sym_list).
    cbn [fmap list_fmap]. by rewrite fmul_0_l, fmul_1_l. }
  assert (gf_poly_scale self [1] inv = Ok [inv]) as Hsc2.
  { rewrite gf_poly_scale_map by (done || sym_list).
    cbn [fmap list_fmap]. by rewrite fmul_1_l. }
  assert (gf_poly_scale self [inv] s0 = Ok [1]) as Hsc3.
  { rewrite gf_poly_scale_map by (done || sym_list).
    cbn [fmap list_fmap]. by rewrite Hinv_mul. }
  assert (gf_poly_scale self [inv; 0] d2 = Ok [s0; 0]) as Hsc4.
  { rewrite gf_poly_scale_map by (done || sym_list).
    cbn [fmap list_fmap]. by rewrite fmul_0_l, Hinv_d2. }
  set (synd := s0 :: replicate m 0).
  assert (len synd = Z.of_nat m + 1) as Hlen.
  { unfold len, synd. cbn. rewrite length_replicate. lia. }
  assert (forall i, 1 <= i < len synd -> py_get synd i = Ok 0) as Hsynd.
  { intros i Hi. apply py_get_lookup; [lia|]. unfold synd.
    replace (Z.to_nat i) with (S (Z.to_nat (i - 1))) by lia. cbn.
    apply lookup_replicate_2. lia. }
  set (Inv := fun (i : Z) (s : list Z * list Z) =>
    (i = 0 /\ s = ([1], [1]))
    \/ (i = 1 /\ s = ([s0; 1], [inv]))
    \/ (2 <= i /\ fst s = [0; 1] /\ symbols (snd s))).
  unfold rs_find_errors_loop.
  match goal with
  | |- context [for_ _ ?s ?body] =>
      destruct (for_range_total Inv body 0 (len synd) s) as (s' & -> & Hs')
  end.
  - lia.
  - by left.
  - intros i [err old] Hi [[-> [= -> ->]]|[[-> [= -> ->]]|(Hi2 & He & Ho)]].
    + cbn [app]. rewrite (py_get_lookup synd 0 s0) by done. cbn [bind].
      change (len [1]) with 1. rewrite py_range_nil by lia. cbn [for_ bind].
      destruct (Z.eqb_spec s0 0) as [|_]; [lia|].
      change (len [1; 0] >? 1) with true. cbn match.
      rewrite Hsc1. cbn [bind]. rewrite Hdiv. cbn [bind].
      rewrite Hsc2. cbn [bind]. rewrite Hsc3. cbn [bind].
      rewrite gf_poly_add_run. cbn [bind].
      eexists. split; [done|]. right. left. split; [done|].
      unfold xor_aligned, pad_left. cbn. by rewrite Z.lxor_0_r.
    + cbn [app]. rewrite (Hsynd 1) by lia. cbn [bind].
      change (len [s0; 1]) with 2.
      rewrite py_range_cons, py_range_nil by lia. cbn [for_].
      rewrite (py_get_lookup [s0; 1] _ s0) by done. cbn [bind].
      rewrite (py_get_lookup synd _ s0) by done. cbn [bind].
      rewrite gf_mul_fmul by done. cbn [bind]. rewrite Hd2, Z.lxor_0_l.
      destruct (Z.eqb_spec d2 0) as [|_]; [lia|].
      change (len [inv; 0] >? 2) with false. cbn match. cbn [bind].
      rewrite Hsc4. cbn [bind]. rewrite gf_poly_add_run. cbn [bind].
      eexists. split; [done|]. right. right. cbn [fst snd].
      split; [lia|]. split.
      * unfold xor_aligned, pad_left. cbn. by rewrite Z.lxor_nilpotent.
      * sym_list.
    + cbn [fst snd] in He, Ho. subst err.
      rewrite (Hsynd i) by lia. cbn [bind].
      change (len [0; 1]) with 2.
      rewrite py_range_cons, py_range_nil by lia. cbn [for_].
      rewrite (py_get_lookup [0; 1] _ 0) by done. cbn [bind].
      assert (exists s, py_get synd (i - 1) = Ok s) as [s ->].
      { destruct (lookup_lt_is_Some_2 synd (Z.to_nat (i - 1))) as [s Hs].
        - unfold len in Hi. lia.
        - exists s. apply py_get_lookup; [lia|done]. }
      cbn [bind]. change (gf_mul self 0 s) with (Ok (A:=Z) 0). cbn [bind].
      change (Z.lxor 0 0 =? 0) with true. cbn match.
      eexists. split; [done|]. right. right. cbn [fst snd].
      split; [lia|]. split; [done|].
      apply Forall_app. split; [done|]. by apply Forall_singleton, symbol_0.
  - destruct s' as [err old]. exists old. f_equal.
    destruct Hs' as [[Hz _]|[[Hone [= -> ->]]|(Hge & He & _)]].
    + lia.
    + destruct m as [|m]; [done|lia].
    + cbn [fst] in He. subst err. destruct m as [|m]; [lia|done].
Qed.

Lemma rs_find_errors_single (s0 : Z) (m : nat) (nmess : Z) :
  1 <= s0 < q self -> nmess <= n self + 1 ->
  rs_find_errors self (s0 :: replicate m 0) nmess
  = match m with O => Raise too_many_errors | S _ => Ok None end.
Proof.
  intros Hs0 Hnmess. unfold rs_find_errors.
  destruct (rs_find_errors_loop_single s0 m Hs0) as (old & ->).
  cbn [bind]. pose proof (ft_q _ Hft) as Hq.
  destruct m as [|m]; [done|].
  assert (len (s0 :: replicate (S m) 0) = Z.of_nat m + 2) as ->.
  { unfold len. cbn. rewrite length_replicate. lia. }
  change (len [0; 1] - 1) with 1.
  destruct (Z.gtb_spec (1 * 2) (Z.of_nat m + 2)) as [|_]; [lia|].
  match goal with
  | |- context [for_ _ ?s ?body] =>
      destruct (for_range_total (fun _ err_pos => err_pos = []) body
                  0 (Z.max 0 nmess) s) as (s' & Hrun & ->)
  end.
  - lia.
  - done.
  - intros i s Hi ->.
    destruct (ft_exp_range _ Hft (n self - i) ltac:(lia)) as (e & -> & _).
    cbn [bind]. unfold gf_poly_eval.
    rewrite (py_get_lookup [0; 1] 0 0) by done. cbn [bind].
    change (len [0; 1]) with 2.
    rewrite py_range_cons, py_range_nil by lia. cbn [for_].
    change (gf_mul self 0 e) with (Ok (A:=Z) 0). cbn [bind].
    rewrite (py_get_lookup [0; 1] 1 1) by done. cbn [bind].
    by exists [].
  - assert (py_range 0 nmess = py_range 0 (Z.max 0 nmess)) as ->.
    { unfold py_range. destruct (Z.max_spec 0 nmess) as [[? ->]|[? ->]];
        [done|]. by rewrite !seqZ_nil by lia. }
    rewrite Hrun. done.
Qed.

Lemma py_max_single (s0 : Z) (m : nat) :
  0 <= s0 -> py_max (s0 :: replicate m 0) = Ok s0.
Proof.
  intros Hs0. cbn [py_max]. f_equal.
  induction m as [|m IH]; [done|]. cbn [replicate fold_left].
  by rewrite Z.max_l by lia.
Qed.

(** The decoder on a block of symbols without erasures that vanishes at
    [gf_exp[1]], ..., [gf_exp[nsym0 - 1]]: it looks at the sum of the
    block only. *)
Lemma rs_correct_msg_codeword (out : list Z) (nsym0 : Z) :
  symbols out -> out <> [] -> len out <= n self -> 1 <= nsym0 <= n self ->
  (forall i e, 1 <= i < nsym0 -> py_get (gf_exp self) i = Ok e ->
     peval self out e = 0) ->
  rs_correct_msg self out nsym0
  = if xor_sum out =? 0 then Ok (take (length out - Z.to_nat nsym0) out)
    else if nsym0 =? 1 then Raise too_many_errors
    else Raise could_not_locate.
Proof.
  intros Hsym Hne Hlen Hn Hroots. unfold rs_correct_msg.
  destruct (Z.gtb_spec (len out) (n self)) as [|_]; [lia|].
  rewrite find_erasures_scan.
  destruct (erasures_of_symbols out) as [-> ->].
  { eapply Forall_impl; [exact Hsym|]. unfold symbol. intros v Hv. lia. }
  cbn [bind]. change (len (@nil Z)) with 0.
  destruct (Z.gtb_spec 0 nsym0) as [|_]; [lia|].
  rewrite (rs_calc_syndromes_codeword self out nsym0) by done.
  cbn [bind].
  pose proof (xor_sum_symbol self out Hft Hsym) as Hs0. unfold symbol in Hs0.
  rewrite py_max_single by lia. cbn [bind].
  destruct (Z.eqb_spec (xor_sum out) 0) as [Hz|Hnz].
  { by rewrite py_slice_strip by lia. }
  assert (rs_forney_syndromes self
            (xor_sum out :: replicate (Z.to_nat (nsym0 - 1)) 0) [] (len out)
          = Ok (xor_sum out :: replicate (Z.to_nat (nsym0 - 1)) 0)) as ->
    by done.
  cbn [bind]. rewrite rs_find_errors_single by lia.
  destruct (Z.eqb_spec nsym0 1) as [->|Hne1]; [done|].
  destruct (Z.to_nat (nsym0 - 1)) eqn:E; [lia|done].
Qed.
End RoundTrip.

(** X14: The round trip of one block over a field that fits a byte, with at
    least one redundancy symbol and no transmission error: the decoder
    returns the message when the symbols of the encoded block sum (XOR) to
    zero, and raises [ReedSolomonError] otherwise, because it takes the sum
    for a syndrome. *)
Theorem block_round_trip_iff
    (n0 k0 : Z) (self : RSCodec) (msg_in : list Z) :
  RSCodec_init n0 k0 = Ok self ->
  q self <= 256 -> Forall (symbol self) msg_in ->
  1 <= nsym self -> len msg_in + nsym self <= n self ->
  exists out,
    encode_block self msg_in = Ok out
    /\ (xor_sum out = 0 -> decode_block self out = Ok msg_in)
    /\ (xor_sum out <> 0 ->
        decode_block self out
        = Raise (if nsym self =? 1 then too_many_errors
                 else could_not_locate)).
Proof.
  intros Hinit Hbyte Hmsg Hnsym Hlen.
  destruct (RSCodec_init_field _ _ _ Hinit) as [Hft Hdistr].
  pose proof (len_nonneg msg_in) as HL.
  destruct (rs_encode_msg_peval self Hft Hdistr msg_in (nsym self)
              Hbyte Hmsg ltac:(lia) Hlen)
    as (out & Hout & Hsym & Hol & Hroots).
  destruct (rs_encode_msg_total self Hft msg_in (nsym self)
              Hbyte Hmsg ltac:(lia) Hlen) as (gen & _ & _ & Henc).
  exists out. split; [done|]. unfold decode_block.
  rewrite (rs_correct_msg_codeword self Hft out (nsym self)); try done.
  2:{ apply nonempty_len. lia. }
  2:{ lia. }
  2:{ lia. }
  2:{ intros i e Hi. apply Hroots. lia. }
  split.
  - intros ->. cbn. f_equal.
    rewrite Hout in Henc. injection Henc as ->.
    unfold len in Hol. rewrite length_app in *.
    replace (length msg_in + _ - Z.to_nat (nsym self))%nat
      with (length msg_in) by lia.
    by rewrite take_app_length.
  - intros Hnz. destruct (Z.eqb_spec (xor_sum out) 0); [done|].
    by destruct (nsym self =? 1).
Qed.

Lemma block_round_trip_iff_witness :
  exists out,
    encode_block codec_7_3 [1; 2; 3] = Ok out
    /\ (xor_sum out = 0 -> decode_block codec_7_3 out = Ok [1; 2; 3])
    /\ (xor_sum out <> 0 ->
        decode_block codec_7_3 out
        = Raise (if nsym codec_7_3 =? 1 then too_many_errors
                 else could_not_locate)).
Proof.
  apply (block_round_trip_iff 7 3 codec_7_3 [1; 2; 3]).
  - reflexivity.
  - vm_compute. discriminate.
  - repeat constructor; vm_compute; discriminate.
  - vm_compute. discriminate.
  - vm_compute. discriminate.
Defined.

(** ** Chunking *)

Lemma py_range3_empty (k : Z) : 1 <= k -> py_range3 0 0 k = Ok [].
Proof.
  intros Hk. unfold py_range3.
  destruct (Z.eqb_spec k 0); [lia|]. destruct (Z.ltb_spec 0 k); [|lia].
  replace ((0 - 0 + k - 1) / k) with 0; [done|].
  symmetry. apply Z.div_small. lia.
Qed.

Lemma py_range3_single (L k : Z) : 1 <= L <= k -> py_range3 0 L k = Ok [0].
Proof.
  intros HL. unfold py_range3.
  destruct (Z.eqb_spec k 0); [lia|]. destruct (Z.ltb_spec 0 k); [|lia].
  replace ((L - 0 + k - 1) / k) with 1; [done|].
  replace (L - 0 + k - 1) with (L - 1 + 1 * k) by lia.
  rewrite Z.div_add by lia. rewrite Z.div_small by lia. done.
Qed.

Lemma py_range3_chunks (L k : Z) :
  1 <= k -> 0 <= L ->
  exists starts,
    py_range3 0 L k = Ok starts
    /\ py_range3 0 (k + L) k = Ok (0 :: ((fun i => k + i) <$> starts))
    /\ Forall (fun i => 0 <= i) starts.
Proof.
  intros Hk HL. unfold py_range3.
  destruct (Z.eqb_spec k 0); [lia|]. destruct (Z.ltb_spec 0 k); [|lia].
  eexists. split; [done|].
  set (c := (L - 0 + k - 1) / k).
  assert (0 <= c) as Hc by (apply Z.div_pos; lia).
  assert ((k + L - 0 + k - 1) / k = c + 1) as ->.
  { replace (k + L - 0 + k - 1) with (L - 0 + k - 1 + 1 * k) by lia.
    by rewrite Z.div_add by lia. }
  split.
  - f_equal. rewrite seqZ_cons by lia. cbn [fmap list_fmap]. f_equal.
    replace (Z.pred (c + 1)) with c by lia.
    change (Z.succ 0) with (1 + 0). rewrite <- fmap_add_seqZ.
    rewrite <- !list_fmap_compose. apply list_fmap_ext.
    intros _ j _. cbn. lia.
  - apply Forall_fmap, Forall_forall. intros j Hj%elem_of_seqZ. cbn. nia.
Qed.

Lemma py_slice_app_prefix {A} (c rest : list A) (k : Z) :
  len c = k -> py_slice (c ++ rest) 0 (0 + k) = c.
Proof.
  intros <-. unfold py_slice, py_bound. rewrite len_app.
  pose proof (len_nonneg c). pose proof (len_nonneg rest).
  destruct (Z.ltb_spec 0 0); [lia|]. destruct (Z.ltb_spec (0 + len c) 0); [lia|].
  replace (Z.to_nat (Z.min (Z.max 0 0) (len c + len rest))) with 0%nat by lia.
  replace (Z.to_nat (Z.min (Z.max (0 + len c) 0) (len c + len rest)))
    with (length c) by (unfold len in *; lia).
  by rewrite drop_0, Nat.sub_0_r, take_app_length.
Qed.

Lemma py_slice_app_shift {A} (c rest : list A) (i k : Z) :
  0 <= i -> 0 <= k ->
  py_slice (c ++ rest) (len c + i) (len c + i + k) = py_slice rest i (i + k).
Proof.
  intros Hi Hk. unfold py_slice, py_bound. rewrite len_app.
  pose proof (len_nonneg c). pose proof (len_nonneg rest).
  destruct (Z.ltb_spec (len c + i) 0); [lia|].
  destruct (Z.ltb_spec (len c + i + k) 0); [lia|].
  destruct (Z.ltb_spec i 0); [lia|]. destruct (Z.ltb_spec (i + k) 0); [lia|].
  replace (Z.to_nat (Z.min (Z.max (len c + i) 0) (len c + len rest)))
    with (length c + Z.to_nat (Z.min (Z.max i 0) (len rest)))%nat
    by (unfold len in *; lia).
  replace (Z.to_nat (Z.min (Z.max (len c + i + k) 0) (len c + len rest)))
    with (length c + Z.to_nat (Z.min (Z.max (i + k) 0) (len rest)))%nat
    by (unfold len in *; lia).
  rewrite drop_app_add. f_equal. lia.
Qed.

Lemma for_ext {S} (l : list Z) (s : S) (body1 body2 : Z -> S -> result S) :
  (forall i s, body1 i s = body2 i s) -> for_ l s body1 = for_ l s body2.
Proof.
  intros Hext. revert s. induction l as [|i l IH]; intros s; [done|].
  cbn [for_]. rewrite Hext. destruct (body2 i s); [|done]. cbn [bind]. apply IH.
Qed.

(** A loop that appends one block per start index: the blocks of shifted
    indices after an accumulated prefix. *)
Lemma for_chunks (g1 g2 : Z -> result (list Z)) (sh : Z -> Z)
    (l : list Z) (acc acc' : list Z) :
  (forall i, i ∈ l -> g1 (sh i) = g2 i) ->
  for_ (sh <$> l) (acc ++ acc') (fun i e => b <- g1 i ;; Ok (e ++ b))
  = (r <- for_ l acc' (fun i e => b <- g2 i ;; Ok (e ++ b)) ;; Ok (acc ++ r)).
Proof.
  revert acc'. induction l as [|i l IH]; intros acc' Hg; [done|].
  cbn [fmap list_fmap for_]. rewrite (Hg i) by (apply elem_of_cons; by left).
  destruct (g2 i) as [b|e]; [|done]. cbn [bind].
  rewrite <- app_assoc. apply IH. intros j Hj. apply Hg.
  apply elem_of_cons. by right.
Qed.

Lemma encode_nil (self : RSCodec) :
  1 <= n self - nsym self -> encode self [] = Ok [].
Proof.
  intros Hk. unfold encode. change (len (@nil Z)) with 0.
  by rewrite py_range3_empty.
Qed.

Lemma encode_single (self : RSCodec) (data : list Z) :
  1 <= len data <= n self - nsym self ->
  encode self data = encode_block self data.
Proof.
  intros Hd. set (k := n self - nsym self) in *. unfold encode. fold k.
  rewrite py_range3_single by done. cbn [bind for_].
  assert (py_slice data 0 (0 + k) = data) as ->.
  { unfold py_slice, py_bound.
    destruct (Z.ltb_spec 0 0); [lia|]. destruct (Z.ltb_spec (0 + k) 0); [lia|].
    replace (Z.to_nat (Z.min (Z.max 0 0) (len data))) with 0%nat by lia.
    rewrite drop_0. apply take_ge. unfold len in *. lia. }
  unfold encode_block. by destruct (rs_encode_msg _ _ _).
Qed.

Lemma encode_app (self : RSCodec) (c rest : list Z) :
  1 <= n self - nsym self -> len c = n self - nsym self ->
  encode self (c ++ rest)
  = (b <- encode_block self c ;; r <- encode self rest ;; Ok (b ++ r)).
Proof.
  intros Hk Hc. set (k := n self - nsym self) in *. unfold encode. fold k.
  pose proof (len_nonneg rest) as Hr.
  destruct (py_range3_chunks (len rest) k Hk Hr) as (starts & Hs & Hs' & Hnn).
  rewrite len_app, Hc, Hs, Hs'. cbn [bind for_].
  rewrite py_slice_app_prefix by done. unfold encode_block.
  destruct (rs_encode_msg self c (nsym self)) as [b|e]; [|done].
  cbn [bind app]. rewrite <- (app_nil_r b) at 1.
  apply (for_chunks
           (fun i => rs_encode_msg self (py_slice (c ++ rest) i (i + k))
                       (nsym self))
           (fun i => rs_encode_msg self (py_slice rest i (i + k))
                       (nsym self))).
  intros i Hi. rewrite Forall_forall in Hnn. specialize (Hnn i Hi).
  rewrite <- Hc. by rewrite py_slice_app_shift by lia.
Qed.

(** X19: [encode] cuts the data into chunks of [n - nsym] symbols and
    concatenates their encoded blocks: the empty input gives the empty
    output, a short input is one block, and a first full chunk is encoded
    apart from the rest. *)
Theorem encode_chunks (self : RSCodec) :
  1 <= n self - nsym self ->
  encode self [] = Ok []
  /\ (forall data, 1 <= len data <= n self - nsym self ->
        encode self data = encode_block self data)
  /\ (forall c rest, len c = n self - nsym self ->
        encode self (c ++ rest)
        = (b <- encode_block self c ;;
           r <- encode self rest ;;
           Ok (b ++ r))).
Proof.
  intros Hk. split_and!.
  - by apply encode_nil.
  - apply encode_single.
  - intros c rest. by apply encode_app.
Qed.

Lemma encode_chunks_witness :
  encode codec_7_3 [] = Ok []
  /\ (forall data, 1 <= len data <= n codec_7_3 - nsym codec_7_3 ->
        encode codec_7_3 data = encode_block codec_7_3 data)
  /\ (forall c rest, len c = n codec_7_3 - nsym codec_7_3 ->
        encode codec_7_3 (c ++ rest)
        = (b <- encode_block codec_7_3 c ;;
           r <- encode codec_7_3 rest ;;
           Ok (b ++ r))).
Proof.
  apply (encode_chunks codec_7_3). vm_compute. discriminate.
Defined.

(** X22: [decode] cuts the data into chunks of [n] symbols, decodes each and
    appends the result to a bytearray. *)
Theorem decode_chunks (self : RSCodec) :
  1 <= n self ->
  decode self [] = Ok []
  /\ (forall data, 1 <= len data <= n self ->
        decode self data
        = (b <- decode_block self data ;; ba_extend [] b))
  /\ (forall c rest, len c = n self ->
        decode self (c ++ rest)
        = (b <- decode_block self c ;;
           b <- ba_extend [] b ;;
           r <- decode self rest ;;
           Ok (b ++ r))).
Proof.
  intros Hn. split_and!.
  - unfold decode. change (len (@nil Z)) with 0.
    by rewrite py_range3_empty.
  - intros data Hd. unfold decode.
    rewrite py_range3_single by done. cbn [bind for_].
    assert (py_slice data 0 (0 + n self) = data) as ->.
    { unfold py_slice, py_bound.
      destruct (Z.ltb_spec 0 0); [lia|].
      destruct (Z.ltb_spec (0 + n self) 0); [lia|].
      replace (Z.to_nat (Z.min (Z.max 0 0) (len data))) with 0%nat by lia.
      rewrite drop_0. apply take_ge. unfold len in *. lia. }
    unfold decode_block. destruct (rs_correct_msg _ _ _) as [b|e]; [|done].
    cbn [bind]. by destruct (ba_extend [] b).
  - intros c rest Hc.
    assert (forall data starts acc,
      for_ starts acc (fun i dec =>
        block <- rs_correct_msg self (py_slice data i (i + n self))
                   (nsym self) ;;
        ba_extend dec block)
      = for_ starts acc (fun i dec =>
          b <- (block <- rs_correct_msg self (py_slice data i (i + n self))
                           (nsym self) ;;
                ba_extend [] block) ;;
          Ok (dec ++ b))) as Hform.
    { intros data starts acc. apply for_ext. intros i dec.
      destruct (rs_correct_msg _ _ _) as [b|e]; [|done]. cbn [bind].
      unfold ba_extend. by destruct (forallb is_byte b). }
    unfold decode. pose proof (len_nonneg rest) as Hr.
    destruct (py_range3_chunks (len rest) (n self) Hn Hr)
      as (starts & Hs & Hs' & Hnn).
    rewrite len_app, Hc, Hs, Hs'. cbn [bind for_].
    rewrite py_slice_app_prefix by done. unfold decode_block.
    destruct (rs_correct_msg self c (nsym self)) as [b|e]; [|done].
    cbn [bind]. unfold ba_extend at 1 3.
    destruct (forallb is_byte b); [|done]. cbn [bind app].
    rewrite !Hform. rewrite <- (app_nil_r b) at 1.
    apply (for_chunks
             (fun i => block <- rs_correct_msg self
                                  (py_slice (c ++ rest) i (i + n self))
                                  (nsym self) ;;
                       ba_extend [] block)
             (fun i => block <- rs_correct_msg self
                                  (py_slice rest i (i + n self))
                                  (nsym self) ;;
                       ba_extend [] block)).
    intros i Hi. rewrite Forall_forall in Hnn. specialize (Hnn i Hi).
    rewrite <- Hc. by rewrite py_slice_app_shift by lia.
Qed.

Lemma decode_chunks_witness :
  decode codec_7_3 [] = Ok []
  /\ (forall data, 1 <= len data <= n codec_7_3 ->
        decode codec_7_3 data
        = (b <- decode_block codec_7_3 data ;; ba_extend [] b))
  /\ (forall c rest, len c = n codec_7_3 ->
        decode codec_7_3 (c ++ rest)
        = (b <- decode_block codec_7_3 c ;;
           b <- ba_extend [] b ;;
           r <- decode codec_7_3 rest ;;
           Ok (b ++ r))).
Proof.
  apply (decode_chunks codec_7_3). vm_compute. discriminate.
Defined.

(** X20: The constructor does not validate [k], and [encode] sends no
    message symbol when [k <= 0]: for a codec built with [k = 0] it raises
    the [ValueError] of [range] with a zero step on every input, and for
    one built with [k < 0] it returns the empty output on every input. *)
Theorem encode_without_message_symbols
    (n0 k0 : Z) (self : RSCodec) (data : list Z) :
  RSCodec_init n0 k0 = Ok self -> k0 <= 0 ->
  encode self data = if k0 =? 0 then Raise range_step_error else Ok [].
Proof.
  intros Hinit Hk. apply RSCodec_init_inv in Hinit as (_ & Hn & _ & _ & Hnsym).
  unfold encode, py_range3. rewrite Hn, Hnsym.
  replace (n0 - (n0 - k0)) with k0 by lia.
  destruct (Z.eqb_spec k0 0) as [|Hnz]; [done|].
  destruct (Z.ltb_spec 0 k0); [lia|].
  pose proof (len_nonneg data) as HL.
  rewrite seqZ_nil; [done|].
  enough ((0 - len data - k0 - 1) / - k0 < 1) by lia.
  apply Z.div_lt_upper_bound; lia.
Qed.

Lemma encode_without_message_symbols_witness :
  exists self,
    RSCodec_init 7 (-1) = Ok self
    /\ encode self [1; 2; 3] = (if -1 =? 0 then Raise range_step_error else Ok []).
Proof.
  eexists. split; [vm_compute; reflexivity|].
  apply (encode_without_message_symbols 7 (-1)); [vm_compute; reflexivity|lia].
Defined.

(** X21: Over a field that fits a byte and with at least one message symbol
    per block, [encode] returns on every sequence of symbols, and adds
    [nsym] symbols for every chunk, the last and shorter one included. *)
Theorem encode_total_length
    (n0 k0 : Z) (self : RSCodec) (data : list Z) :
  RSCodec_init n0 k0 = Ok self ->
  q self <= 256 -> 0 <= nsym self -> 1 <= n self - nsym self ->
  Forall (symbol self) data ->
  exists out,
    encode self data = Ok out
    /\ len out
       = len data
         + nsym self
           * ((len data + (n self - nsym self) - 1) / (n self - nsym self)).
Proof.
  intros Hinit Hbyte Hnsym Hk.
  destruct (RSCodec_init_field _ _ _ Hinit) as [Hft Hdistr].
  set (k := n self - nsym self) in *.
  remember (length data) as m eqn:Hm. revert data Hm.
  induction m as [m IH] using lt_wf_ind. intros data Hm Hsym.
  destruct (Z.le_gt_cases (len data) k) as [Hle|Hgt].
  - destruct (Z.eq_dec (len data) 0) as [Hz|Hnz].
    + assert (data = []) as -> by (destruct data; [done|unfold len in Hz; cbn in Hz; lia]).
      exists []. split; [by apply encode_nil|].
      change (len (@nil Z)) with 0.
      rewrite (Z.div_small (0 + k - 1) k) by lia. lia.
    + pose proof (len_nonneg data).
      rewrite encode_single by (fold k; lia). unfold encode_block.
      destruct (rs_encode_msg_peval self Hft Hdistr data (nsym self)
                  Hbyte Hsym Hnsym ltac:(unfold k in *; lia))
        as (out & -> & _ & Hol & _).
      exists out. split; [done|]. rewrite Hol.
      replace (len data + k - 1) with (len data - 1 + 1 * k) by lia.
      rewrite Z.div_add, Z.div_small by lia. lia.
  - set (c := take (Z.to_nat k) data). set (rest := drop (Z.to_nat k) data).
    assert (data = c ++ rest) as Hsplit by (symmetry; apply take_drop).
    assert (len c = k) as Hc.
    { unfold c, len in *. rewrite length_take. lia. }
    assert (len rest = len data - k) as Hr.
    { unfold rest, len in *. rewrite length_drop. lia. }
    replace (encode self data) with (encode self (c ++ rest))
      by (by rewrite <- Hsplit).
    rewrite encode_app by done. unfold encode_block.
    destruct (rs_encode_msg_peval self Hft Hdistr c (nsym self) Hbyte)
      as (b & -> & _ & Hbl & _);
      [by apply Forall_take|done|unfold k in *; lia|].
    cbn [bind].
    destruct (IH (length rest)) with (data := rest) as (r & -> & Hrl);
      [unfold len in *; lia|done|by apply Forall_drop|].
    cbn [bind]. eexists. split; [done|].
    rewrite len_app, Hbl, Hrl, Hc, Hr.
    replace (len data + k - 1) with (len data - k + k - 1 + 1 * k) by lia.
    rewrite Z.div_add by lia. lia.
Qed.

Lemma encode_total_length_witness :
  exists out,
    encode codec_7_3 [1; 2; 3; 4; 5] = Ok out
    /\ len out
       = len [1; 2; 3; 4; 5]
         + nsym codec_7_3
           * ((len [1; 2; 3; 4; 5] + (n codec_7_3 - nsym codec_7_3) - 1)
              / (n codec_7_3 - nsym codec_7_3)).
Proof.
  apply (encode_total_length 7 3 codec_7_3 [1; 2; 3; 4; 5]).
  - reflexivity.
  - vm_compute. discriminate.
  - vm_compute. discriminate.
  - vm_compute. discriminate.
  - repeat constructor; vm_compute; discriminate.
Defined.
